(** * Sparse scalar vectors: a model of [projects/whydense/scalar_sdrs.py]

    The simulation draws random sparse vectors, calibrates a dot-product
    threshold and counts matches.  This development embeds the numeric
    core of the script and states its contracts.

    Modelling conventions.
    - Real numbers are exact rationals ([Q]); the rounding of IEEE floats
      is abstracted away.  The one non-finite float the script can
      produce, the [nan] that [numpy.mean] returns on an empty array, is
      kept ([pyfloat]).
    - Sparsities, dimensionalities, batch sizes and trial counts are
      natural numbers.
    - torch tensors live in a store and are handled through references,
      so that in-place writes and copies are distinguished.
    - The process-wide random sources are two streams: [torch_rand t] is
      the [t]-th number in [0,1) that torch's generator yields, and
      [np_perm t n] is what the [t]-th call of [numpy.random.permutation]
      returns when asked for a permutation of [range(n)].  The world
      records how far each stream has been consumed.
    - Console output and the files that plotting writes are not modelled;
      what the plotting functions draw is (section Figures).  The sweeps
      [compute_false_negatives_parallel] and [compute_match_probabilities]
      are modelled up to the array that they hand to their plotting
      function. *)

From Stdlib Require Import QArith Qround Lia Lqa List Permutation.
From stdpp Require Import gmap strings list fin_maps.

Local Open Scope nat_scope.

(** ** Python values and exceptions *)

Inductive exn : Type :=
| ZeroDivisionError
| IndexError
| KeyError (key : string)
| ValueError
| TypeError
| RuntimeError.

Inductive Res (A : Type) : Type :=
| OK (a : A)
| Raise (e : exn).
Arguments OK {A} a.
Arguments Raise {A} e.

(** A Python float: a finite number or [nan]. *)
Inductive pyfloat : Type :=
| Fin (q : Q)
| NaN.

Inductive pyval : Type :=
| PyInt (z : Z)
| PyFloat (f : pyfloat)
| PyIntList (l : list Z).

(** A settings record is a Python [dict] with string keys. *)
Abbreviation dict := (gmap string pyval).

Definition Qnat (n : nat) : Q := inject_Z (Z.of_nat n).

(** Python 3 [round]: to the nearest integer, ties to the even one. *)
Definition py_round (q : Q) : Z :=
  let f := Qfloor q in
  match (q - inject_Z f ?= 1 # 2)%Q with
  | Lt => f
  | Gt => (f + 1)%Z
  | Eq => if Z.even f then f else (f + 1)%Z
  end.

(** Python slice [l[0:stop]]: a negative [stop] counts from the end. *)
Definition py_slice_to {A : Type} (l : list A) (stop : Z) : list A :=
  if (0 <=? stop)%Z then take (Z.to_nat stop) l
  else take (length l - Z.to_nat (- stop)) l.

(** ** Tensors *)

Abbreviation tensor := (list (list Q)).

Definition is_nonzero (x : Q) : bool := negb (Qeq_bool x 0).

Definition count_nonzero (row : list Q) : nat :=
  length (List.filter is_nonzero row).

(** [row.nonzero()]: the positions of the non-zero entries, ascending. *)
Definition nonzero (row : list Q) : list nat :=
  List.filter (fun j => match row !! j with
                        | Some x => is_nonzero x
                        | None => false
                        end) (seq 0 (length row)).

Fixpoint dot (x y : list Q) : Q :=
  match x, y with
  | a :: x', b :: y' => (a * b + dot x' y')%Q
  | _, _ => 0%Q
  end.

(** [theta <= d], false when [theta] is [nan]. *)
Definition ge_theta (d : Q) (theta : pyfloat) : bool :=
  match theta with
  | Fin t => Qle_bool t d
  | NaN => false
  end.

(** ** The world: tensor store and random-stream positions *)

Record World : Type := mkWorld {
  heap : gmap nat tensor;
  torch_pos : nat;
  np_pos : nat
}.

Definition M (A : Type) : Type := World -> Res (A * World).

Definition ret {A} (a : A) : M A := fun σ => OK (a, σ).

Definition bind {A B} (m : M A) (k : A -> M B) : M B :=
  fun σ => match m σ with
           | OK (a, σ') => k a σ'
           | Raise e => Raise e
           end.

Definition raise {A} (e : exn) : M A := fun _ => Raise e.

Notation "x <- m ;; k" := (bind m (fun x => k))
  (at level 100, m at next level, right associativity).
Notation "m ;;; k" := (bind m (fun _ => k))
  (at level 100, right associativity).

Fixpoint forM_ {A} (l : list A) (f : A -> M unit) : M unit :=
  match l with
  | [] => ret tt
  | a :: l' => f a ;;; forM_ l' f
  end.

Fixpoint mapM {A B} (f : A -> M B) (l : list A) : M (list B) :=
  match l with
  | [] => ret []
  | a :: l' => b <- f a ;; bs <- mapM f l' ;; ret (b :: bs)
  end.

Fixpoint foldM {A B} (f : B -> A -> M B) (b : B) (l : list A) : M B :=
  match l with
  | [] => ret b
  | a :: l' => b' <- f b a ;; foldM f b' l'
  end.

(** Python float division, [a / b]. *)
Definition py_div (a b : Q) : M Q :=
  if Qeq_bool b 0 then raise ZeroDivisionError else ret (a / b)%Q.

(** *** Store primitives *)

Definition alloc (t : tensor) : M nat := fun σ =>
  let l := fresh (dom (heap σ)) in
  OK (l, mkWorld (<[l := t]> (heap σ)) (torch_pos σ) (np_pos σ)).

Definition load (l : nat) : M tensor := fun σ =>
  match heap σ !! l with
  | Some t => OK (t, σ)
  | None => Raise RuntimeError
  end.

Definition store (l : nat) (t : tensor) : M unit := fun σ =>
  OK (tt, mkWorld (<[l := t]> (heap σ)) (torch_pos σ) (np_pos σ)).

(** [torch.Tensor(m, n)]: a fresh [m] x [n] tensor.  Its memory is
    uninitialised in torch; every caller fills it before reading. *)
Definition torch_Tensor (m n : nat) : M nat :=
  alloc (replicate m (replicate n 0%Q)).

Definition numel (t : tensor) : nat :=
  foldr (fun r acc => length r + acc) 0 t.

(** [t[i, j] = 0] on a tensor value; [None] when out of bounds. *)
Definition set_zero (t : tensor) (i j : nat) : option tensor :=
  match t !! i with
  | Some r => if decide (j < length r) then Some (<[i := <[j := 0%Q]> r]> t)
              else None
  | None => None
  end.

(** [w[i, j] = 0], in place. *)
Definition setitem_zero (w i j : nat) : M unit :=
  t <- load w ;;
  match set_zero t i j with
  | Some t' => store w t'
  | None => raise IndexError
  end.

(** [w.data[(rows, cols)] = 0.0] for the index pairs [idxs]. *)
Definition index_put_zero (w : nat) (idxs : list (nat * nat)) : M unit :=
  forM_ idxs (fun ij => setitem_zero w (fst ij) (snd ij)).

(** [w.repeat(m2, 1)]: a fresh tensor holding [m2] copies of the rows
    of [w], one block after the other. *)
Definition tensor_repeat (w m2 : nat) : M nat :=
  t <- load w ;; alloc (concat (replicate m2 t)).

(** [w[i].nonzero()]; the index tensor is only read, so it is a value. *)
Definition row_nonzero (w i : nat) : M (list nat) :=
  t <- load w ;;
  match t !! i with
  | Some r => ret (nonzero r)
  | None => raise IndexError
  end.

(** [w[i].dot(w[j])] *)
Definition row_dot (w i j : nat) : M Q :=
  t <- load w ;;
  match t !! i, t !! j with
  | Some x, Some y => ret (dot x y)
  | _, _ => raise IndexError
  end.

(** [a.matmul(b.t())]: entry [(i, j)] is the dot product of row [i] of
    [a] with row [j] of [b]; both have the same number of columns. *)
Definition matmul_t (a b : nat) : M nat :=
  ta <- load a ;;
  tb <- load b ;;
  alloc (map (fun x => map (fun y => dot x y) tb) ta).

Definition count_ge (t : tensor) (theta : pyfloat) : nat :=
  list_sum (map (fun r => length (List.filter (fun d => ge_theta d theta) r)) t).

(** [((d >= theta).sum()).item()] *)
Definition tensor_count_ge (d : nat) (theta : pyfloat) : M nat :=
  t <- load d ;; ret (count_ge t theta).

(** *** numpy arrays of floats, as values *)

(** [a[i] = v] for [0 <= i]. *)
Definition array_set (a : list Q) (i : nat) (v : Q) : M (list Q) :=
  if decide (i < length a) then ret (<[i := v]> a) else raise IndexError.

(** A Python integer used as an index into [len] items: negative
    indices count from the end. *)
Definition py_index (len : nat) (z : Z) : M nat :=
  if (0 <=? z)%Z then
    if decide (Z.to_nat z < len) then ret (Z.to_nat z) else raise IndexError
  else if (- Z.of_nat len <=? z)%Z
       then ret (Z.to_nat (Z.of_nat len + z))
       else raise IndexError.

(** [a[z] = v] *)
Definition array_set_int (a : list Q) (z : Z) (v : Q) : M (list Q) :=
  i <- py_index (length a) z ;; array_set a i v.

(** [a[zi, zj] = v] on a two-dimensional array. *)
Definition array2_set_int (a : list (list Q)) (zi zj : Z) (v : Q)
    : M (list (list Q)) :=
  i <- py_index (length a) zi ;;
  match a !! i with
  | Some row =>
      j <- py_index (length row) zj ;;
      row' <- array_set row j v ;;
      ret (<[i := row']> a)
  | None => raise IndexError
  end.

Definition Qsum (l : list Q) : Q := foldr Qplus 0%Q l.

(** [a.mean()]: [nan] on an empty array. *)
Definition np_mean (a : list Q) : pyfloat :=
  match a with
  | [] => NaN
  | _ => Fin (Qsum a / Qnat (length a))%Q
  end.

Definition pyfloat_half (f : pyfloat) : pyfloat :=
  match f with
  | Fin q => Fin (q / 2)%Q
  | NaN => NaN
  end.

(** *** Settings records *)

Definition getitem (d : dict) (key : string) : M pyval :=
  match d !! key with
  | Some v => ret v
  | None => raise (KeyError key)
  end.

(** The readers below fix the kind of value each key holds; a value
    of another kind is outside the model. *)
Definition int_arg (d : dict) (key : string) : M Z :=
  v <- getitem d key ;;
  match v with
  | PyInt z => ret z
  | _ => raise TypeError
  end.

Definition float_arg (d : dict) (key : string) : M pyfloat :=
  v <- getitem d key ;;
  match v with
  | PyFloat f => ret f
  | PyInt z => ret (Fin (inject_Z z))
  | _ => raise TypeError
  end.

(** [d[key][i]] for a key that holds a list of integers. *)
Definition index_arg (d : dict) (key : string) (i : nat) : M Z :=
  v <- getitem d key ;;
  match v with
  | PyIntList l =>
      match l !! i with
      | Some z => ret z
      | None => raise IndexError
      end
  | _ => raise TypeError
  end.

(** The generators and trial functions take sizes and finite numbers.
    A negative integer or a [nan] is outside their model and is rejected
    where it would be passed to them. *)
Definition as_size (z : Z) : M nat :=
  if (0 <=? z)%Z then ret (Z.to_nat z) else raise ValueError.

Definition as_finite (f : pyfloat) : M Q :=
  match f with
  | Fin q => ret q
  | NaN => raise ValueError
  end.

(** The default [n_trials] of [get_theta]. *)
Definition default_theta_trials : nat := Z.to_nat 100000.

(** ** Figures

    What the plotting functions draw on a pair of axes: the axis labels,
    the scale of the y axis, and the curves and text annotations in
    drawing order.  Line styles, the figure title and the file that
    [savefig] writes are left out. *)

Inductive artist : Type :=
| Line2D (xdata ydata : list Q) (label : string)
| Annotation (text : string) (x y : Q).

Record Axes : Type := mkAxes {
  xlabel : string;
  ylabel : string;
  yscale : string;
  artists : list artist
}.

(** The axes of [plt.subplots()]. *)
Definition subplots : Axes := mkAxes "" "" "linear" [].

Definition set_xlabel (ax : Axes) (s : string) : Axes :=
  mkAxes s (ylabel ax) (yscale ax) (artists ax).

Definition set_ylabel (ax : Axes) (s : string) : Axes :=
  mkAxes (xlabel ax) s (yscale ax) (artists ax).

Definition set_yscale (ax : Axes) (s : string) : Axes :=
  mkAxes (xlabel ax) (ylabel ax) s (artists ax).

Definition add_artist (ax : Axes) (a : artist) : Axes :=
  mkAxes (xlabel ax) (ylabel ax) (yscale ax) (artists ax ++ [a]).

(** [ax.plot(x, y, ..., label=label)]: matplotlib refuses two sequences
    of different lengths. *)
Definition ax_plot (ax : Axes) (x y : list Q) (label : string) : M Axes :=
  if decide (length x = length y) then ret (add_artist ax (Line2D x y label))
  else raise ValueError.

(** [ax.annotate(text, xy=(x, y), ...)] *)
Definition ax_annotate (ax : Axes) (text : string) (x y : Q) : Axes :=
  add_artist ax (Annotation text x y).

(** [l[i]] on a sequence of numbers, [0 <= i]. *)
Definition seq_get (l : list Q) (i : nat) : M Q :=
  match l !! i with
  | Some x => ret x
  | None => raise IndexError
  end.

(** [a[i, :]] on a two-dimensional array, [0 <= i]. *)
Definition array2_row (a : list (list Q)) (i : nat) : M (list Q) :=
  match a !! i with
  | Some row => ret row
  | None => raise IndexError
  end.

(** [a[i, j]] on a two-dimensional array, [0 <= i] and [0 <= j]. *)
Definition array2_get (a : list (list Q)) (i j : nat) : M Q :=
  row <- array2_row a i ;; seq_get row j.

(** [plot_matches(listof_n_values, errors, file_name, fig, ax)], on the
    axes [ax] that it draws on: the ones of a fresh [plt.subplots()] when
    the caller passes no figure. *)
Definition plot_matches (listof_n_values : list Q) (errors : list (list Q))
    (ax : Axes) : M Axes :=
  let ax := set_xlabel ax "Dimensionality (n)" in
  let ax := set_ylabel ax "Frequency of matches" in
  let ax := set_yscale ax "log" in
  y <- array2_row errors 0 ;;
  ax <- ax_plot ax listof_n_values y "a=64 (predicted)" ;;
  y <- array2_row errors 1 ;;
  ax <- ax_plot ax listof_n_values y "a=128 (predicted)" ;;
  y <- array2_row errors 2 ;;
  ax <- ax_plot ax listof_n_values y "a=256 (predicted)" ;;
  y <- array2_row errors 3 ;;
  ax <- ax_plot ax listof_n_values y "a=n/2 (predicted)" ;;
  x <- seq_get listof_n_values 3 ;;
  y <- array2_get errors 0 3 ;;
  let ax := ax_annotate ax "$a = 64$" (x + 100) y in
  x <- seq_get listof_n_values 3 ;;
  y <- array2_get errors 1 3 ;;
  let ax := ax_annotate ax "$a = 128$" (x + 100) y in
  x <- seq_get listof_n_values 3 ;;
  y <- array2_get errors 2 3 ;;
  let ax := ax_annotate ax "$a = 256$" (x + 100) y in
  x <- seq_get listof_n_values 3 ;;
  y <- array2_get errors 3 3 ;;
  let ax := ax_annotate ax "$a = \frac{n}{2}$" (x + 100) (y / 2) in
  ret ax.

(** [plot_scaled_matches(list_of_scales, errors, file_name, fig, ax)],
    on the axes it draws on.  The third curve carries the label of the
    second one in the source. *)
Definition plot_scaled_matches (list_of_scales : list Q)
    (errors : list (list Q)) (ax : Axes) : M Axes :=
  let ax := set_xlabel ax "Scale factor (s)" in
  let ax := set_ylabel ax "Frequency of matches" in
  let ax := set_yscale ax "log" in
  y <- array2_row errors 0 ;;
  ax <- ax_plot ax list_of_scales y "a=64 (predicted)" ;;
  y <- array2_row errors 1 ;;
  ax <- ax_plot ax list_of_scales y "a=128 (predicted)" ;;
  y <- array2_row errors 2 ;;
  ax <- ax_plot ax list_of_scales y "a=128 (predicted)" ;;
  x <- seq_get list_of_scales 1 ;;
  y <- array2_get errors 0 1 ;;
  let ax := ax_annotate ax "$a=64$" (x + (2 # 10)) y in
  x <- seq_get list_of_scales 1 ;;
  y1 <- array2_get errors 1 1 ;;
  y2 <- array2_get errors 1 2 ;;
  let ax := ax_annotate ax "$a=128$" (x - (1 # 10)) ((2 * y1 + y2) / 3) in
  x <- seq_get list_of_scales 1 ;;
  y1 <- array2_get errors 2 1 ;;
  y2 <- array2_get errors 2 2 ;;
  let ax := ax_annotate ax "$a=256$" (x - (1 # 10)) ((y1 + y2) / 2) in
  ret ax.


(** [plot_matches2]: the two plots side by side, on the two axes of one
    figure. *)
Definition plot_matches2 (listof_n_values : list Q) (errors : list (list Q))
    (list_of_scales : list Q) (scale_errors : list (list Q))
    : M (Axes * Axes) :=
  let ax1 := subplots in
  let ax2 := subplots in
  ax1 <- plot_matches listof_n_values errors ax1 ;;
  ax2 <- plot_scaled_matches list_of_scales scale_errors ax2 ;;
  ret (ax1, ax2).

(** What the script does when run: it plots the numbers of earlier
    runs. *)
Definition create_pregenerated_graphs : M (Axes * Axes) :=
  let list_of_n_values := [250; 500; 1000; 1500; 2000; 2500]%Q in
  let errors :=
      [[365083333 # 100000000000; 306166667 # 1000000000000;
        189166667 # 10000000000000; 416666667 # 100000000000000;
        150000000 # 100000000000000; 916666667 # 1000000000000000];
       [244633333 # 10000000000; 364491667 # 100000000000;
        316083333 # 1000000000000; 693333333 # 10000000000000;
        216666667 # 10000000000000; 866666667 # 100000000000000];
       [761641667 # 10000000000; 242496667 # 10000000000;
        375608333 # 100000000000; 978333333 # 1000000000000;
        333250000 # 1000000000000; 142250000 # 1000000000000];
       [231302500 # 10000000000; 238609167 # 10000000000;
        228072500 # 10000000000; 233225000 # 10000000000;
        230650000 # 10000000000; 233988333 # 10000000000]]%Q in
  let list_of_scales :=
      [10 # 10; 15 # 10; 20 # 10; 25 # 10; 30 # 10; 35 # 10; 40 # 10]%Q in
  let scale_errors :=
      [[194166667 # 10000000000000; 114900000 # 100000000000;
        720725000 # 100000000000; 192405833 # 10000000000;
        360794167 # 10000000000; 570276667 # 10000000000;
        788510833 # 10000000000];
       [312500000 # 1000000000000; 707616667 # 100000000000;
        271600000 # 10000000000; 572415833 # 10000000000;
        895497500 # 10000000000; 121294333 # 1000000000;
        150582500 # 1000000000];
       [397708333 # 100000000000; 331468333 # 10000000000;
        804755833 # 10000000000; 128687750 # 1000000000;
        171220000 # 1000000000; 207019250 # 1000000000;
        234703167 # 1000000000]]%Q in
  plot_matches2 list_of_n_values errors list_of_scales scale_errors.
(** *** Concrete random sources and worlds for the examples *)

Definition quarter_stream : nat -> Q := fun _ => (1 # 4)%Q.

Definition half_stream : nat -> Q := fun _ => (1 # 2)%Q.

Definition identity_perms : nat -> nat -> list nat := fun _ n => seq 0 n.

Definition reversed_perms : nat -> nat -> list nat := fun _ n => rev (seq 0 n).

Definition round_robin : nat -> nat := fun t => t.

Definition empty_world : World := mkWorld ∅ 0 0.

(** A world with a single one-row tensor at reference 0. *)
Definition one_row_world (row : list Q) : World :=
  mkWorld {[ 0 := [row] ]} 0 0.

(** ** The script *)

Section Script.

(** The random streams (see the header) and, for the worker pool, the
    scheduler: task number [t] of a [map_async] call is picked up by
    worker [schedule t mod W]. *)
Variable torch_rand : nat -> Q.
Variable np_perm : nat -> nat -> list nat.
Variable schedule : nat -> nat.

(** One draw of [uniform_(lo, hi)]: [lo + (hi - lo) * u]. *)
Definition uniform_value (lo hi : Q) (t : nat) : Q :=
  (lo + (hi - lo) * torch_rand t)%Q.

Fixpoint fill (lo hi : Q) (pos : nat) (t : tensor) : tensor :=
  match t with
  | [] => []
  | r :: t' =>
      map (uniform_value lo hi) (seq pos (length r))
      :: fill lo hi (pos + length r) t'
  end.

(** [w.data.uniform_(lo, hi)]: overwrite every entry, row by row. *)
Definition uniform_ (w : nat) (lo hi : Q) : M unit := fun σ =>
  match heap σ !! w with
  | Some t =>
      OK (tt, mkWorld (<[w := fill lo hi (torch_pos σ) t]> (heap σ))
                      (torch_pos σ + numel t) (np_pos σ))
  | None => Raise RuntimeError
  end.

(** [np.random.permutation(n)] *)
Definition np_random_permutation (n : nat) : M (list nat) := fun σ =>
  OK (np_perm (np_pos σ) n, mkWorld (heap σ) (torch_pos σ) (S (np_pos σ))).

Definition get_sparse_tensor (num_nonzeros input_size output_size : nat)
    (only_positive : bool) (fixed_range : Q) : M nat :=
  w <- torch_Tensor output_size input_size ;;
  (if only_positive then uniform_ w 0%Q fixed_range
   else uniform_ w (- fixed_range)%Q fixed_range) ;;;
  (if num_nonzeros <? input_size then
     let num_zeros := input_size - num_nonzeros in
     let output_indices := seq 0 output_size in
     input_indices <-
       mapM (fun _ => p <- np_random_permutation input_size ;;
                      ret (take num_zeros p)) output_indices ;;
     (* an empty list of rows does not broadcast into the index buffer *)
     if decide (output_size = 0) then raise ValueError else
     let zero_indices :=
       concat (zip_with (fun i cols => map (pair i) cols)
                        output_indices input_indices) in
     index_put_zero w zero_indices
   else ret tt) ;;;
  ret w.

Definition get_permuted_tensors (w : nat) (kw n m2 : nat) (noise_pct : Q)
    : M nat :=
  w2 <- tensor_repeat w m2 ;;
  nz <- row_nonzero w 0 ;;
  let number_to_zero := py_round (noise_pct * Qnat kw) in
  forM_ (seq 0 m2) (fun i =>
    p <- np_random_permutation kw ;;
    let indices := py_slice_to p number_to_zero in
    forM_ indices (fun j =>
      match nz !! j with
      | Some c => setitem_zero w2 i c
      | None => raise IndexError
      end)) ;;;
  ret w2.

Definition get_theta (k : nat) (n_trials : nat) : M (pyfloat * list Q) :=
  let the_dots := replicate n_trials 0%Q in
  r <- py_div 1 (Qnat k) ;;
  w1 <- get_sparse_tensor k k n_trials false r ;;
  the_dots <- foldM (fun dots i => d <- row_dot w1 i i ;; array_set dots i d)
                    the_dots (seq 0 n_trials) ;;
  let dot_mean := np_mean the_dots in
  let theta := pyfloat_half dot_mean in
  ret (theta, the_dots).

Definition return_matches (kw kv n : nat) (theta : pyfloat)
    (input_scaling : Q) : M (Q * nat * nat) :=
  let m1 := 4 in
  let m2 := 1000 in
  r <- py_div 1 (Qnat kw) ;;
  weights <- get_sparse_tensor kw n m1 false r ;;
  r2 <- py_div (2 * input_scaling) (Qnat kw) ;;
  input_vectors <- get_sparse_tensor kv n m2 true r2 ;;
  d <- matmul_t input_vectors weights ;;
  num_matches <- tensor_count_ge d theta ;;
  pct_matches <- py_div (Qnat num_matches) (Qnat (m1 * m2)) ;;
  ret (pct_matches, num_matches, m1 * m2).

Definition return_false_negatives (kw : nat) (noise_pct : Q) (n : nat)
    (theta : pyfloat) : M (Q * nat * nat) :=
  r <- py_div 1 (Qnat kw) ;;
  w <- get_sparse_tensor kw n 1 false r ;;
  let m2 := 10 in
  input_vectors <- get_permuted_tensors w kw n m2 noise_pct ;;
  d <- matmul_t input_vectors w ;;
  num_matches <- tensor_count_ge d theta ;;
  pct_matches <- py_div (Qnat num_matches) (Qnat m2) ;;
  ret (pct_matches, num_matches, m2).

(** The accumulation loop shared by the two aggregators:
    [for _ in range(n_trials): pct, num, total = trial(); ...]. *)
Definition accumulate (trial : M (Q * nat * nat)) (n_trials : nat)
    : M (nat * nat) :=
  foldM (fun acc _ =>
           r <- trial ;;
           ret (fst acc + snd (fst r), snd acc + snd r))
        (0, 0) (seq 0 n_trials).

Definition compute_false_negatives (args : dict) : M dict :=
  n <- int_arg args "n" ;;
  kw <- int_arg args "kw" ;;
  noise_pct <- float_arg args "noise_pct" ;;
  n_trials <- int_arg args "n_trials" ;;
  th <- (k <- as_size kw ;; get_theta k default_theta_trials) ;;
  let theta := fst th in
  acc <- accumulate (k <- as_size kw ;;
                     p <- as_finite noise_pct ;;
                     d <- as_size n ;;
                     return_false_negatives k p d theta)
                    (Z.to_nat n_trials) ;;
  let num_matches := fst acc in
  let total_comparisons := snd acc in
  q <- py_div (Qnat num_matches) (Qnat total_comparisons) ;;
  let pct_false_negatives := (1 - q)%Q in
  ret (<["pctFalse" := PyFloat (Fin pct_false_negatives)]> args).

Definition compute_match_probability (args : dict) : M dict :=
  kv <- int_arg args "k" ;;
  n <- int_arg args "n" ;;
  kw <- int_arg args "kw" ;;
  theta <- float_arg args "theta" ;;
  let kv := if (kv =? -1)%Z then py_round (inject_Z n / 2) else kv in
  n_trials <- int_arg args "n_trials" ;;
  acc <- accumulate (s <- float_arg args "input_scaling" ;;
                     k <- as_size kw ;;
                     a <- as_size kv ;;
                     d <- as_size n ;;
                     s <- as_finite s ;;
                     return_matches k a d theta s)
                    (Z.to_nat n_trials) ;;
  let num_matches := fst acc in
  let total_comparisons := snd acc in
  pct_matches <- py_div (Qnat num_matches) (Qnat total_comparisons) ;;
  ret (<["pct_matches" := PyFloat (Fin pct_matches)]> args).

(** *** The worker pool

    [Pool(processes=W)] forks [W] workers, each starting from a copy of
    the parent's world.  With [chunksize=1] the tasks are handed out one
    by one; a worker runs its tasks in sequence on its own world.  The
    parent's world is left as it was, and [rs.get()] returns the results
    in task order, or raises when a task has raised. *)
Fixpoint pool_run (f : dict -> M dict) (W t : nat) (args : list dict)
    (workers : list World) : Res (list dict) :=
  match args with
  | [] => OK []
  | a :: rest =>
      let wk := schedule t mod W in
      match workers !! wk with
      | None => Raise RuntimeError
      | Some σw =>
          match f a σw with
          | OK (r, σw') =>
              match pool_run f W (S t) rest (<[wk := σw']> workers) with
              | OK rs => OK (r :: rs)
              | Raise e => Raise e
              end
          | Raise e => Raise e
          end
      end
  end.

Definition pool_map_async (f : dict -> M dict) (W : nat) (args : list dict)
    : M (list dict) := fun σ =>
  match pool_run f W 0 args (replicate W σ) with
  | OK rs => OK (rs, σ)
  | Raise e => Raise e
  end.

(** The shape shared by the two parallel drivers: a pool when there is
    more than one worker, else a plain loop over the settings. *)
Definition run_settings (f : dict -> M dict) (num_workers : nat)
    (args : list dict) : M (list dict) :=
  if 1 <? num_workers then pool_map_async f num_workers args
  else mapM f args.

Definition compute_match_probability_parallel (args : list dict)
    (num_workers : nat) : M (list dict) :=
  run_settings compute_match_probability num_workers args.

(** The settings record of the [ni]-th noise level; it carries the index
    of its cell. *)
Definition false_negative_record (kw n : nat) (noise : Q) (n_trials ni : nat)
    : dict :=
  <["kw" := PyInt (Z.of_nat kw)]>
  (<["n" := PyInt (Z.of_nat n)]>
  (<["noise_pct" := PyFloat (Fin noise)]>
  (<["n_trials" := PyInt (Z.of_nat n_trials)]>
  (<["error_index" := PyInt (Z.of_nat ni)]> ∅)))).

Definition false_negative_args (listof_noise : list Q) (kw n_trials n : nat)
    : list dict :=
  imap (fun ni noise => false_negative_record kw n noise n_trials ni)
       listof_noise.

(** [for r in result: errors[r["error_index"]] = r["pct_false"]];
    the right-hand side is evaluated first. *)
Definition scatter_false_negatives (errors : list Q) (result : list dict)
    : M (list Q) :=
  foldM (fun errors r =>
           v <- float_arg r "pct_false" ;;
           i <- int_arg r "error_index" ;;
           v <- as_finite v ;;
           array_set_int errors i v)
        errors result.

(** Returns the [errors] array that the script prints and plots. *)
Definition compute_false_negatives_parallel (listof_noise : list Q)
    (kw num_workers n_trials n : nat) : M (list Q) :=
  let args := false_negative_args listof_noise kw n_trials n in
  result <- run_settings compute_false_negatives num_workers args ;;
  let errors := replicate (length listof_noise) 0%Q in
  scatter_false_negatives errors result.

(** The settings record of cell [(ki, ni)] of the match sweep. *)
Definition match_record (k : Z) (kw n : nat) (theta : pyfloat)
    (n_trials : nat) (input_scale : Q) (ki ni : nat) : dict :=
  <["k" := PyInt k]>
  (<["kw" := PyInt (Z.of_nat kw)]>
  (<["n" := PyInt (Z.of_nat n)]>
  (<["theta" := PyFloat theta]>
  (<["n_trials" := PyInt (Z.of_nat n_trials)]>
  (<["input_scaling" := PyFloat (Fin input_scale)]>
  (<["error_index" := PyIntList [Z.of_nat ki; Z.of_nat ni]]> ∅)))))).

Definition match_args (listofk_values : list Z) (listof_n_values : list nat)
    (kw : nat) (theta : pyfloat) (n_trials : nat) (input_scale : Q)
    : list dict :=
  concat (imap (fun ki k =>
            imap (fun ni n =>
                    match_record k kw n theta n_trials input_scale ki ni)
                 listof_n_values)
          listofk_values).

(** [for r in result:
       errors[r["error_index"][0], r["error_index"][1]] = r["pct_matches"]] *)
Definition scatter_matches (errors : list (list Q)) (result : list dict)
    : M (list (list Q)) :=
  foldM (fun errors r =>
           v <- float_arg r "pct_matches" ;;
           i <- index_arg r "error_index" 0 ;;
           j <- index_arg r "error_index" 1 ;;
           v <- as_finite v ;;
           array2_set_int errors i j v)
        errors result.

Definition compute_match_probabilities (listofk_values : list Z)
    (listof_n_values : list nat) (input_scale : Q)
    (kw num_workers n_trials : nat) : M (list (list Q)) :=
  th <- get_theta kw default_theta_trials ;;
  let theta := fst th in
  let args := match_args listofk_values listof_n_values kw theta n_trials
                         input_scale in
  result <- compute_match_probability_parallel args num_workers ;;
  let errors :=
    replicate (length listofk_values)
              (replicate (length listof_n_values) 0%Q) in
  scatter_matches errors result.


(** The settings of the scale sweep: one record per pair of a [k] value
    and a scale factor, with the cell [(ki, si)] it belongs to. *)
Definition scaled_args (list_of_scales : list Q) (list_of_k_values : list Z)
    (kw n : nat) (theta : pyfloat) (n_trials : nat) : list dict :=
  concat (imap (fun ki k =>
            imap (fun si s => match_record k kw n theta n_trials s ki si)
                 list_of_scales)
          list_of_k_values).

Definition compute_scaled_probabilities (list_of_scales : list Q)
    (list_of_k_values : list Z) (kw n num_workers n_trials : nat)
    : M (list (list Q)) :=
  th <- get_theta kw default_theta_trials ;;
  let theta := fst th in
  let args := scaled_args list_of_scales list_of_k_values kw n theta n_trials in
  result <- compute_match_probability_parallel args num_workers ;;
  let errors :=
    replicate (length list_of_k_values)
              (replicate (length list_of_scales) 0%Q) in
  errors <- scatter_matches errors result ;;
  plot_scaled_matches list_of_scales errors subplots ;;;
  ret errors.

(** [k] only scales the ranges here, so it is any number. *)
Definition compute_match_probability_omega (k : Q) (b_max : nat)
    (theta : pyfloat) (n_trials : nat) : M (list Q) :=
  let omega_prob := replicate (b_max + 1) 0%Q in
  foldM (fun omega_prob b =>
           r <- py_div 1 k ;;
           xwb <- get_sparse_tensor b b n_trials false r ;;
           r2 <- py_div 2 k ;;
           xib <- get_sparse_tensor b b n_trials true r2 ;;
           d <- matmul_t xwb xib ;;
           num_matches <- tensor_count_ge d theta ;;
           v <- py_div (Qnat num_matches) (Qnat (n_trials * n_trials)) ;;
           array_set omega_prob b v)
        omega_prob (seq 1 b_max).
(** ** Pure descriptions of what the generators build *)

(** Zero the entries of [row] at the positions [cols]. *)
Definition zero_at (cols : list nat) (row : list Q) : list Q :=
  foldl (fun r j => <[j := 0%Q]> r) row cols.

(** Row [i] of an [n]-column tensor filled by [uniform_(lo, hi)] when the
    torch stream stood at [pos]. *)
Definition drawn_row (lo hi : Q) (pos n i : nat) : list Q :=
  map (uniform_value lo hi) (seq (pos + i * n) n).

(** The columns that [get_sparse_tensor] zeroes in row [i]. *)
Definition zeroed_cols (k n npos i : nat) : list nat :=
  if k <? n then take (n - k) (np_perm (npos + i) n) else [].

Definition sparse_row (k n : nat) (lo hi : Q) (pos npos i : nat) : list Q :=
  zero_at (zeroed_cols k n npos i) (drawn_row lo hi pos n i).

Definition sparse_rows (k n m : nat) (only_positive : bool) (r : Q)
    (pos npos : nat) : tensor :=
  map (sparse_row k n (if only_positive then 0%Q else (- r)%Q) r pos npos)
      (seq 0 m).

(** The contract of [numpy.random.permutation]. *)
Definition valid_perms : Prop :=
  forall t n, Permutation (np_perm t n) (seq 0 n).

(** The world [σ] with tensor [t] stored at [w]. *)
Definition upd (w : nat) (t : tensor) (σ : World) : World :=
  mkWorld (<[w := t]> (heap σ)) (torch_pos σ) (np_pos σ).

(** *** The noisy variants *)

Definition number_to_zero (noise_pct : Q) (kw : nat) : Z :=
  py_round (noise_pct * Qnat kw).

(** The indices that variant [i] draws: a slice of its own permutation
    of [range(kw)], the [i]-th one drawn after the stream stood at
    [npos]. *)
Definition variant_indices (kw : nat) (noise_pct : Q) (npos i : nat)
    : list nat :=
  py_slice_to (np_perm (npos + i) kw) (number_to_zero noise_pct kw).

(** The columns these indices select in the list [nz] of non-zero
    positions. *)
Definition variant_cols (nz : list nat) (idxs : list nat) : list nat :=
  map (fun j => default 0 (nz !! j)) idxs.

Definition variant (row : list Q) (kw : nat) (noise_pct : Q) (npos i : nat)
    : list Q :=
  zero_at (variant_cols (nonzero row) (variant_indices kw noise_pct npos i))
          row.

(** Every index stays within the list of non-zero positions. *)
Definition in_range (nz : list nat) (idxs : list nat) : bool :=
  forallb (fun j => j <? length nz) idxs.

Definition all_in_range (row : list Q) (kw : nat) (noise_pct : Q)
    (npos m2 : nat) : bool :=
  forallb (fun i => in_range (nonzero row) (variant_indices kw noise_pct npos i))
          (seq 0 m2).

(** Every tensor but the one at [l] holds in [σ'] what it held in [σ]. *)
Definition same_except (l : nat) (σ σ' : World) : Prop :=
  forall l', l' <> l -> heap σ' !! l' = heap σ !! l'.

(** *** Trial results and settings records *)

Definition matched (r : Q * nat * nat) : nat := snd (fst r).
Definition total (r : Q * nat * nat) : nat := snd r.

(** Counts summed over the trials first, one division at the end. *)
Definition pooled (rs : list (Q * nat * nat)) : Q :=
  (Qnat (list_sum (map matched rs)) / Qnat (list_sum (map total rs)))%Q.

(** The mean of the per-trial fractions, for comparison. *)
Definition averaged (rs : list (Q * nat * nat)) : Q :=
  (Qsum (map (fun r => fst (fst r)) rs) / Qnat (length rs))%Q.

(** The settings a worker reads. *)
Definition match_settings (args : dict) (k : Z) (n kw : nat)
    (theta : pyfloat) (n_trials : Z) (s : Q) : Prop :=
  args !! "k" = Some (PyInt k) /\
  args !! "n" = Some (PyInt (Z.of_nat n)) /\
  args !! "kw" = Some (PyInt (Z.of_nat kw)) /\
  args !! "theta" = Some (PyFloat theta) /\
  args !! "n_trials" = Some (PyInt n_trials) /\
  args !! "input_scaling" = Some (PyFloat (Fin s)).

Definition false_negative_settings (args : dict) (n kw : nat) (noise : Q)
    (n_trials : Z) : Prop :=
  args !! "n" = Some (PyInt (Z.of_nat n)) /\
  args !! "kw" = Some (PyInt (Z.of_nat kw)) /\
  args !! "noise_pct" = Some (PyFloat (Fin noise)) /\
  args !! "n_trials" = Some (PyInt n_trials).

(** The input sparsity a match worker uses: [k], or [round(n / 2)] when
    [k] is -1. *)
Definition match_kv (k : Z) (n : nat) : nat :=
  if (k =? -1)%Z then Z.to_nat (py_round (inject_Z (Z.of_nat n) / 2))
  else Z.to_nat k.

(** *** Result arrays *)

(** Entry [(i, j)] of a two-dimensional array. *)
Definition cell (a : list (list Q)) (i j : nat) : option Q :=
  match a !! i with
  | Some row => row !! j
  | None => None
  end.

Definition shape (a : list (list Q)) (rows cols : nat) : Prop :=
  length a = rows /\ Forall (fun row => length row = cols) a.

(** The record of a match worker that was given [a] and computed [v]. *)
Definition match_result (a : dict) (v : Q) : dict :=
  <["pct_matches" := PyFloat (Fin v)]> a.

(** The settings [a] carry the cell index [(ki, ni)]. *)
Definition carries_index (a : dict) (ki ni : nat) : Prop :=
  a !! "error_index" = Some (PyIntList [Z.of_nat ki; Z.of_nat ni]).


(** *** Further descriptions *)

(** The contract of torch's uniform generator: every draw lies in
    [[0, 1)]. *)
Definition unit_draws : Prop :=
  forall t, (0 <= torch_rand t)%Q /\ (torch_rand t < 1)%Q.

(** *** The Omega estimator *)

(** The entry for overlap [b], computed from the [2 * n_trials * b]
    draws that follow position [pos] of the torch stream: the fraction
    of the pairs of a weight row and an input row, both dense with [b]
    entries, whose dot product reaches [theta]. *)
Definition omega_entry (k : Q) (theta : pyfloat) (n_trials pos b : nat) : Q :=
  let xwb := map (drawn_row (- (1 / k))%Q (1 / k)%Q pos b) (seq 0 n_trials) in
  let xib := map (drawn_row 0%Q (2 / k)%Q (pos + n_trials * b) b)
                 (seq 0 n_trials) in
  (Qnat (count_ge (map (fun x => map (fun y => dot x y) xib) xwb) theta)
   / Qnat (n_trials * n_trials))%Q.

(** The entries for the overlaps [bs], each round drawing where the
    previous one stopped. *)
Fixpoint omega_entries (k : Q) (theta : pyfloat) (n_trials pos : nat)
    (bs : list nat) : list Q :=
  match bs with
  | [] => []
  | b :: bs' =>
      omega_entry k theta n_trials pos b
      :: omega_entries k theta n_trials (pos + 2 * n_trials * b) bs'
  end.
(** ** Monad laws used below *)

Lemma bind_OK {A B} (m : M A) (k : A -> M B) σ a σ' :
  m σ = OK (a, σ') -> bind m k σ = k a σ'.
Proof. intros H. unfold bind. by rewrite H. Qed.

Lemma bind_Raise {A B} (m : M A) (k : A -> M B) σ e :
  m σ = Raise e -> bind m k σ = Raise e.
Proof. intros H. unfold bind. by rewrite H. Qed.

Lemma bind_inv {A B} (m : M A) (k : A -> M B) σ b σ2 :
  bind m k σ = OK (b, σ2) ->
  exists a σ1, m σ = OK (a, σ1) /\ k a σ1 = OK (b, σ2).
Proof.
  unfold bind. destruct (m σ) as [[a σ1]|e]; [eauto | discriminate].
Qed.

(** [run H]: step over a command whose outcome [H] states. *)
Tactic Notation "run" uconstr(H) := rewrite (bind_OK _ _ _ _ _ H).

Lemma world_eta σ : mkWorld (heap σ) (torch_pos σ) (np_pos σ) = σ.
Proof. by destruct σ. Qed.

Lemma fresh_heap σ : heap σ !! fresh (dom (heap σ)) = None.
Proof. apply not_elem_of_dom, is_fresh. Qed.

(** ** Lists of zeroed positions *)

Lemma length_zero_at cols row : length (zero_at cols row) = length row.
Proof.
  revert row. induction cols as [|c cols IH]; intros row; simpl; [done|].
  unfold zero_at in *. simpl. by rewrite IH, length_insert.
Qed.

Lemma zero_at_lookup_notin cols row j :
  j ∉ cols -> zero_at cols row !! j = row !! j.
Proof.
  revert row. induction cols as [|c cols IH]; intros row Hj; [done|].
  apply not_elem_of_cons in Hj as [Hne Hj].
  change (zero_at (c :: cols) row) with (zero_at cols (<[c := 0%Q]> row)).
  rewrite IH by done. by apply list_lookup_insert_ne.
Qed.

Lemma zero_at_lookup_in cols row j :
  j ∈ cols -> j < length row -> zero_at cols row !! j = Some 0%Q.
Proof.
  revert row. induction cols as [|c cols IH]; intros row Hj Hlt.
  - by apply elem_of_nil in Hj.
  - change (zero_at (c :: cols) row) with (zero_at cols (<[c := 0%Q]> row)).
    destruct (decide (j ∈ cols)) as [Hin|Hnin].
    + apply IH; [done | by rewrite length_insert].
    + apply elem_of_cons in Hj as [->|Hj]; [|done].
      rewrite zero_at_lookup_notin by done.
      by apply list_lookup_insert_eq.
Qed.

Lemma count_nonzero_cons x row :
  count_nonzero (x :: row) =
  (if is_nonzero x then 1 else 0) + count_nonzero row.
Proof. unfold count_nonzero. simpl. by destruct (is_nonzero x). Qed.

Lemma count_nonzero_insert_zero row j :
  count_nonzero (<[j := 0%Q]> row) =
  count_nonzero row -
  match row !! j with
  | Some x => if is_nonzero x then 1 else 0
  | None => 0
  end.
Proof.
  revert j. induction row as [|x row IH]; intros j; [done|].
  destruct j as [|j]; simpl.
  - rewrite !count_nonzero_cons. change (is_nonzero 0%Q) with false.
    destruct (is_nonzero x); lia.
  - rewrite !count_nonzero_cons, IH.
    assert (Hle : match row !! j with
                  | Some y => if is_nonzero y then 1 else 0
                  | None => 0
                  end <= count_nonzero row).
    { clear IH. revert j. induction row as [|y row IH]; intros j; [done|].
      rewrite count_nonzero_cons. destruct j as [|j]; simpl.
      - destruct (is_nonzero y); lia.
      - specialize (IH j). lia. }
    lia.
Qed.

Lemma count_nonzero_all row :
  Forall (fun x => is_nonzero x = true) row -> count_nonzero row = length row.
Proof.
  induction 1 as [|x row Hx _ IH]; [done|].
  rewrite count_nonzero_cons, Hx, IH. done.
Qed.

(** Zeroing [cols], distinct positions that all hold non-zero entries,
    removes exactly [length cols] non-zero entries. *)
Lemma count_nonzero_zero_at cols row :
  NoDup cols ->
  (forall j, j ∈ cols -> exists x, row !! j = Some x /\ is_nonzero x = true) ->
  count_nonzero (zero_at cols row) = count_nonzero row - length cols.
Proof.
  revert row. induction cols as [|c cols IH]; intros row Hnd Hnz.
  - simpl. lia.
  - apply NoDup_cons in Hnd as [Hc Hnd].
    change (zero_at (c :: cols) row) with (zero_at cols (<[c := 0%Q]> row)).
    rewrite IH; [|done|].
    + rewrite count_nonzero_insert_zero.
      destruct (Hnz c) as (x & -> & ->); [left|]. simpl. lia.
    + intros j Hj. destruct (Hnz j) as (x & Hx & Hxnz); [by right|].
      exists x. split; [|done].
      rewrite list_lookup_insert_ne; [done|]. intros ->. done.
Qed.

(** ** Running the primitives *)

Lemma upd_upd w t t' σ : upd w t (upd w t' σ) = upd w t σ.
Proof. unfold upd. simpl. by rewrite insert_insert_eq. Qed.

Lemma upd_id w t σ : heap σ !! w = Some t -> upd w t σ = σ.
Proof. intros H. unfold upd. rewrite insert_id by done. apply world_eta. Qed.

Lemma heap_upd w t σ : heap (upd w t σ) !! w = Some t.
Proof. unfold upd. simpl. apply lookup_insert_eq. Qed.

Lemma forM__app {A} (l1 l2 : list A) (f : A -> M unit) σ :
  forM_ (l1 ++ l2) f σ = (forM_ l1 f ;;; forM_ l2 f) σ.
Proof.
  revert σ. induction l1 as [|a l1 IH]; intros σ; simpl.
  - unfold bind, ret. done.
  - unfold bind. destruct (f a σ) as [[[] σ1]|e]; [|done].
    rewrite IH. done.
Qed.

Lemma fill_replicate lo hi pos m n :
  fill lo hi pos (replicate m (replicate n 0%Q)) =
  map (drawn_row lo hi pos n) (seq 0 m).
Proof.
  revert pos. induction m as [|m IH]; intros pos; [done|].
  simpl. rewrite length_replicate. f_equal.
  - unfold drawn_row. by rewrite Nat.add_0_r.
  - rewrite IH, <- seq_shift, map_map. apply map_ext. intros i.
    unfold drawn_row. f_equal. f_equal. lia.
Qed.

Lemma numel_replicate m n : numel (replicate m (replicate n 0%Q)) = m * n.
Proof.
  induction m as [|m IH]; [done|].
  change (numel (replicate (S m) (replicate n 0%Q)))
    with (length (replicate n 0%Q) + numel (replicate m (replicate n 0%Q))).
  rewrite length_replicate, IH. lia.
Qed.

Lemma length_drawn_row lo hi pos n i : length (drawn_row lo hi pos n i) = n.
Proof. unfold drawn_row. by rewrite length_map, length_seq. Qed.

Lemma drawn_row_lookup lo hi pos n i j :
  j < n -> drawn_row lo hi pos n i !! j = Some (uniform_value lo hi (pos + i * n + j)).
Proof.
  intros Hj. unfold drawn_row.
  rewrite list_lookup_fmap, lookup_seq_lt by done. done.
Qed.

Lemma mapM_permutations z n (l : list nat) σ :
  mapM (fun _ => p <- np_random_permutation n ;; ret (take z p)) l σ =
  OK (map (fun i => take z (np_perm (np_pos σ + i) n)) (seq 0 (length l)),
      mkWorld (heap σ) (torch_pos σ) (np_pos σ + length l)).
Proof.
  revert σ. induction l as [|a l IH]; intros σ.
  - simpl. unfold ret. rewrite Nat.add_0_r, world_eta. done.
  - simpl. unfold bind at 1 2. unfold np_random_permutation at 1. unfold ret at 1.
    unfold bind. rewrite IH. unfold ret. simpl.
    rewrite Nat.add_0_r. f_equal. f_equal.
    + f_equal. rewrite <- seq_shift, map_map. apply map_ext.
      intros i. do 2 f_equal. lia.
    + f_equal. lia.
Qed.

Lemma setitem_zero_run w i j t r σ :
  heap σ !! w = Some t -> t !! i = Some r -> j < length r ->
  setitem_zero w i j σ = OK (tt, upd w (<[i := <[j := 0%Q]> r]> t) σ).
Proof.
  intros Hw Hi Hj. unfold setitem_zero, bind, load, set_zero.
  rewrite Hw, Hi. rewrite decide_True by done. done.
Qed.

(** Zeroing a list of columns of one row, one write at a time. *)
Lemma zero_row_run w i cols t r σ :
  heap σ !! w = Some t -> t !! i = Some r ->
  (forall j, j ∈ cols -> j < length r) ->
  forM_ cols (fun j => setitem_zero w i j) σ =
  OK (tt, upd w (<[i := zero_at cols r]> t) σ).
Proof.
  revert t r σ. induction cols as [|c cols IH]; intros t r σ Hw Hi Hb.
  - change (zero_at [] r) with r. rewrite list_insert_id by done.
    by rewrite upd_id.
  - cbn [forM_]. rewrite (bind_OK _ _ _ _ _ (setitem_zero_run w i c t r σ Hw Hi
      (Hb c ltac:(left)))).
    change (zero_at (c :: cols) r) with (zero_at cols (<[c := 0%Q]> r)).
    rewrite (IH (<[i := <[c := 0%Q]> r]> t) (<[c := 0%Q]> r)).
    + rewrite upd_upd, list_insert_insert_eq. done.
    + apply heap_upd.
    + apply list_lookup_insert_eq. by eapply lookup_lt_Some.
    + intros j Hj. rewrite length_insert. apply Hb. by right.
Qed.

Lemma forM__map {A B} (g : A -> B) (l : list A) (f : B -> M unit) σ :
  forM_ (map g l) f σ = forM_ l (fun a => f (g a)) σ.
Proof.
  revert σ. induction l as [|a l IH]; intros σ; [done|].
  simpl. unfold bind. destruct (f (g a) σ) as [[[] σ1]|e]; [apply IH|done].
Qed.

(** [index_put_zero] on the index pairs of consecutive rows. *)
Lemma index_put_rows w colss : forall done todo σ,
  heap σ !! w = Some (done ++ todo) ->
  length colss = length todo ->
  Forall2 (fun cols r => forall j, j ∈ cols -> j < length r) colss todo ->
  index_put_zero w
    (concat (zip_with (fun i cols => map (pair i) cols)
                      (seq (length done) (length todo)) colss)) σ =
  OK (tt, upd w (done ++ zip_with zero_at colss todo) σ).
Proof.
  induction colss as [|cols colss IH]; intros done todo σ Hw Hlen Hb.
  - destruct todo; [|done]. simpl. unfold index_put_zero. simpl.
    unfold ret. by rewrite upd_id.
  - destruct todo as [|r todo]; [done|].
    apply Forall2_cons in Hb as [Hb1 Hb].
    simpl. unfold index_put_zero. rewrite forM__app.
    assert (Hi : (done ++ r :: todo) !! length done = Some r).
    { by rewrite list_lookup_middle. }
    rewrite (bind_OK _ _ σ tt
               (upd w (<[length done := zero_at cols r]> (done ++ r :: todo)) σ)).
    2:{ rewrite forM__map. simpl. by apply zero_row_run. }
    replace (<[length done := zero_at cols r]> (done ++ r :: todo))
      with ((done ++ [zero_at cols r]) ++ todo).
    2:{ rewrite insert_app_r_alt by lia. rewrite Nat.sub_diag. simpl.
        by rewrite <- app_assoc. }
    specialize (IH (done ++ [zero_at cols r]) todo
                   (upd w ((done ++ [zero_at cols r]) ++ todo) σ)).
    rewrite length_app in IH. simpl in IH.
    rewrite Nat.add_1_r in IH. unfold index_put_zero in IH.
    rewrite IH.
    + rewrite upd_upd, <- app_assoc. done.
    + apply heap_upd.
    + simpl in Hlen. lia.
    + done.
Qed.

Lemma valid_perms_lt : valid_perms ->
  forall t n z j, j ∈ take z (np_perm t n) -> j < n.
Proof.
  intros Hp t n z j Hj.
  assert (Hin : j ∈ np_perm t n).
  { apply list_elem_of_lookup in Hj as [i Hi].
    apply lookup_take_Some in Hi as [Hi _].
    apply list_elem_of_lookup. eauto. }
  apply list_elem_of_In in Hin.
  apply (Permutation_in _ (Hp t n)) in Hin. apply in_seq in Hin. lia.
Qed.

Lemma valid_perms_NoDup : valid_perms ->
  forall t n z, NoDup (take z (np_perm t n)).
Proof.
  intros Hp t n z.
  assert (Hnd : NoDup (np_perm t n)).
  { apply NoDup_ListNoDup. eapply Permutation_NoDup.
    - symmetry. apply Hp.
    - apply seq_NoDup. }
  rewrite <- (take_drop z (np_perm t n)) in Hnd.
  by apply NoDup_app in Hnd as [? _].
Qed.

Lemma valid_perms_length : valid_perms -> forall t n, length (np_perm t n) = n.
Proof.
  intros Hp t n. rewrite (Permutation_length (Hp t n)). apply length_seq.
Qed.

Lemma zip_with_map_same {A B C D} (f : B -> C -> D) (g : A -> B) (h : A -> C)
    (s : list A) :
  zip_with f (map g s) (map h s) = map (fun i => f (g i) (h i)) s.
Proof. induction s as [|i s IH]; [done|]. simpl. by rewrite IH. Qed.

(** What [get_sparse_tensor] returns and how it leaves the world. *)
Lemma get_sparse_tensor_run k n m only_positive r σ :
  valid_perms -> (m <> 0 \/ n <= k) ->
  get_sparse_tensor k n m only_positive r σ =
  OK (fresh (dom (heap σ)),
      mkWorld (<[fresh (dom (heap σ)) :=
                   sparse_rows k n m only_positive r (torch_pos σ) (np_pos σ)]>
                 (heap σ))
              (torch_pos σ + m * n)
              (np_pos σ + (if k <? n then m else 0))).
Proof.
  intros Hp Hm. unfold get_sparse_tensor.
  set (l := fresh (dom (heap σ))).
  set (lo := if only_positive then 0%Q else (- r)%Q).
  unfold torch_Tensor.
  rewrite (bind_OK _ _ σ l (upd l (replicate m (replicate n 0%Q)) σ)) by done.
  set (σ1 := mkWorld (<[l := map (drawn_row lo r (torch_pos σ) n) (seq 0 m)]> (heap σ))
                     (torch_pos σ + m * n) (np_pos σ)).
  rewrite (bind_OK _ _ _ tt σ1).
  2:{ assert (Hu : uniform_ l lo r (upd l (replicate m (replicate n 0%Q)) σ)
                   = OK (tt, σ1)).
      { unfold uniform_. rewrite heap_upd. unfold upd, σ1. simpl.
        rewrite insert_insert_eq, fill_replicate, numel_replicate. done. }
      unfold lo in Hu. destruct only_positive; exact Hu. }
  unfold sparse_rows, sparse_row, zeroed_cols. fold lo.
  destruct (k <? n) eqn:Hkn.
  - destruct Hm as [Hm|Hm]; [|apply Nat.ltb_lt in Hkn; lia].
    unfold bind at 1. unfold bind at 1. rewrite mapM_permutations.
    rewrite decide_False by done. rewrite length_seq.
    set (colss := map (fun i => take (n - k) (np_perm (np_pos σ1 + i) n)) (seq 0 m)).
    set (σ2 := mkWorld (heap σ1) (torch_pos σ1) (np_pos σ1 + m)).
    pose proof (index_put_rows l colss []
                  (map (drawn_row lo r (torch_pos σ) n) (seq 0 m)) σ2) as Hput.
    simpl in Hput. rewrite length_map, length_seq in Hput.
    rewrite Hput.
    + unfold ret, upd, σ2, σ1. simpl. rewrite insert_insert_eq.
      f_equal. f_equal. f_equal. f_equal.
      unfold colss. change (np_pos σ1) with (np_pos σ).
      apply zip_with_map_same.
    + unfold σ2, σ1. simpl. apply lookup_insert_eq.
    + unfold colss. by rewrite length_map, length_seq.
    + unfold colss. clear Hput. generalize (seq 0 m). intros s.
      induction s as [|i s IH]; simpl; constructor; [|done].
      intros j Hj. rewrite length_drawn_row.
      by eapply valid_perms_lt.
  - unfold bind, ret, σ1. simpl. rewrite Nat.add_0_r. done.
Qed.
(** ** The rows of a generated batch *)

Lemma length_sparse_rows k n m op r pos npos :
  length (sparse_rows k n m op r pos npos) = m.
Proof. unfold sparse_rows. by rewrite length_map, length_seq. Qed.

Lemma sparse_rows_lookup k n m op r pos npos i row :
  sparse_rows k n m op r pos npos !! i = Some row ->
  i < m /\
  row = sparse_row k n (if op then 0%Q else (- r)%Q) r pos npos i.
Proof.
  unfold sparse_rows. intros H.
  rewrite list_lookup_fmap in H.
  destruct (seq 0 m !! i) as [i'|] eqn:Hi; [|done].
  apply lookup_seq in Hi as [-> Hi]. simpl in H. by inversion H.
Qed.

Lemma length_sparse_row k n lo hi pos npos i :
  length (sparse_row k n lo hi pos npos i) = n.
Proof. unfold sparse_row. by rewrite length_zero_at, length_drawn_row. Qed.

Lemma zeroed_cols_lt k n npos i j :
  valid_perms -> j ∈ zeroed_cols k n npos i -> j < n.
Proof.
  intros Hp. unfold zeroed_cols. destruct (k <? n).
  - by apply valid_perms_lt.
  - by intros ?%elem_of_nil.
Qed.

Lemma zeroed_cols_NoDup k n npos i :
  valid_perms -> NoDup (zeroed_cols k n npos i).
Proof.
  intros Hp. unfold zeroed_cols. destruct (k <? n).
  - by apply valid_perms_NoDup.
  - constructor.
Qed.

Lemma length_zeroed_cols k n npos i :
  valid_perms -> length (zeroed_cols k n npos i) = n - Nat.min k n.
Proof.
  intros Hp. unfold zeroed_cols. destruct (k <? n) eqn:Hkn.
  - apply Nat.ltb_lt in Hkn.
    rewrite length_take, valid_perms_length by done. lia.
  - apply Nat.ltb_ge in Hkn. simpl. lia.
Qed.

Lemma valid_perms_elem : valid_perms ->
  forall t n j, j < n -> j ∈ np_perm t n.
Proof.
  intros Hp t n j Hj. apply list_elem_of_In.
  apply (Permutation_in _ (Permutation_sym (Hp t n))). apply in_seq. lia.
Qed.

Lemma count_nonzero_drawn_row lo hi pos n i :
  (forall j, j < n -> is_nonzero (uniform_value lo hi (pos + i * n + j)) = true) ->
  count_nonzero (drawn_row lo hi pos n i) = n.
Proof.
  intros Hnz. rewrite count_nonzero_all; [apply length_drawn_row|].
  apply Forall_lookup_2. intros j x Hx.
  pose proof (lookup_lt_Some _ _ _ Hx) as Hj.
  rewrite length_drawn_row in Hj.
  rewrite drawn_row_lookup in Hx by done. inversion Hx. by apply Hnz.
Qed.

Lemma count_nonzero_sparse_row k n lo hi pos npos i :
  valid_perms ->
  (forall j, j < n -> is_nonzero (uniform_value lo hi (pos + i * n + j)) = true) ->
  count_nonzero (sparse_row k n lo hi pos npos i) = Nat.min k n.
Proof.
  intros Hp Hnz. unfold sparse_row.
  rewrite count_nonzero_zero_at.
  - rewrite count_nonzero_drawn_row, length_zeroed_cols by done. lia.
  - by apply zeroed_cols_NoDup.
  - intros j Hj. apply zeroed_cols_lt in Hj; [|done].
    eexists. split; [by apply drawn_row_lookup|]. by apply Hnz.
Qed.

Lemma zero_at_Forall (P : Q -> Prop) cols row :
  Forall P row -> P 0%Q -> Forall P (zero_at cols row).
Proof.
  intros Hrow H0. revert row Hrow.
  induction cols as [|c cols IH]; intros row Hrow; [done|].
  change (zero_at (c :: cols) row) with (zero_at cols (<[c := 0%Q]> row)).
  apply IH. by apply Forall_insert.
Qed.

(** Every entry of a generated batch is a zero or a drawn value. *)
Lemma sparse_rows_entries k n m (op : bool) (r : Q) pos npos :
  Forall (Forall (fun x => x = 0%Q \/
            exists t, x = uniform_value (if op then 0%Q else (- r)%Q) r t))
         (sparse_rows k n m op r pos npos).
Proof.
  unfold sparse_rows. apply Forall_fmap, Forall_forall. intros i _.
  simpl. unfold sparse_row. apply zero_at_Forall; [|by left].
  unfold drawn_row. apply Forall_fmap, Forall_forall. intros t _.
  simpl. right. by exists t.
Qed.

(** C3 (as amended).  For every sparsity [k], dimensionality [n] and
    batch size [m >= 1], [get_sparse_tensor] returns a batch of [m] rows
    of length [n].  In row [i] the zeroed positions are the first [n - k]
    entries of the permutation drawn for that row alone when [k < n], and
    none when [k >= n]; they are distinct and there are [n - min k n] of
    them.  Every zeroed position holds 0 and every other position keeps
    its uniformly drawn value.  So [k = 0] gives an all-zero row without
    error, and the row has exactly [min k n] non-zero entries provided
    none of the values drawn for it is itself zero. *)
Theorem get_sparse_tensor_sparsity k n m only_positive r σ :
  valid_perms -> 1 <= m ->
  exists l σ' rows,
    get_sparse_tensor k n m only_positive r σ = OK (l, σ') /\
    heap σ' !! l = Some rows /\
    length rows = m /\
    forall i row, rows !! i = Some row ->
      let lo := if only_positive then 0%Q else (- r)%Q in
      let zeroed :=
        if k <? n then take (n - k) (np_perm (np_pos σ + i) n) else [] in
      let fill_value j := uniform_value lo r (torch_pos σ + i * n + j) in
      length row = n /\
      NoDup zeroed /\
      length zeroed = n - Nat.min k n /\
      (forall j, j ∈ zeroed -> j < n /\ row !! j = Some 0%Q) /\
      (forall j, j < n -> j ∉ zeroed -> row !! j = Some (fill_value j)) /\
      (k = 0 -> row = replicate n 0%Q) /\
      ((forall j, j < n -> is_nonzero (fill_value j) = true) ->
       count_nonzero row = Nat.min k n).
Proof.
  intros Hp Hm.
  eexists _, _, _. split; [apply get_sparse_tensor_run; [done|lia]|].
  split; [apply lookup_insert_eq|].
  split; [apply length_sparse_rows|].
  intros i row Hrow lo zeroed fill_value.
  apply sparse_rows_lookup in Hrow as [Hi ->]. fold lo.
  fold (zeroed_cols k n (np_pos σ) i) in zeroed.
  assert (Hz : forall j, j ∈ zeroed -> j < n) by (intros j; by apply zeroed_cols_lt).
  assert (Hin : forall j, j ∈ zeroed ->
            sparse_row k n lo r (torch_pos σ) (np_pos σ) i !! j = Some 0%Q).
  { intros j Hj. unfold sparse_row. apply zero_at_lookup_in; [done|].
    rewrite length_drawn_row. by apply Hz. }
  split; [apply length_sparse_row|].
  split; [by apply zeroed_cols_NoDup|].
  split; [by apply length_zeroed_cols|].
  split; [intros j Hj; split; [by apply Hz | by apply Hin]|].
  split.
  { intros j Hj Hnin. unfold sparse_row.
    rewrite zero_at_lookup_notin by done. by apply drawn_row_lookup. }
  split.
  - intros ->. apply list_eq. intros j.
    destruct (decide (j < n)) as [Hj|Hj].
    + rewrite lookup_replicate_2 by done. apply Hin.
      unfold zeroed, zeroed_cols. destruct n as [|n']; [lia|].
      change (0 <? S n') with true. cbv iota.
      rewrite take_ge by (rewrite valid_perms_length by done; lia).
      by apply valid_perms_elem.
    + rewrite !lookup_ge_None_2; [done| |].
      * rewrite length_replicate. lia.
      * rewrite length_sparse_row. lia.
  - intros Hnz. by apply count_nonzero_sparse_row.
Qed.

(** ** The noisy variants *)

Lemma nonzero_spec row c :
  c ∈ nonzero row <-> exists x, row !! c = Some x /\ is_nonzero x = true.
Proof.
  unfold nonzero. rewrite list_elem_of_In, filter_In, in_seq. split.
  - intros [_ H]. destruct (row !! c) as [x|]; [eauto | done].
  - intros (x & Hx & Hnz). split.
    + apply lookup_lt_Some in Hx. lia.
    + by rewrite Hx.
Qed.

Lemma nonzero_lt row c : c ∈ nonzero row -> c < length row.
Proof. intros (x & Hx & _)%nonzero_spec. by eapply lookup_lt_Some. Qed.

Lemma nonzero_NoDup row : NoDup (nonzero row).
Proof.
  unfold nonzero. apply NoDup_ListNoDup, List.NoDup_filter, seq_NoDup.
Qed.

Lemma filter_length_lookup (row : list Q) (s : nat) :
  length (List.filter (fun j => match row !! (j - s) with
                               | Some x => is_nonzero x
                               | None => false
                               end) (seq s (length row))) =
  count_nonzero row.
Proof.
  revert s. induction row as [|x row IH]; intros s; [done|].
  rewrite count_nonzero_cons. cbn [length seq List.filter].
  rewrite Nat.sub_diag. cbn [lookup list_lookup].
  rewrite <- (IH (S s)).
  assert (Heq : forall l, Forall (fun j => S s <= j) l ->
    List.filter (fun j => match (x :: row) !! (j - s) with
                          | Some y => is_nonzero y
                          | None => false
                          end) l =
    List.filter (fun j => match row !! (j - S s) with
                          | Some y => is_nonzero y
                          | None => false
                          end) l).
  { clear. intros l Hl. apply List.filter_ext_in. intros j Hj.
    rewrite Forall_forall in Hl. apply list_elem_of_In, Hl in Hj.
    replace (j - s) with (S (j - S s)) by lia. done. }
  rewrite Heq.
  - destruct (is_nonzero x); simpl; lia.
  - apply Forall_forall. intros j Hj%list_elem_of_In%in_seq. lia.
Qed.

Lemma length_nonzero row : length (nonzero row) = count_nonzero row.
Proof.
  unfold nonzero. rewrite <- (filter_length_lookup row 0).
  f_equal. apply List.filter_ext. intros j. by rewrite Nat.sub_0_r.
Qed.

Lemma py_slice_to_take {A} (l : list A) z :
  py_slice_to l z =
  take (if (0 <=? z)%Z then Z.to_nat z else length l - Z.to_nat (- z)) l.
Proof. unfold py_slice_to. by destruct (0 <=? z)%Z. Qed.

Lemma variant_indices_lt kw p npos i j :
  valid_perms -> j ∈ variant_indices kw p npos i -> j < kw.
Proof.
  intros Hp. unfold variant_indices. rewrite py_slice_to_take.
  by apply valid_perms_lt.
Qed.

Lemma variant_indices_NoDup kw p npos i :
  valid_perms -> NoDup (variant_indices kw p npos i).
Proof.
  intros Hp. unfold variant_indices. rewrite py_slice_to_take.
  by apply valid_perms_NoDup.
Qed.

Lemma length_variant_indices kw p npos i :
  valid_perms -> (0 <= number_to_zero p kw)%Z ->
  length (variant_indices kw p npos i) =
  Nat.min (Z.to_nat (number_to_zero p kw)) kw.
Proof.
  intros Hp Hz. unfold variant_indices. rewrite py_slice_to_take.
  rewrite (proj2 (Z.leb_le _ _) Hz).
  by rewrite length_take, valid_perms_length.
Qed.

Lemma in_range_spec nz idxs :
  in_range nz idxs = true <-> forall j, j ∈ idxs -> j < length nz.
Proof.
  unfold in_range. rewrite forallb_forall. split.
  - intros H j Hj%list_elem_of_In. by apply Nat.ltb_lt, H.
  - intros H j Hj%list_elem_of_In. by apply Nat.ltb_lt, H.
Qed.

Lemma variant_cols_NoDup nz idxs :
  NoDup nz -> NoDup idxs -> in_range nz idxs = true ->
  NoDup (variant_cols nz idxs).
Proof.
  intros Hnz Hnd Hr. rewrite in_range_spec in Hr.
  unfold variant_cols. induction Hnd as [|j idxs Hj Hnd IH]; [constructor|].
  simpl. constructor.
  - intros Hin. apply list_elem_of_fmap in Hin as (j' & Heq & Hj').
    destruct (lookup_lt_is_Some_2 nz j) as [c Hc]; [apply Hr; left|].
    destruct (lookup_lt_is_Some_2 nz j') as [c' Hc']; [apply Hr; by right|].
    rewrite Hc, Hc' in Heq. simpl in Heq. subst c'.
    rewrite NoDup_alt in Hnz. by rewrite (Hnz _ _ _ Hc Hc') in Hj.
  - apply IH. intros j' Hj'. apply Hr. by right.
Qed.

Lemma variant_cols_elem nz idxs c :
  in_range nz idxs = true -> c ∈ variant_cols nz idxs -> c ∈ nz.
Proof.
  intros Hr Hc. rewrite in_range_spec in Hr.
  apply list_elem_of_fmap in Hc as (j & -> & Hj).
  destruct (lookup_lt_is_Some_2 nz j) as [c Hc]; [by apply Hr|].
  rewrite Hc. simpl. apply list_elem_of_lookup. eauto.
Qed.

(** The inner loop of [get_permuted_tensors] on row [i]. *)
Lemma zero_variant_run w2 i nz : forall idxs t r σ,
  heap σ !! w2 = Some t -> t !! i = Some r ->
  (forall c, c ∈ nz -> c < length r) ->
  forM_ idxs (fun j => match nz !! j with
                       | Some c => setitem_zero w2 i c
                       | None => raise IndexError
                       end) σ =
  if in_range nz idxs
  then OK (tt, upd w2 (<[i := zero_at (variant_cols nz idxs) r]> t) σ)
  else Raise IndexError.
Proof.
  induction idxs as [|j idxs IH]; intros t r σ Hw Hi Hnz.
  - change (zero_at (variant_cols nz []) r) with r. simpl.
    rewrite list_insert_id by done. by rewrite upd_id.
  - cbn [forM_ in_range forallb].
    destruct (nz !! j) as [c|] eqn:Hj.
    + rewrite (proj2 (Nat.ltb_lt _ _) (lookup_lt_Some _ _ _ Hj)).
      cbn [andb]. fold (in_range nz idxs).
      assert (Hc : c < length r).
      { apply Hnz, list_elem_of_lookup. eauto. }
      run (setitem_zero_run w2 i c t r σ Hw Hi Hc).
      rewrite (IH (<[i := <[c := 0%Q]> r]> t) (<[c := 0%Q]> r)).
      * destruct (in_range nz idxs); [|done].
        rewrite upd_upd, list_insert_insert_eq.
        unfold variant_cols. cbn [map]. rewrite Hj. done.
      * apply heap_upd.
      * apply list_lookup_insert_eq. by eapply lookup_lt_Some.
      * intros c' Hc'. rewrite length_insert. by apply Hnz.
    + rewrite (proj2 (Nat.ltb_ge _ _) (proj1 (lookup_ge_None _ _) Hj)).
      done.
Qed.

(** The outer loop, on a batch whose first rows are done. *)
Lemma permuted_loop_run w2 row kw p npos0 : forall cnt done σ,
  heap σ !! w2 = Some (done ++ replicate cnt row) ->
  np_pos σ = npos0 + length done ->
  forM_ (seq (length done) cnt) (fun i =>
    q <- np_random_permutation kw ;;
    forM_ (py_slice_to q (number_to_zero p kw)) (fun j =>
      match nonzero row !! j with
      | Some c => setitem_zero w2 i c
      | None => raise IndexError
      end)) σ =
  if forallb (fun i => in_range (nonzero row) (variant_indices kw p npos0 i))
             (seq (length done) cnt)
  then OK (tt, mkWorld
                 (<[w2 := done ++ map (variant row kw p npos0)
                                      (seq (length done) cnt)]> (heap σ))
                 (torch_pos σ) (np_pos σ + cnt))
  else Raise IndexError.
Proof.
  induction cnt as [|cnt IH]; intros done σ Hw Hnp.
  - simpl. unfold ret. rewrite insert_id by done.
    by rewrite Nat.add_0_r, world_eta.
  - cbn [seq forM_ forallb map].
    unfold bind at 1. unfold bind at 1. unfold np_random_permutation at 1.
    set (σ1 := mkWorld (heap σ) (torch_pos σ) (S (np_pos σ))).
    rewrite Hnp. fold (variant_indices kw p npos0 (length done)).
    rewrite (zero_variant_run w2 (length done) (nonzero row) _
               (done ++ replicate (S cnt) row) row σ1).
    2:{ done. }
    2:{ cbn [replicate]. by rewrite list_lookup_middle. }
    2:{ apply nonzero_lt. }
    destruct (in_range (nonzero row) (variant_indices kw p npos0 (length done)));
      [|done].
    cbn [andb].
    fold (variant row kw p npos0 (length done)).
    replace (<[length done := variant row kw p npos0 (length done)]>
               (done ++ replicate (S cnt) row))
      with ((done ++ [variant row kw p npos0 (length done)]) ++ replicate cnt row).
    2:{ cbn [replicate]. rewrite insert_app_r_alt by lia.
        rewrite Nat.sub_diag. simpl. by rewrite <- app_assoc. }
    specialize (IH (done ++ [variant row kw p npos0 (length done)])
                   (upd w2 ((done ++ [variant row kw p npos0 (length done)])
                            ++ replicate cnt row) σ1)).
    rewrite length_app in IH. cbn [length] in IH.
    rewrite Nat.add_1_r in IH. rewrite IH.
    + destruct (forallb _ _); [|done].
      unfold upd, σ1. cbn [heap torch_pos np_pos].
      rewrite insert_insert_eq, <- app_assoc. simpl.
      do 3 f_equal. lia.
    + apply heap_upd.
    + unfold upd, σ1. cbn [np_pos]. lia.
Qed.

(** What [get_permuted_tensors] does on a one-row source. *)
Lemma get_permuted_tensors_run w row kw n m2 p σ :
  heap σ !! w = Some [row] ->
  get_permuted_tensors w kw n m2 p σ =
  if all_in_range row kw p (np_pos σ) m2
  then OK (fresh (dom (heap σ)),
           mkWorld (<[fresh (dom (heap σ)) :=
                        map (variant row kw p (np_pos σ)) (seq 0 m2)]> (heap σ))
                   (torch_pos σ) (np_pos σ + m2))
  else Raise IndexError.
Proof.
  intros Hw. unfold get_permuted_tensors, tensor_repeat.
  set (l := fresh (dom (heap σ))).
  assert (Hl : l <> w).
  { intros Heq. rewrite <- Heq in Hw. unfold l in Hw.
    by rewrite fresh_heap in Hw. }
  assert (Hrep : concat (replicate m2 [row]) = replicate m2 row).
  { clear. induction m2 as [|m2 IH]; [done|]. simpl. by rewrite IH. }
  unfold bind at 1. unfold bind at 1. unfold load at 1. rewrite Hw.
  unfold alloc. fold l. rewrite Hrep.
  set (σ1 := mkWorld (<[l := replicate m2 row]> (heap σ)) (torch_pos σ) (np_pos σ)).
  unfold bind at 1. unfold row_nonzero, bind at 1, load.
  assert (Hw1 : heap σ1 !! w = Some [row]).
  { unfold σ1. simpl. by rewrite lookup_insert_ne. }
  rewrite Hw1. cbn [lookup list_lookup]. unfold ret at 1.
  fold (number_to_zero p kw).
  pose proof (permuted_loop_run l row kw p (np_pos σ) m2 [] σ1) as Hloop.
  cbn [length app] in Hloop. unfold bind at 1. rewrite Hloop.
  - unfold all_in_range. destruct (forallb _ _); [|done].
    unfold ret, σ1. simpl. by rewrite insert_insert_eq.
  - unfold σ1. simpl. apply lookup_insert_eq.
  - unfold σ1. simpl. lia.
Qed.

Lemma all_in_range_true row kw p npos m2 :
  valid_perms -> kw <= count_nonzero row ->
  all_in_range row kw p npos m2 = true.
Proof.
  intros Hp Hk. unfold all_in_range. apply forallb_forall. intros i _.
  apply in_range_spec. intros j Hj%variant_indices_lt; [|done].
  rewrite length_nonzero. lia.
Qed.

Lemma forallb_false_iff {A} (f : A -> bool) (l : list A) :
  forallb f l = false <-> exists a, a ∈ l /\ f a = false.
Proof.
  induction l as [|a l IH]; simpl.
  - split; [done|]. by intros (a & Ha%elem_of_nil & _).
  - rewrite andb_false_iff, IH. split.
    + intros [Ha|(b & Hb & Hfb)]; [exists a; split; [left|done] |].
      exists b. split; [by right|done].
    + intros (b & [->|Hb]%elem_of_cons & Hfb); [by left|].
      right. eauto.
Qed.

Lemma all_in_range_false row kw p npos m2 :
  all_in_range row kw p npos m2 = false <->
  exists i j, i < m2 /\ j ∈ variant_indices kw p npos i /\
              count_nonzero row <= j.
Proof.
  unfold all_in_range, in_range. rewrite forallb_false_iff. split.
  - intros (i & Hi & Hr). apply forallb_false_iff in Hr as (j & Hj & Hlt).
    apply list_elem_of_In, in_seq in Hi. apply Nat.ltb_ge in Hlt.
    rewrite length_nonzero in Hlt. exists i, j. split; [lia|done].
  - intros (i & j & Hi & Hj & Hle). exists i. split.
    + apply list_elem_of_In, in_seq. lia.
    + apply forallb_false_iff. exists j. split; [done|].
      apply Nat.ltb_ge. by rewrite length_nonzero.
Qed.

(** C7 (as amended).  For a one-row source whose non-zero positions
    number at least [kw], and a corruption fraction [p] with
    [round(p * kw) >= 0], [get_permuted_tensors] returns [m2] rows.  Row
    [i] equals the source except at the positions [zeroed], which are
    [min (round (p * kw)) kw] distinct non-zero positions of the source,
    selected by the first [round(p * kw)] entries of the permutation of
    [range(kw)] drawn for that variant alone; these are set to zero. *)
Theorem get_permuted_tensors_variants w row kw n m2 p σ :
  valid_perms ->
  heap σ !! w = Some [row] ->
  kw <= count_nonzero row ->
  (0 <= py_round (p * Qnat kw))%Z ->
  exists l σ' variants,
    get_permuted_tensors w kw n m2 p σ = OK (l, σ') /\
    heap σ' !! l = Some variants /\
    length variants = m2 /\
    forall i v, variants !! i = Some v ->
      let count := Z.to_nat (py_round (p * Qnat kw)) in
      let zeroed := map (fun j => default 0 (nonzero row !! j))
                        (take count (np_perm (np_pos σ + i) kw)) in
      NoDup zeroed /\
      length zeroed = Nat.min count kw /\
      length v = length row /\
      (forall c, c ∈ zeroed ->
         (exists x, row !! c = Some x /\ is_nonzero x = true) /\
         v !! c = Some 0%Q) /\
      (forall c, c ∉ zeroed -> v !! c = row !! c) /\
      count_nonzero v = count_nonzero row - Nat.min count kw.
Proof.
  intros Hp Hw Hk Hz.
  rewrite (get_permuted_tensors_run w row kw n m2 p σ Hw).
  rewrite all_in_range_true by done.
  eexists _, _, _. split; [done|].
  split; [apply lookup_insert_eq|].
  split; [by rewrite length_map, length_seq|].
  intros i v Hv count zeroed.
  rewrite list_lookup_fmap in Hv.
  destruct (seq 0 m2 !! i) as [i'|] eqn:Hi; [|done].
  apply lookup_seq in Hi as [-> Hi]. simpl in Hv. inversion Hv as [Hv'].
  clear Hv.
  assert (Hidx : variant_indices kw p (np_pos σ) i =
                 take count (np_perm (np_pos σ + i) kw)).
  { unfold variant_indices, number_to_zero, py_slice_to.
    by rewrite (proj2 (Z.leb_le _ _) Hz). }
  assert (Hzeroed : variant_cols (nonzero row)
                      (variant_indices kw p (np_pos σ) i) = zeroed).
  { by rewrite Hidx. }
  unfold variant. rewrite Hzeroed.
  assert (Hr : in_range (nonzero row) (variant_indices kw p (np_pos σ) i) = true).
  { apply in_range_spec. intros j Hj%variant_indices_lt; [|done].
    rewrite length_nonzero. lia. }
  assert (Hnd : NoDup zeroed).
  { rewrite <- Hzeroed. apply variant_cols_NoDup; [apply nonzero_NoDup| |done].
    by apply variant_indices_NoDup. }
  assert (Hlen : length zeroed = Nat.min count kw).
  { unfold zeroed. rewrite length_map, <- Hidx.
    by apply length_variant_indices. }
  assert (Hnz : forall c, c ∈ zeroed ->
            exists x, row !! c = Some x /\ is_nonzero x = true).
  { intros c Hc. apply nonzero_spec. rewrite <- Hzeroed in Hc.
    by eapply variant_cols_elem. }
  split; [done|]. split; [done|].
  split; [apply length_zero_at|].
  split.
  { intros c Hc. split; [by apply Hnz|].
    apply zero_at_lookup_in; [done|].
    destruct (Hnz c Hc) as (x & Hx & _). by eapply lookup_lt_Some. }
  split.
  { intros c Hc. by apply zero_at_lookup_notin. }
  rewrite count_nonzero_zero_at by done. by rewrite Hlen.
Qed.

(** C10.  The indices of a variant are drawn from a permutation of
    [range(kw)] and used to index the list of the source row's non-zero
    positions.  So the call is safe when the source has at least [kw]
    non-zero entries; it raises [IndexError] exactly when some variant
    draws an index at or past the number of non-zero positions, which
    needs [kw] to exceed that number and [round(noise_pct * kw)] not to
    be 0; and it does so for certain when [kw] exceeds that number and
    the whole permutation is used. *)
Theorem get_permuted_tensors_index_fault w row kw n m2 p σ :
  valid_perms ->
  heap σ !! w = Some [row] ->
  (kw <= count_nonzero row ->
   exists l σ', get_permuted_tensors w kw n m2 p σ = OK (l, σ')) /\
  (get_permuted_tensors w kw n m2 p σ = Raise IndexError <->
   exists i j, i < m2 /\
     j ∈ py_slice_to (np_perm (np_pos σ + i) kw) (py_round (p * Qnat kw)) /\
     count_nonzero row <= j) /\
  (get_permuted_tensors w kw n m2 p σ = Raise IndexError ->
   count_nonzero row < kw /\ py_round (p * Qnat kw) <> 0%Z) /\
  (count_nonzero row < kw -> 1 <= m2 ->
   (Z.of_nat kw <= py_round (p * Qnat kw))%Z ->
   get_permuted_tensors w kw n m2 p σ = Raise IndexError).
Proof.
  intros Hp Hw.
  rewrite (get_permuted_tensors_run w row kw n m2 p σ Hw).
  assert (Hiff : (if all_in_range row kw p (np_pos σ) m2
     then OK (fresh (dom (heap σ)),
           mkWorld (<[fresh (dom (heap σ)) :=
                        map (variant row kw p (np_pos σ)) (seq 0 m2)]> (heap σ))
                   (torch_pos σ) (np_pos σ + m2))
     else Raise IndexError) = Raise IndexError <->
     exists i j, i < m2 /\
       j ∈ py_slice_to (np_perm (np_pos σ + i) kw) (py_round (p * Qnat kw)) /\
       count_nonzero row <= j).
  { rewrite <- (all_in_range_false row kw p (np_pos σ) m2).
    destruct (all_in_range row kw p (np_pos σ) m2); split; done. }
  split; [|split; [exact Hiff|split]].
  - intros Hk. rewrite all_in_range_true by done. eauto.
  - intros (i & j & _ & Hj & Hle)%Hiff. split.
    + rewrite py_slice_to_take in Hj. apply valid_perms_lt in Hj; [lia|done].
    + intros Hz. rewrite Hz in Hj. by apply elem_of_nil in Hj.
  - intros Hlt Hm Hz. apply Hiff. exists 0, (count_nonzero row).
    split; [lia|]. split; [|lia].
    rewrite py_slice_to_take.
    assert (H0 : (0 <=? py_round (p * Qnat kw))%Z = true)
      by (apply Z.leb_le; lia).
    rewrite H0, take_ge by (rewrite valid_perms_length by done; lia).
    by apply valid_perms_elem.
Qed.

(** ** The source of the variants is left alone *)

Lemma same_except_refl l σ : same_except l σ σ.
Proof. by intros l' _. Qed.

Lemma same_except_trans l σ1 σ2 σ3 :
  same_except l σ1 σ2 -> same_except l σ2 σ3 -> same_except l σ1 σ3.
Proof. intros H1 H2 l' Hl'. by rewrite H2, H1. Qed.

Lemma setitem_zero_frame w i j σ u σ' :
  setitem_zero w i j σ = OK (u, σ') -> same_except w σ σ'.
Proof.
  unfold setitem_zero, bind, load. destruct (heap σ !! w) as [t|]; [|done].
  destruct (set_zero t i j) as [t'|]; [|done].
  unfold store. intros [= _ <-] l' Hl'. simpl. by rewrite lookup_insert_ne.
Qed.

Lemma forM__frame {A} l (f : A -> M unit) :
  (forall a σ u σ', f a σ = OK (u, σ') -> same_except l σ σ') ->
  forall xs σ u σ', forM_ xs f σ = OK (u, σ') -> same_except l σ σ'.
Proof.
  intros Hf xs. induction xs as [|a xs IH]; intros σ u σ' H.
  - inversion H. apply same_except_refl.
  - simpl in H. apply bind_inv in H as (u1 & σ1 & H1 & H2).
    eapply same_except_trans; [by eapply Hf | by eapply IH].
Qed.

(** C8.  When [get_permuted_tensors] returns, the tensor it returns is
    a fresh one, distinct from the source [w]; the source holds exactly
    what it held before the call, and so does every other tensor that
    existed before the call. *)
Theorem get_permuted_tensors_source_unchanged w kw n m2 p σ l σ' :
  get_permuted_tensors w kw n m2 p σ = OK (l, σ') ->
  l <> w /\
  is_Some (heap σ !! w) /\
  heap σ' !! w = heap σ !! w /\
  heap σ !! l = None /\
  forall l', l' <> l -> heap σ' !! l' = heap σ !! l'.
Proof.
  unfold get_permuted_tensors. intros H.
  apply bind_inv in H as (w2 & σ1 & Hrep & H).
  apply bind_inv in H as (nz & σ2 & Hnz & H).
  apply bind_inv in H as (u & σ3 & Hloop & H).
  inversion H; subst l σ3. clear H.
  unfold tensor_repeat in Hrep.
  apply bind_inv in Hrep as (t & σ0 & Hload & Halloc).
  unfold load in Hload. destruct (heap σ !! w) as [t0|] eqn:Hw; [|done].
  inversion Hload; subst t0 σ0. clear Hload.
  unfold alloc in Halloc. inversion Halloc as [[Hw2 Hσ1]]. clear Halloc.
  assert (Hfresh : heap σ !! w2 = None) by (rewrite <- Hw2; apply fresh_heap).
  assert (Hne : w2 <> w) by (intros ->; by rewrite Hw in Hfresh).
  assert (H12 : σ2 = σ1).
  { unfold row_nonzero in Hnz. apply bind_inv in Hnz as (t1 & σ1' & Hl & Hr).
    unfold load in Hl. destruct (heap σ1 !! w); [|done].
    inversion Hl; subst. destruct (t1 !! 0); [|done]. by inversion Hr. }
  subst σ2.
  assert (Hframe : same_except w2 σ1 σ').
  { revert Hloop. apply forM__frame. clear. intros i σ u σ' H.
    apply bind_inv in H as (q & σ1 & Hq & H).
    unfold np_random_permutation in Hq. inversion Hq; subst q σ1. clear Hq.
    apply (same_except_trans _ _ (mkWorld (heap σ) (torch_pos σ) (S (np_pos σ)))).
    { by intros l' _. }
    revert H. apply forM__frame. clear. intros j σ u σ' H.
    destruct (nz !! j); [|done]. by eapply setitem_zero_frame. }
  assert (Hall : forall l', l' <> w2 -> heap σ' !! l' = heap σ !! l').
  { intros l' Hl'. rewrite (Hframe l' Hl'), <- Hσ1. simpl.
    rewrite Hw2. by rewrite lookup_insert_ne. }
  rewrite Hw2.
  split; [done|]. split; [by eexists|].
  split; [by rewrite Hall|]. split; [done|]. exact Hall.
Qed.

(** ** The threshold estimator *)

(** A dense batch: with [n <= k] nothing is zeroed and no permutation
    is drawn. *)
Lemma get_sparse_tensor_dense k n m only_positive r σ :
  n <= k ->
  get_sparse_tensor k n m only_positive r σ =
  OK (fresh (dom (heap σ)),
      mkWorld (<[fresh (dom (heap σ)) :=
                   map (drawn_row (if only_positive then 0%Q else (- r)%Q) r
                                  (torch_pos σ) n) (seq 0 m)]> (heap σ))
              (torch_pos σ + m * n) (np_pos σ)).
Proof.
  intros Hkn. unfold get_sparse_tensor.
  set (l := fresh (dom (heap σ))).
  set (lo := if only_positive then 0%Q else (- r)%Q).
  unfold torch_Tensor.
  rewrite (bind_OK _ _ σ l (upd l (replicate m (replicate n 0%Q)) σ)) by done.
  set (σ1 := mkWorld (<[l := map (drawn_row lo r (torch_pos σ) n) (seq 0 m)]> (heap σ))
                     (torch_pos σ + m * n) (np_pos σ)).
  rewrite (bind_OK _ _ _ tt σ1).
  2:{ assert (Hu : uniform_ l lo r (upd l (replicate m (replicate n 0%Q)) σ)
                   = OK (tt, σ1)).
      { unfold uniform_. rewrite heap_upd. unfold upd, σ1. simpl.
        rewrite insert_insert_eq, fill_replicate, numel_replicate. done. }
      unfold lo in Hu. destruct only_positive; exact Hu. }
  rewrite (proj2 (Nat.ltb_ge _ _) Hkn). done.
Qed.

Lemma Qnat_nonzero k : 1 <= k -> Qeq_bool (Qnat k) 0 = false.
Proof.
  intros Hk. unfold Qeq_bool, Qnat. simpl. apply Z.eqb_neq. lia.
Qed.

Lemma py_div_run a k σ :
  1 <= k -> py_div a (Qnat k) σ = OK ((a / Qnat k)%Q, σ).
Proof. intros Hk. unfold py_div. by rewrite Qnat_nonzero. Qed.

(** The loop [for i in range(n_trials): the_dots[i] = w1[i].dot(w1[i])]. *)
Lemma the_dots_loop w1 σ : forall todo done,
  heap σ !! w1 = Some (done ++ todo) ->
  foldM (fun dots i => d <- row_dot w1 i i ;; array_set dots i d)
        (map (fun r => dot r r) done ++ replicate (length todo) 0%Q)
        (seq (length done) (length todo)) σ =
  OK (map (fun r => dot r r) (done ++ todo), σ).
Proof.
  induction todo as [|r todo IH]; intros done Hw.
  - simpl. by rewrite !app_nil_r.
  - cbn [length seq foldM replicate].
    assert (Hr : (done ++ r :: todo) !! length done = Some r)
      by (by rewrite list_lookup_middle).
    unfold bind at 1. unfold bind at 1. unfold row_dot, bind at 1, load.
    rewrite Hw, Hr. unfold ret at 1. unfold array_set.
    rewrite decide_True.
    2:{ rewrite length_app, length_map. simpl. lia. }
    unfold ret at 1.
    rewrite insert_app_r_alt by (rewrite length_map; lia).
    rewrite length_map, Nat.sub_diag. cbn [insert list_insert].
    specialize (IH (done ++ [r])).
    rewrite length_app, map_app, <- !app_assoc in IH. cbn [length map app] in IH.
    rewrite Nat.add_1_r in IH. by apply IH.
Qed.

Lemma get_theta_run k n_trials σ :
  1 <= k ->
  let rows := map (drawn_row (- (1 / Qnat k))%Q (1 / Qnat k)%Q (torch_pos σ) k)
                  (seq 0 n_trials) in
  let dots := map (fun r => dot r r) rows in
  get_theta k n_trials σ =
  OK ((pyfloat_half (np_mean dots), dots),
      mkWorld (<[fresh (dom (heap σ)) := rows]> (heap σ))
              (torch_pos σ + n_trials * k) (np_pos σ)).
Proof.
  intros Hk rows dots. unfold get_theta.
  run (py_div_run _ k σ Hk).
  rewrite (bind_OK _ _ _ _ _
             (get_sparse_tensor_dense k k n_trials false _ σ (Nat.le_refl k))).
  fold rows.
  set (σ1 := mkWorld _ _ _).
  pose proof (the_dots_loop (fresh (dom (heap σ))) σ1 rows []) as Hloop.
  cbn [length map app] in Hloop.
  unfold rows at 2 3 in Hloop. rewrite length_map, length_seq in Hloop.
  run (Hloop ltac:(apply lookup_insert_eq)).
  done.
Qed.

Lemma np_mean_cons x l :
  np_mean (x :: l) = Fin (Qsum (x :: l) / Qnat (S (length l)))%Q.
Proof. done. Qed.


(** ** Single trials *)

Lemma matmul_t_run a b ta tb σ :
  heap σ !! a = Some ta -> heap σ !! b = Some tb ->
  matmul_t a b σ =
  OK (fresh (dom (heap σ)),
      mkWorld (<[fresh (dom (heap σ)) :=
                   map (fun x => map (fun y => dot x y) tb) ta]> (heap σ))
              (torch_pos σ) (np_pos σ)).
Proof.
  intros Ha Hb. unfold matmul_t, bind, load. by rewrite Ha, Hb.
Qed.

Lemma tensor_count_ge_run d t theta σ :
  heap σ !! d = Some t ->
  tensor_count_ge d theta σ = OK (count_ge t theta, σ).
Proof. intros Hd. unfold tensor_count_ge, bind, load. by rewrite Hd. Qed.

Lemma count_ge_cons r t theta :
  count_ge (r :: t) theta =
  length (List.filter (fun d => ge_theta d theta) r) + count_ge t theta.
Proof. done. Qed.

(** Counting over the product matrix is counting over all pairs of an
    input row and a weight row. *)
Lemma count_ge_pairs (inputs weights : tensor) theta :
  count_ge (map (fun x => map (fun y => dot x y) weights) inputs) theta =
  length (List.filter (fun xw => ge_theta (dot (fst xw) (snd xw)) theta)
                      (list_prod inputs weights)).
Proof.
  induction inputs as [|x inputs IH]; [done|].
  cbn [map list_prod]. rewrite count_ge_cons, IH.
  rewrite List.filter_app, length_app. f_equal.
  clear. induction weights as [|y weights IH]; [done|].
  simpl. destruct (ge_theta (dot x y) theta); simpl; by rewrite IH.
Qed.

Lemma count_ge_column (variants : tensor) (row : list Q) theta :
  count_ge (map (fun x => map (fun y => dot x y) [row]) variants) theta =
  length (List.filter (fun v => ge_theta (dot v row) theta) variants).
Proof.
  induction variants as [|v variants IH]; [done|].
  rewrite map_cons, count_ge_cons, IH.
  simpl. destruct (ge_theta (dot v row) theta); simpl; lia.
Qed.

Lemma Qnat_le a b : a <= b -> (Qnat a <= Qnat b)%Q.
Proof. intros H. unfold Qnat. rewrite <- Zle_Qle. lia. Qed.

Lemma Qnat_pos a : 1 <= a -> (0 < Qnat a)%Q.
Proof.
  intros H. unfold Qnat. change 0%Q with (inject_Z 0). rewrite <- Zlt_Qlt. lia.
Qed.

Lemma fraction_bounds c d :
  c <= d -> 1 <= d -> (0 <= Qnat c / Qnat d)%Q /\ (Qnat c / Qnat d <= 1)%Q.
Proof.
  intros Hcd Hd. pose proof (Qnat_pos d Hd) as Hpos. split.
  - apply Qle_shift_div_l; [done|]. rewrite Qmult_0_l.
    change 0%Q with (Qnat 0). apply Qnat_le. lia.
  - apply Qle_shift_div_r; [done|]. rewrite Qmult_1_l. by apply Qnat_le.
Qed.

Lemma fresh_ne_allocated σ l (t : tensor) :
  heap σ !! l = Some t -> fresh (dom (heap σ)) <> l.
Proof. intros Hl Heq. rewrite <- Heq in Hl. by rewrite fresh_heap in Hl. Qed.

Lemma return_matches_run kw kv n theta s σ :
  valid_perms -> 1 <= kw ->
  let weights :=
    sparse_rows kw n 4 false (1 / Qnat kw)%Q (torch_pos σ) (np_pos σ) in
  let σ1 := mkWorld (<[fresh (dom (heap σ)) := weights]> (heap σ))
                    (torch_pos σ + 4 * n)
                    (np_pos σ + (if kw <? n then 4 else 0)) in
  let inputs :=
    sparse_rows kv n 1000 true (2 * s / Qnat kw)%Q (torch_pos σ1) (np_pos σ1) in
  let σ2 := mkWorld (<[fresh (dom (heap σ1)) := inputs]> (heap σ1))
                    (torch_pos σ1 + 1000 * n)
                    (np_pos σ1 + (if kv <? n then 1000 else 0)) in
  let d := map (fun x => map (fun y => dot x y) weights) inputs in
  let count := count_ge d theta in
  get_sparse_tensor kw n 4 false (1 / Qnat kw)%Q σ
    = OK (fresh (dom (heap σ)), σ1) /\
  get_sparse_tensor kv n 1000 true (2 * s / Qnat kw)%Q σ1
    = OK (fresh (dom (heap σ1)), σ2) /\
  heap σ2 !! fresh (dom (heap σ)) = Some weights /\
  heap σ2 !! fresh (dom (heap σ1)) = Some inputs /\
  return_matches kw kv n theta s σ =
  OK (((Qnat count / Qnat (4 * 1000))%Q, count, 4 * 1000),
      mkWorld (<[fresh (dom (heap σ2)) := d]> (heap σ2))
              (torch_pos σ2) (np_pos σ2)).
Proof.
  intros Hp Hk weights σ1 inputs σ2 d count.
  assert (H1 : get_sparse_tensor kw n 4 false (1 / Qnat kw)%Q σ
               = OK (fresh (dom (heap σ)), σ1)).
  { apply get_sparse_tensor_run; [done|]. left. discriminate. }
  assert (H2 : get_sparse_tensor kv n 1000 true (2 * s / Qnat kw)%Q σ1
               = OK (fresh (dom (heap σ1)), σ2)).
  { apply get_sparse_tensor_run; [done|]. left. discriminate. }
  assert (Hw1 : heap σ1 !! fresh (dom (heap σ)) = Some weights)
    by apply lookup_insert_eq.
  assert (Hw : heap σ2 !! fresh (dom (heap σ)) = Some weights).
  { unfold σ2. cbn [heap]. rewrite lookup_insert_ne; [done|].
    by eapply fresh_ne_allocated. }
  assert (Hi : heap σ2 !! fresh (dom (heap σ1)) = Some inputs)
    by apply lookup_insert_eq.
  do 4 (split; [done|]).
  unfold return_matches. cbv zeta.
  run (py_div_run _ kw σ Hk).
  run H1.
  run (py_div_run _ kw σ1 Hk).
  run H2.
  run (matmul_t_run _ _ _ _ σ2 Hi Hw).
  fold d.
  set (σ3 := mkWorld (<[fresh (dom (heap σ2)) := d]> (heap σ2))
                     (torch_pos σ2) (np_pos σ2)).
  run (tensor_count_ge_run _ d theta σ3
                                ltac:(apply lookup_insert_eq)).
  fold count.
  rewrite (bind_OK _ _ σ3 (Qnat count / Qnat (4 * 1000))%Q σ3).
  - done.
  - unfold py_div.
    replace (Qeq_bool (Qnat (4 * 1000)) 0) with false; [done|].
    symmetry. apply Qnat_nonzero. lia.
Qed.

(** C5.  For every [kw >= 1], [kv], [n], [theta] and [input_scaling],
    one match trial makes exactly two generator calls: 4 weight rows in
    the symmetric mode with range [1/kw], then 1000 input rows in the
    non-negative mode with range [2 * input_scaling / kw].  [count] is
    the number of pairs of an input row and a weight row whose dot
    product is at least [theta]; the trial returns
    [(count / 4000, count, 4000)], and the fraction lies in [0, 1].
    With draws in [0, 1), every weight entry is [1/kw] times a number in
    [-1, 1) and every input entry is [2 * input_scaling / kw] times a
    number in [0, 1). *)
Theorem return_matches_counts kw kv n theta input_scaling σ :
  valid_perms -> 1 <= kw ->
  exists lw li σ1 σ2 σ' weights inputs count,
    get_sparse_tensor kw n 4 false (1 / Qnat kw)%Q σ = OK (lw, σ1) /\
    get_sparse_tensor kv n 1000 true (2 * input_scaling / Qnat kw)%Q σ1
      = OK (li, σ2) /\
    heap σ2 !! lw = Some weights /\
    heap σ2 !! li = Some inputs /\
    length weights = 4 /\
    length inputs = 1000 /\
    count = length (List.filter
                      (fun xw => ge_theta (dot (fst xw) (snd xw)) theta)
                      (list_prod inputs weights)) /\
    return_matches kw kv n theta input_scaling σ =
      OK (((Qnat count / Qnat 4000)%Q, count, 4000), σ') /\
    count <= 4000 /\
    (0 <= Qnat count / Qnat 4000)%Q /\ (Qnat count / Qnat 4000 <= 1)%Q /\
    ((forall t, (0 <= torch_rand t)%Q /\ (torch_rand t < 1)%Q) ->
     Forall (Forall (fun x => exists v,
               (-1 <= v)%Q /\ (v < 1)%Q /\ (x == 1 / Qnat kw * v)%Q))
            weights /\
     Forall (Forall (fun x => exists u,
               (0 <= u)%Q /\ (u < 1)%Q /\
               (x == 2 * input_scaling / Qnat kw * u)%Q))
            inputs).
Proof.
  intros Hp Hk.
  destruct (return_matches_run kw kv n theta input_scaling σ Hp Hk)
    as (H1 & H2 & Hw & Hi & Hrun).
  eexists _, _, _, _, _, _, _, _.
  split; [exact H1|]. split; [exact H2|].
  split; [exact Hw|]. split; [exact Hi|].
  split; [apply length_sparse_rows|]. split; [apply length_sparse_rows|].
  split; [reflexivity|].
  rewrite <- count_ge_pairs.
  split; [exact Hrun|].
  set (weights := sparse_rows kw n 4 false _ _ _).
  set (inputs := sparse_rows kv n 1000 true _ _ _).
  assert (Hc : count_ge (map (fun x => map (fun y => dot x y) weights) inputs)
                        theta <= 4000).
  { rewrite count_ge_pairs.
    etransitivity; [apply filter_length_le|].
    rewrite length_prod. unfold inputs, weights.
    rewrite !length_sparse_rows. done. }
  split; [exact Hc|].
  destruct (fraction_bounds _ 4000 Hc ltac:(lia)) as [Hlo Hhi].
  split; [exact Hlo|]. split; [exact Hhi|].
  intros Hu. split.
  - eapply Forall_impl; [apply sparse_rows_entries|]. intros row Hrow.
    eapply Forall_impl; [exact Hrow|]. intros x [->|[t ->]].
    + exists 0%Q. split; [lra|]. split; [lra|ring].
    + destruct (Hu t) as [Hu0 Hu1].
      exists (2 * torch_rand t - 1)%Q. split; [lra|]. split; [lra|].
      unfold uniform_value. ring.
  - eapply Forall_impl; [apply sparse_rows_entries|]. intros row Hrow.
    eapply Forall_impl; [exact Hrow|]. intros x [->|[t ->]].
    + exists 0%Q. split; [lra|]. split; [lra|ring].
    + destruct (Hu t) as [Hu0 Hu1].
      exists (torch_rand t). split; [done|]. split; [done|].
      unfold uniform_value. ring.
Qed.

Lemma return_false_negatives_run kw p n theta σ :
  valid_perms -> 1 <= kw ->
  let row := sparse_row kw n (- (1 / Qnat kw))%Q (1 / Qnat kw)%Q
                        (torch_pos σ) (np_pos σ) 0 in
  let σ1 := mkWorld (<[fresh (dom (heap σ)) := [row]]> (heap σ))
                    (torch_pos σ + 1 * n)
                    (np_pos σ + (if kw <? n then 1 else 0)) in
  let variants := map (variant row kw p (np_pos σ1)) (seq 0 10) in
  let σ2 := mkWorld (<[fresh (dom (heap σ1)) := variants]> (heap σ1))
                    (torch_pos σ1) (np_pos σ1 + 10) in
  let count :=
    length (List.filter (fun v => ge_theta (dot v row) theta) variants) in
  get_sparse_tensor kw n 1 false (1 / Qnat kw)%Q σ
    = OK (fresh (dom (heap σ)), σ1) /\
  heap σ1 !! fresh (dom (heap σ)) = Some [row] /\
  get_permuted_tensors (fresh (dom (heap σ))) kw n 10 p σ1 =
    (if all_in_range row kw p (np_pos σ1) 10
     then OK (fresh (dom (heap σ1)), σ2) else Raise IndexError) /\
  return_false_negatives kw p n theta σ =
    if all_in_range row kw p (np_pos σ1) 10
    then OK (((Qnat count / Qnat 10)%Q, count, 10),
             mkWorld (<[fresh (dom (heap σ2)) :=
                          map (fun x => map (fun y => dot x y) [row]) variants]>
                        (heap σ2))
                     (torch_pos σ2) (np_pos σ2))
    else Raise IndexError.
Proof.
  intros Hp Hk row σ1 variants σ2 count.
  assert (H1 : get_sparse_tensor kw n 1 false (1 / Qnat kw)%Q σ
               = OK (fresh (dom (heap σ)), σ1)).
  { rewrite get_sparse_tensor_run; [done|done|]. left. discriminate. }
  assert (Hw1 : heap σ1 !! fresh (dom (heap σ)) = Some [row])
    by apply lookup_insert_eq.
  pose proof (get_permuted_tensors_run _ row kw n 10 p σ1 Hw1) as H2.
  fold variants in H2. fold σ2 in H2.
  do 3 (split; [done|]).
  unfold return_false_negatives. cbv zeta.
  run (py_div_run _ kw σ Hk).
  run H1.
  unfold bind at 1. rewrite H2.
  destruct (all_in_range row kw p (np_pos σ1) 10); [|done].
  assert (Hv : heap σ2 !! fresh (dom (heap σ1)) = Some variants)
    by apply lookup_insert_eq.
  assert (Hw : heap σ2 !! fresh (dom (heap σ)) = Some [row]).
  { unfold σ2. cbn [heap]. rewrite lookup_insert_ne; [done|].
    by eapply fresh_ne_allocated. }
  run (matmul_t_run _ _ _ _ σ2 Hv Hw).
  set (d := map (fun x => map (fun y => dot x y) [row]) variants).
  set (σ3 := mkWorld (<[fresh (dom (heap σ2)) := d]> (heap σ2))
                     (torch_pos σ2) (np_pos σ2)).
  run (tensor_count_ge_run _ d theta σ3
                                ltac:(apply lookup_insert_eq)).
  assert (Hcount : count_ge d theta = count) by apply count_ge_column.
  rewrite Hcount.
  run (py_div_run (Qnat count) 10 σ3 ltac:(lia)).
  done.
Qed.

(** C6 (as amended).  For every [kw >= 1], [noise_pct], [n] and
    [theta], one false-negative trial generates one row in the symmetric
    mode with sparsity [kw], dimensionality [n] and range [1/kw].  The
    row has exactly [kw] non-zero entries when [kw <= n] and none of its
    drawn values is zero.  Whenever the row has at least [kw] non-zero
    entries, the trial builds 10 variants of it with
    [get_permuted_tensors], counts the variants whose dot product with
    the row is at least [theta], and returns [(count / 10, count, 10)]
    with [count <= 10]. *)
Theorem return_false_negatives_counts kw noise_pct n theta σ :
  valid_perms -> 1 <= kw ->
  exists lw σ1 row,
    get_sparse_tensor kw n 1 false (1 / Qnat kw)%Q σ = OK (lw, σ1) /\
    heap σ1 !! lw = Some [row] /\
    (kw <= n ->
     (forall j, j < n ->
        is_nonzero (uniform_value (- (1 / Qnat kw))%Q (1 / Qnat kw)%Q
                                  (torch_pos σ + j)) = true) ->
     count_nonzero row = kw) /\
    (kw <= count_nonzero row ->
     exists lv σ2 σ' variants count,
       get_permuted_tensors lw kw n 10 noise_pct σ1 = OK (lv, σ2) /\
       heap σ2 !! lv = Some variants /\
       length variants = 10 /\
       count = length (List.filter (fun v => ge_theta (dot v row) theta)
                                   variants) /\
       return_false_negatives kw noise_pct n theta σ =
         OK (((Qnat count / Qnat 10)%Q, count, 10), σ') /\
       count <= 10).
Proof.
  intros Hp Hk.
  destruct (return_false_negatives_run kw noise_pct n theta σ Hp Hk)
    as (H1 & Hw1 & H2 & Hrun).
  eexists _, _, _.
  split; [exact H1|]. split; [exact Hw1|]. split.
  - intros Hkn Hnz. rewrite count_nonzero_sparse_row; [lia|done|].
    intros j Hj. rewrite Nat.mul_0_l, Nat.add_0_r. by apply Hnz.
  - intros Hcount.
    rewrite all_in_range_true in H2, Hrun by done.
    eexists _, _, _, _, _.
    split; [exact H2|]. split; [apply lookup_insert_eq|].
    split; [by rewrite length_map, length_seq|].
    split; [reflexivity|]. split; [exact Hrun|].
    etransitivity; [apply filter_length_le|].
    by rewrite length_map, length_seq.
Qed.

(** ** The experiment aggregators *)

Lemma mapM_ext {A B} (f g : A -> M B) :
  (forall a σ, f a σ = g a σ) -> forall l σ, mapM f l σ = mapM g l σ.
Proof.
  intros Hfg l. induction l as [|a l IH]; intros σ; [done|].
  simpl. unfold bind. rewrite Hfg. destruct (g a σ) as [[b σ1]|e]; [|done].
  by rewrite IH.
Qed.

Lemma mapM_total {A B} (f : M B) (P : B -> Prop) :
  (forall σ, exists b σ', f σ = OK (b, σ') /\ P b) ->
  forall (l : list A) σ, exists bs σ',
    mapM (fun _ => f) l σ = OK (bs, σ') /\ length bs = length l /\ Forall P bs.
Proof.
  intros Hf l. induction l as [|a l IH]; intros σ.
  - exists [], σ. by repeat split.
  - destruct (Hf σ) as (b & σ1 & Hb & HP).
    destruct (IH σ1) as (bs & σ2 & Hbs & Hlen & HPs).
    exists (b :: bs), σ2. split; [|split].
    + simpl. unfold bind. rewrite Hb, Hbs. done.
    + simpl. by rewrite Hlen.
    + by constructor.
Qed.

Lemma mapM_OK_Forall {A B} (f : M B) (P : B -> Prop) :
  (forall σ b σ', f σ = OK (b, σ') -> P b) ->
  forall (l : list A) σ bs σ',
    mapM (fun _ => f) l σ = OK (bs, σ') -> length bs = length l /\ Forall P bs.
Proof.
  intros Hf l. induction l as [|a l IH]; intros σ bs σ' H.
  - inversion H. by split.
  - simpl in H. apply bind_inv in H as (b & σ1 & Hb & H).
    apply bind_inv in H as (bs' & σ2 & Hbs & H). inversion H; subst.
    destruct (IH _ _ _ Hbs) as [Hlen HPs]. split.
    + simpl. by rewrite Hlen.
    + constructor; [by eapply Hf | done].
Qed.

Lemma accumulate_from (trial : M (Q * nat * nat)) (l : list nat) :
  forall a b σ,
  foldM (fun acc _ => r <- trial ;;
                      ret (fst acc + snd (fst r), snd acc + snd r))
        (a, b) l σ =
  match mapM (fun _ => trial) l σ with
  | OK (rs, σ') =>
      OK ((a + list_sum (map matched rs), b + list_sum (map total rs)), σ')
  | Raise e => Raise e
  end.
Proof.
  induction l as [|i l IH]; intros a b σ.
  - simpl. unfold ret. by rewrite !Nat.add_0_r.
  - cbn [foldM mapM]. unfold bind at 1. unfold bind at 1.
    unfold bind at 2. destruct (trial σ) as [[r σ1]|e]; [|done].
    unfold ret at 1. cbn [fst snd]. rewrite IH.
    unfold bind. destruct (mapM (fun _ => trial) l σ1) as [[rs σ2]|e]; [|done].
    unfold ret. cbn [map list_sum foldr].
    change (foldr Nat.add 0 ?l) with (list_sum l).
    unfold matched at 2, total at 2. by rewrite !Nat.add_assoc.
Qed.

Lemma accumulate_run (trial : M (Q * nat * nat)) n σ :
  accumulate trial n σ =
  match mapM (fun _ => trial) (seq 0 n) σ with
  | OK (rs, σ') =>
      OK ((list_sum (map matched rs), list_sum (map total rs)), σ')
  | Raise e => Raise e
  end.
Proof. unfold accumulate. by rewrite accumulate_from. Qed.

Lemma list_sum_const {A} (f : A -> nat) c l :
  Forall (fun a => f a = c) l -> list_sum (map f l) = c * length l.
Proof.
  induction 1 as [|a l Ha _ IH]; simpl; [lia|].
  change (foldr Nat.add 0 ?l) with (list_sum l). rewrite Ha, IH. lia.
Qed.

Lemma return_matches_total kw kv n theta s σ r σ' :
  return_matches kw kv n theta s σ = OK (r, σ') -> total r = 4000.
Proof.
  unfold return_matches. cbv zeta. intros H.
  repeat (apply bind_inv in H as (? & ? & _ & H)).
  by inversion H.
Qed.

Lemma return_false_negatives_total kw p n theta σ r σ' :
  return_false_negatives kw p n theta σ = OK (r, σ') -> total r = 10.
Proof.
  unfold return_false_negatives. cbv zeta. intros H.
  repeat (apply bind_inv in H as (? & ? & _ & H)).
  by inversion H.
Qed.

Lemma int_arg_run args key z σ :
  args !! key = Some (PyInt z) -> int_arg args key σ = OK (z, σ).
Proof. intros H. unfold int_arg, bind, getitem. by rewrite H. Qed.

Lemma float_arg_run args key f σ :
  args !! key = Some (PyFloat f) -> float_arg args key σ = OK (f, σ).
Proof. intros H. unfold float_arg, bind, getitem. by rewrite H. Qed.

Lemma as_size_run n σ : as_size (Z.of_nat n) σ = OK (n, σ).
Proof.
  unfold as_size. rewrite (proj2 (Z.leb_le 0 (Z.of_nat n))) by lia.
  by rewrite Nat2Z.id.
Qed.

Lemma py_round_nonneg q : (0 <= q)%Q -> (0 <= py_round q)%Z.
Proof.
  intros Hq. unfold py_round.
  assert (Hf : (0 <= Qfloor q)%Z).
  { change 0%Z with (Qfloor 0). by apply Qfloor_resp_le. }
  destruct (q - inject_Z (Qfloor q) ?= 1 # 2)%Q;
    [destruct (Z.even (Qfloor q))| |]; lia.
Qed.

Lemma match_kv_run k n σ :
  (k = -1 \/ 0 <= k)%Z ->
  as_size (if (k =? -1)%Z then py_round (inject_Z (Z.of_nat n) / 2) else k) σ
  = OK (match_kv k n, σ).
Proof.
  intros Hk. unfold match_kv, as_size.
  destruct (k =? -1)%Z eqn:Hk1.
  - assert (H0 : (0 <= py_round (inject_Z (Z.of_nat n) / 2))%Z).
    { apply py_round_nonneg. apply Qle_shift_div_l; [done|].
      rewrite Qmult_0_l. change 0%Q with (inject_Z 0).
      rewrite <- Zle_Qle. lia. }
    by rewrite (proj2 (Z.leb_le _ _) H0).
  - apply Z.eqb_neq in Hk1.
    by rewrite (proj2 (Z.leb_le 0 k)) by lia.
Qed.

(** The match aggregator, in terms of the sequence of its trials. *)
Lemma compute_match_probability_run args k n kw theta n_trials s σ :
  match_settings args k n kw theta n_trials s ->
  (k = -1 \/ 0 <= k)%Z ->
  compute_match_probability args σ =
  match mapM (fun _ => return_matches kw (match_kv k n) n theta s)
             (seq 0 (Z.to_nat n_trials)) σ with
  | OK (rs, σ') =>
      if Qeq_bool (Qnat (list_sum (map total rs))) 0
      then Raise ZeroDivisionError
      else OK (<["pct_matches" := PyFloat (Fin (pooled rs))]> args, σ')
  | Raise e => Raise e
  end.
Proof.
  intros (Hk & Hn & Hkw & Hth & Hnt & Hs) Hkv.
  unfold compute_match_probability.
  run (int_arg_run _ _ _ σ Hk).
  run (int_arg_run _ _ _ σ Hn).
  run (int_arg_run _ _ _ σ Hkw).
  run (float_arg_run _ _ _ σ Hth).
  cbv zeta.
  run (int_arg_run _ _ _ σ Hnt).
  unfold bind at 1. rewrite accumulate_run.
  rewrite (mapM_ext _ (fun _ => return_matches kw (match_kv k n) n theta s)).
  2:{ intros _ σ1.
      run (float_arg_run _ _ _ σ1 Hs).
      run (as_size_run kw σ1).
      run (match_kv_run k n σ1 Hkv).
      run (as_size_run n σ1).
      done. }
  destruct (mapM _ _ σ) as [[rs σ']|e]; [|done].
  cbn [fst snd]. unfold bind, py_div.
  destruct (Qeq_bool (Qnat (list_sum (map total rs))) 0); done.
Qed.

(** The false-negative aggregator, in terms of the sequence of its
    trials. *)
Lemma compute_false_negatives_run args n kw noise n_trials σ :
  false_negative_settings args n kw noise n_trials ->
  1 <= kw ->
  exists theta dots σ1,
    get_theta kw default_theta_trials σ = OK ((theta, dots), σ1) /\
    compute_false_negatives args σ =
    match mapM (fun _ => return_false_negatives kw noise n theta)
               (seq 0 (Z.to_nat n_trials)) σ1 with
    | OK (rs, σ') =>
        if Qeq_bool (Qnat (list_sum (map total rs))) 0
        then Raise ZeroDivisionError
        else OK (<["pctFalse" := PyFloat (Fin (1 - pooled rs))]> args, σ')
    | Raise e => Raise e
    end.
Proof.
  intros (Hn & Hkw & Hnoise & Hnt) Hk.
  pose proof (get_theta_run kw default_theta_trials σ Hk) as Hth.
  cbv zeta in Hth.
  set (theta := pyfloat_half _) in Hth.
  set (dots := map (fun r => dot r r) _) in Hth.
  set (σ1 := mkWorld _ _ _) in Hth.
  exists theta, dots, σ1. split; [exact Hth|].
  assert (Hth' : (k <- as_size (Z.of_nat kw) ;;
                  get_theta k default_theta_trials) σ
                 = OK ((theta, dots), σ1)).
  { by run (as_size_run kw σ). }
  unfold compute_false_negatives.
  run (int_arg_run _ _ _ σ Hn).
  run (int_arg_run _ _ _ σ Hkw).
  run (float_arg_run _ _ _ σ Hnoise).
  run (int_arg_run _ _ _ σ Hnt).
  run Hth'.
  cbv zeta. cbn [fst].
  unfold bind at 1. rewrite accumulate_run.
  rewrite (mapM_ext _ (fun _ => return_false_negatives kw noise n theta)).
  2:{ intros _ σ2.
      run (as_size_run kw σ2).
      unfold as_finite at 1. unfold bind at 1. unfold ret at 1.
      run (as_size_run n σ2).
      done. }
  destruct (mapM _ _ _) as [[rs σ']|e]; [|done].
  cbn [fst snd]. unfold bind, py_div.
  destruct (Qeq_bool (Qnat (list_sum (map total rs))) 0); done.
Qed.

Lemma return_matches_succeeds kw kv n theta s σ :
  valid_perms -> 1 <= kw ->
  exists r σ', return_matches kw kv n theta s σ = OK (r, σ') /\ total r = 4000.
Proof.
  intros Hp Hk.
  destruct (return_matches_run kw kv n theta s σ Hp Hk) as (_ & _ & _ & _ & H).
  eexists _, _. split; [exact H|done].
Qed.

Lemma return_false_negatives_succeeds kw p n theta σ :
  valid_perms -> 1 <= kw -> kw <= n ->
  (forall t, is_nonzero (uniform_value (- (1 / Qnat kw))%Q (1 / Qnat kw)%Q t)
             = true) ->
  exists r σ', return_false_negatives kw p n theta σ = OK (r, σ') /\
               total r = 10.
Proof.
  intros Hp Hk Hkn Hnz.
  destruct (return_false_negatives_run kw p n theta σ Hp Hk) as (_ & _ & _ & H).
  rewrite all_in_range_true in H; [|done|].
  - eexists _, _. split; [exact H|done].
  - rewrite count_nonzero_sparse_row; [lia|done|]. intros j _. apply Hnz.
Qed.

Lemma total_nonzero c (rs : list (Q * nat * nat)) :
  1 <= c -> 1 <= length rs -> Forall (fun r => total r = c) rs ->
  Qeq_bool (Qnat (list_sum (map total rs))) 0 = false.
Proof.
  intros Hc Hlen Hall. apply Qnat_nonzero.
  rewrite (list_sum_const total c) by done. nia.
Qed.

(** C2.  For every trial count [nt >= 1] the aggregators pool counts.
    With [rs] the results of the [nt] successive trials,
    [compute_match_probability] stores
    [sum (matched rs) / sum (total rs)] under ["pct_matches"], and
    [compute_false_negatives] stores one minus that quotient under
    ["pctFalse"]; both return the updated record.  The match trials
    always return; the false-negative trials return whenever
    [kw <= n] and no drawn value is zero, and an exception of a trial is
    passed on. *)
Theorem aggregators_pool_counts nt kw :
  valid_perms -> 1 <= nt -> 1 <= kw ->
  (forall args k n theta s σ,
     match_settings args k n kw theta (Z.of_nat nt) s ->
     (k = -1 \/ 0 <= k)%Z ->
     exists rs σ',
       mapM (fun _ => return_matches kw (match_kv k n) n theta s)
            (seq 0 nt) σ = OK (rs, σ') /\
       length rs = nt /\
       compute_match_probability args σ =
       OK (<["pct_matches" :=
               PyFloat (Fin (Qnat (list_sum (map matched rs)) /
                             Qnat (list_sum (map total rs))))]> args, σ')) /\
  (forall args n noise σ,
     false_negative_settings args n kw noise (Z.of_nat nt) ->
     exists theta dots σ1,
       get_theta kw default_theta_trials σ = OK ((theta, dots), σ1) /\
       let trials := mapM (fun _ => return_false_negatives kw noise n theta)
                          (seq 0 nt) σ1 in
       (forall rs σ', trials = OK (rs, σ') ->
          length rs = nt /\
          compute_false_negatives args σ =
          OK (<["pctFalse" :=
                  PyFloat (Fin (1 - Qnat (list_sum (map matched rs)) /
                                    Qnat (list_sum (map total rs))))]> args,
              σ')) /\
       (forall e, trials = Raise e ->
          compute_false_negatives args σ = Raise e) /\
       (kw <= n ->
        (forall t, is_nonzero (uniform_value (- (1 / Qnat kw))%Q
                                             (1 / Qnat kw)%Q t) = true) ->
        exists rs σ', trials = OK (rs, σ'))).
Proof.
  intros Hp Hnt Hk. split.
  - intros args k n theta s σ Hargs Hkv.
    rewrite (compute_match_probability_run _ _ _ _ _ _ _ σ Hargs Hkv).
    rewrite Nat2Z.id.
    destruct (mapM_total (return_matches kw (match_kv k n) n theta s)
                (fun r => total r = 4000)
                (fun σ0 => return_matches_succeeds kw _ n theta s σ0 Hp Hk)
                (seq 0 nt) σ) as (rs & σ' & Hrs & Hlen & Hall).
    rewrite length_seq in Hlen.
    exists rs, σ'. split; [exact Hrs|]. split; [exact Hlen|].
    rewrite Hrs, (total_nonzero 4000) by (done || lia). done.
  - intros args n noise σ Hargs.
    destruct (compute_false_negatives_run _ _ _ _ _ σ Hargs Hk)
      as (theta & dots & σ1 & Hth & Hrun).
    rewrite Nat2Z.id in Hrun.
    exists theta, dots, σ1. split; [exact Hth|].
    intros trials. fold trials in Hrun. split; [|split].
    + intros rs σ' Htr.
      destruct (mapM_OK_Forall (return_false_negatives kw noise n theta)
                  (fun r => total r = 10)
                  (fun σ0 r σ0' => return_false_negatives_total _ _ _ _ σ0 r σ0')
                  _ _ _ _ Htr) as [Hlen Hall].
      rewrite length_seq in Hlen. split; [exact Hlen|].
      rewrite Hrun, Htr, (total_nonzero 10) by (done || lia). done.
    + intros e Htr. by rewrite Hrun, Htr.
    + intros Hkn Hnz.
      destruct (mapM_total (return_false_negatives kw noise n theta)
                  (fun r => total r = 10)
                  (fun σ0 => return_false_negatives_succeeds kw noise n theta
                               σ0 Hp Hk Hkn Hnz)
                  (seq 0 nt) σ1) as (rs & σ' & Hrs & _).
      eauto.
Qed.

(** Pooling and averaging differ as soon as the trials differ in size. *)
Example pooled_is_not_averaged :
  let rs := [((1 # 1)%Q, 1, 1); ((0 # 3)%Q, 0, 3)] in
  (pooled rs == 1 # 4)%Q /\ (averaged rs == 1 # 2)%Q.
Proof. split; reflexivity. Qed.

(** C9.  When the summed [total_comparisons] is zero the final division
    raises [ZeroDivisionError]: neither aggregator returns a record.
    This is the case exactly when no trial runs ([n_trials <= 0]). *)
Theorem aggregators_zero_total_raises :
  (forall args k n kw theta z s σ rs σ',
     match_settings args k n kw theta z s -> (k = -1 \/ 0 <= k)%Z ->
     mapM (fun _ => return_matches kw (match_kv k n) n theta s)
          (seq 0 (Z.to_nat z)) σ = OK (rs, σ') ->
     list_sum (map total rs) = 0 ->
     compute_match_probability args σ = Raise ZeroDivisionError) /\
  (forall args k n kw theta z σ,
     args !! "k" = Some (PyInt k) -> args !! "n" = Some (PyInt n) ->
     args !! "kw" = Some (PyInt kw) -> args !! "theta" = Some (PyFloat theta) ->
     args !! "n_trials" = Some (PyInt z) -> (z <= 0)%Z ->
     compute_match_probability args σ = Raise ZeroDivisionError) /\
  (forall args n kw noise z σ theta dots σ1 rs σ',
     false_negative_settings args n kw noise z -> 1 <= kw ->
     get_theta kw default_theta_trials σ = OK ((theta, dots), σ1) ->
     mapM (fun _ => return_false_negatives kw noise n theta)
          (seq 0 (Z.to_nat z)) σ1 = OK (rs, σ') ->
     list_sum (map total rs) = 0 ->
     compute_false_negatives args σ = Raise ZeroDivisionError) /\
  (forall args n kw noise z σ,
     false_negative_settings args n kw noise z -> (z <= 0)%Z ->
     compute_false_negatives args σ = Raise ZeroDivisionError).
Proof.
  split; [|split; [|split]].
  - intros args k n kw theta z s σ rs σ' Hargs Hkv Htr Hzero.
    rewrite (compute_match_probability_run _ _ _ _ _ _ _ σ Hargs Hkv).
    by rewrite Htr, Hzero.
  - intros args k n kw theta z σ Hk Hn Hkw Hth Hz Hle.
    unfold compute_match_probability.
    run (int_arg_run _ _ _ σ Hk).
    run (int_arg_run _ _ _ σ Hn).
    run (int_arg_run _ _ _ σ Hkw).
    run (float_arg_run _ _ _ σ Hth).
    cbv zeta.
    run (int_arg_run _ _ _ σ Hz).
    rewrite (Z2Nat.nonpos z Hle). done.
  - intros args n kw noise z σ theta dots σ1 rs σ' Hargs Hk Hth Htr Hzero.
    destruct (compute_false_negatives_run _ _ _ _ _ σ Hargs Hk)
      as (theta' & dots' & σ1' & Hth' & Hrun).
    rewrite Hth in Hth'. inversion Hth'; subst theta' dots' σ1'.
    by rewrite Hrun, Htr, Hzero.
  - intros args n kw noise z σ (Hn & Hkw & Hnoise & Hz) Hle.
    destruct kw as [|kw].
    + unfold compute_false_negatives.
      run (int_arg_run _ _ _ σ Hn).
      run (int_arg_run _ _ _ σ Hkw).
      run (float_arg_run _ _ _ σ Hnoise).
      run (int_arg_run _ _ _ σ Hz).
      done.
    + destruct (compute_false_negatives_run args n (S kw) noise z σ)
        as (theta & dots & σ1 & _ & Hrun); [done|lia|].
      rewrite Hrun, (Z2Nat.nonpos z Hle). done.
Qed.

(** ** The false-negative sweep *)

Lemma false_negative_record_settings kw n noise n_trials ni :
  false_negative_settings (false_negative_record kw n noise n_trials ni)
                          n kw noise (Z.of_nat n_trials).
Proof. unfold false_negative_settings, false_negative_record. done. Qed.

Lemma false_negative_record_pct_false kw n noise n_trials ni v :
  (<["pctFalse" := v]> (false_negative_record kw n noise n_trials ni))
    !! "pct_false" = None.
Proof. unfold false_negative_record. done. Qed.

(** A worker returns its own record, with ["pctFalse"] set. *)
Lemma compute_false_negatives_result args σ r σ' :
  compute_false_negatives args σ = OK (r, σ') ->
  exists v, r = <["pctFalse" := v]> args.
Proof.
  unfold compute_false_negatives. cbv zeta. intros H.
  repeat (apply bind_inv in H as (? & ? & _ & H)).
  inversion H. eauto.
Qed.

Lemma compute_false_negatives_succeeds args n kw noise nt σ :
  valid_perms -> 1 <= kw -> kw <= n -> 1 <= nt ->
  (forall t, is_nonzero (uniform_value (- (1 / Qnat kw))%Q (1 / Qnat kw)%Q t)
             = true) ->
  false_negative_settings args n kw noise (Z.of_nat nt) ->
  exists r σ', compute_false_negatives args σ = OK (r, σ').
Proof.
  intros Hp Hk Hkn Hnt Hnz Hargs.
  destruct (compute_false_negatives_run _ _ _ _ _ σ Hargs Hk)
    as (theta & dots & σ1 & _ & Hrun).
  rewrite Nat2Z.id in Hrun.
  destruct (mapM_total (return_false_negatives kw noise n theta)
              (fun r => total r = 10)
              (fun σ0 => return_false_negatives_succeeds kw noise n theta
                           σ0 Hp Hk Hkn Hnz)
              (seq 0 nt) σ1) as (rs & σ' & Hrs & Hlen & Hall).
  rewrite length_seq in Hlen.
  rewrite Hrs, (total_nonzero 10) in Hrun by (done || lia). eauto.
Qed.

Lemma mapM_total_in {A B} (f : A -> M B) (l : list A) :
  (forall a, a ∈ l -> forall σ, exists b σ', f a σ = OK (b, σ')) ->
  forall σ, exists bs σ', mapM f l σ = OK (bs, σ').
Proof.
  induction l as [|a l IH]; intros Hf σ.
  - by exists [], σ.
  - destruct (Hf a ltac:(left) σ) as (b & σ1 & Hb).
    destruct (IH (fun a' Ha' => Hf a' ltac:(by right)) σ1) as (bs & σ2 & Hbs).
    exists (b :: bs), σ2. simpl. unfold bind. by rewrite Hb, Hbs.
Qed.

Lemma mapM_OK_Forall2 {A B} (f : A -> M B) (P : A -> B -> Prop) :
  (forall a σ b σ', f a σ = OK (b, σ') -> P a b) ->
  forall l σ bs σ', mapM f l σ = OK (bs, σ') -> Forall2 P l bs.
Proof.
  intros Hf l. induction l as [|a l IH]; intros σ bs σ' H.
  - inversion H. constructor.
  - simpl in H. apply bind_inv in H as (b & σ1 & Hb & H).
    apply bind_inv in H as (bs' & σ2 & Hbs & H). inversion H; subst.
    constructor; [by eapply Hf | by eapply IH].
Qed.

Lemma pool_run_total (f : dict -> M dict) W (args : list dict) :
  1 <= W ->
  (forall a, a ∈ args -> forall σ, exists b σ', f a σ = OK (b, σ')) ->
  forall t workers, length workers = W ->
  exists rs, pool_run f W t args workers = OK rs.
Proof.
  intros HW. induction args as [|a args IH]; intros Hf t workers Hlen.
  - by exists [].
  - cbn [pool_run].
    destruct (lookup_lt_is_Some_2 workers (schedule t mod W)) as [σw Hσw].
    { rewrite Hlen. apply Nat.mod_upper_bound. lia. }
    rewrite Hσw.
    destruct (Hf a ltac:(left) σw) as (b & σw' & Hb). rewrite Hb.
    destruct (IH (fun a' Ha' => Hf a' ltac:(by right)) (S t)
                 (<[schedule t mod W := σw']> workers)) as [rs Hrs].
    { by rewrite length_insert. }
    rewrite Hrs. eauto.
Qed.

Lemma pool_run_OK_Forall2 (f : dict -> M dict) (P : dict -> dict -> Prop) W :
  (forall a σ b σ', f a σ = OK (b, σ') -> P a b) ->
  forall args t workers rs,
    pool_run f W t args workers = OK rs -> Forall2 P args rs.
Proof.
  intros Hf args. induction args as [|a args IH]; intros t workers rs H.
  - inversion H. constructor.
  - cbn [pool_run] in H.
    destruct (workers !! (schedule t mod W)) as [σw|]; [|done].
    destruct (f a σw) as [[b σw']|e] eqn:Hb; [|done].
    destruct (pool_run f W (S t) args _) as [rs'|e] eqn:Hrs; [|done].
    inversion H; subst. constructor; [by eapply Hf | by eapply IH].
Qed.

Lemma run_settings_total (f : dict -> M dict) W (args : list dict) :
  (forall a, a ∈ args -> forall σ, exists b σ', f a σ = OK (b, σ')) ->
  forall σ, exists rs σ', run_settings f W args σ = OK (rs, σ').
Proof.
  intros Hf σ. unfold run_settings. destruct (1 <? W) eqn:HW.
  - apply Nat.ltb_lt in HW. unfold pool_map_async.
    destruct (pool_run_total f W args ltac:(lia) Hf 0 (replicate W σ))
      as [rs Hrs]; [apply length_replicate|].
    rewrite Hrs. eauto.
  - by apply mapM_total_in.
Qed.

Lemma run_settings_OK_Forall2 (f : dict -> M dict) (P : dict -> dict -> Prop)
    W args σ rs σ' :
  (forall a σ b σ', f a σ = OK (b, σ') -> P a b) ->
  run_settings f W args σ = OK (rs, σ') -> Forall2 P args rs.
Proof.
  intros Hf. unfold run_settings. destruct (1 <? W).
  - unfold pool_map_async.
    destruct (pool_run f W 0 args (replicate W σ)) as [rs'|e] eqn:Hrs; [|done].
    intros [= <- _]. by eapply pool_run_OK_Forall2.
  - by apply mapM_OK_Forall2.
Qed.

Lemma scatter_false_negatives_KeyError errors r rest σ :
  r !! "pct_false" = None ->
  scatter_false_negatives errors (r :: rest) σ = Raise (KeyError "pct_false").
Proof.
  intros Hr. unfold scatter_false_negatives. cbn [foldM].
  unfold bind at 1. unfold bind at 1. unfold float_arg, bind at 1, getitem.
  by rewrite Hr.
Qed.

(** Once the workers have returned, the scatter loop of a sweep over at
    least one noise level looks up ["pct_false"], a key no worker sets,
    and raises [KeyError]; the [errors] array is never produced.  This
    holds for any number of workers and any schedule. *)
Lemma false_negative_sweep_raises noise rest kw num_workers n_trials n σ :
  (forall result σ1,
     run_settings compute_false_negatives num_workers
       (false_negative_args (noise :: rest) kw n_trials n) σ
       = OK (result, σ1) ->
     compute_false_negatives_parallel (noise :: rest) kw num_workers
       n_trials n σ = Raise (KeyError "pct_false")) /\
  (forall e,
     run_settings compute_false_negatives num_workers
       (false_negative_args (noise :: rest) kw n_trials n) σ = Raise e ->
     compute_false_negatives_parallel (noise :: rest) kw num_workers
       n_trials n σ = Raise e).
Proof.
  unfold compute_false_negatives_parallel. cbv zeta. split.
  - intros result σ1 Hrun. run Hrun.
    apply (run_settings_OK_Forall2 _
             (fun a r => exists v, r = <["pctFalse" := v]> a)) in Hrun.
    2:{ intros a σa b σb. apply compute_false_negatives_result. }
    unfold false_negative_args in Hrun. cbn [imap] in Hrun.
    inversion Hrun as [|a r args' rs' (v & Hr) _]; subst.
    apply scatter_false_negatives_KeyError.
    apply false_negative_record_pct_false.
  - intros e Hrun. by rewrite (bind_Raise _ _ _ _ Hrun).
Qed.

Lemma false_negative_sweep_KeyError noise rest kw num_workers n_trials n σ :
  valid_perms -> 1 <= kw -> kw <= n -> 1 <= n_trials ->
  (forall t, is_nonzero (uniform_value (- (1 / Qnat kw))%Q (1 / Qnat kw)%Q t)
             = true) ->
  compute_false_negatives_parallel (noise :: rest) kw num_workers
    n_trials n σ = Raise (KeyError "pct_false").
Proof.
  intros Hp Hk Hkn Hnt Hnz.
  destruct (run_settings_total compute_false_negatives num_workers
              (false_negative_args (noise :: rest) kw n_trials n)) with (σ := σ)
    as (rs & σ' & Hrs).
  - intros a Ha σa. unfold false_negative_args in Ha.
    apply list_elem_of_lookup in Ha as [i Hi].
    rewrite list_lookup_imap in Hi.
    destruct ((noise :: rest) !! i) as [x|]; [|done].
    simpl in Hi. inversion Hi; subst a.
    apply (compute_false_negatives_succeeds _ n kw x n_trials σa Hp Hk Hkn
             Hnt Hnz).
    apply false_negative_record_settings.
  - by eapply (proj1 (false_negative_sweep_raises _ _ _ _ _ _ _)).
Qed.

(** ** The match sweep: results scattered by the carried index *)

Lemma compute_match_probability_result args σ r σ' :
  compute_match_probability args σ = OK (r, σ') ->
  exists v, r = match_result args v.
Proof.
  unfold compute_match_probability. cbv zeta. intros H.
  repeat (apply bind_inv in H as (? & ? & _ & H)).
  inversion H. unfold match_result. eauto.
Qed.

Lemma compute_match_probability_succeeds args k n kw theta nt s σ :
  valid_perms -> 1 <= kw -> 1 <= nt ->
  match_settings args k n kw theta (Z.of_nat nt) s ->
  (k = -1 \/ 0 <= k)%Z ->
  exists r σ', compute_match_probability args σ = OK (r, σ').
Proof.
  intros Hp Hk Hnt Hargs Hkv.
  rewrite (compute_match_probability_run _ _ _ _ _ _ _ σ Hargs Hkv).
  rewrite Nat2Z.id.
  destruct (mapM_total (return_matches kw (match_kv k n) n theta s)
              (fun r => total r = 4000)
              (fun σ0 => return_matches_succeeds kw _ n theta s σ0 Hp Hk)
              (seq 0 nt) σ) as (rs & σ' & Hrs & Hlen & Hall).
  rewrite length_seq in Hlen.
  rewrite Hrs, (total_nonzero 4000) by (done || lia). eauto.
Qed.

Lemma match_record_settings k kw n theta nt s ki ni :
  match_settings (match_record k kw n theta nt s ki ni)
                 k n kw theta (Z.of_nat nt) s.
Proof. unfold match_settings, match_record. done. Qed.

Lemma match_record_index k kw n theta nt s ki ni :
  carries_index (match_record k kw n theta nt s ki ni) ki ni.
Proof. unfold carries_index, match_record. done. Qed.

Lemma index_arg_run (d : dict) key l i z σ :
  d !! key = Some (PyIntList l) -> l !! i = Some z ->
  index_arg d key i σ = OK (z, σ).
Proof.
  intros Hd Hi. unfold index_arg, bind, getitem. rewrite Hd.
  unfold ret at 1. cbv beta iota. by rewrite Hi.
Qed.

Lemma py_index_run len i σ :
  i < len -> py_index len (Z.of_nat i) σ = OK (i, σ).
Proof.
  intros Hi. unfold py_index.
  rewrite (proj2 (Z.leb_le 0 (Z.of_nat i))) by lia.
  rewrite Nat2Z.id. by rewrite decide_True.
Qed.

Lemma array2_set_int_run (a : list (list Q)) i j row v σ :
  a !! i = Some row -> j < length row ->
  array2_set_int a (Z.of_nat i) (Z.of_nat j) v σ =
  OK (<[i := <[j := v]> row]> a, σ).
Proof.
  intros Hi Hj. unfold array2_set_int.
  run (py_index_run _ i σ (lookup_lt_Some _ _ _ Hi)).
  rewrite Hi. run (py_index_run _ j σ Hj).
  unfold array_set. by rewrite decide_True.
Qed.

Lemma cell_insert_eq (a : list (list Q)) i j row v :
  a !! i = Some row -> j < length row ->
  cell (<[i := <[j := v]> row]> a) i j = Some v.
Proof.
  intros Hi Hj. unfold cell.
  rewrite list_lookup_insert_eq by (by eapply lookup_lt_Some).
  by apply list_lookup_insert_eq.
Qed.

Lemma cell_insert_ne (a : list (list Q)) i j i' j' row v :
  a !! i = Some row -> (i', j') <> (i, j) ->
  cell (<[i := <[j := v]> row]> a) i' j' = cell a i' j'.
Proof.
  intros Hi Hne. unfold cell. destruct (decide (i' = i)) as [->|Hii].
  - rewrite list_lookup_insert_eq by (by eapply lookup_lt_Some).
    rewrite Hi. apply list_lookup_insert_ne. congruence.
  - by rewrite list_lookup_insert_ne.
Qed.

Lemma shape_insert (a : list (list Q)) rows cols i j row v :
  shape a rows cols -> a !! i = Some row ->
  shape (<[i := <[j := v]> row]> a) rows cols.
Proof.
  intros [Hlen Hall] Hi. split.
  - by rewrite length_insert.
  - apply Forall_insert; [done|]. rewrite length_insert.
    by eapply (Forall_lookup_1 _ _ _ _ Hall).
Qed.

Lemma shape_lookup (a : list (list Q)) rows cols i :
  shape a rows cols -> i < rows ->
  exists row, a !! i = Some row /\ length row = cols.
Proof.
  intros [Hlen Hall] Hi.
  destruct (lookup_lt_is_Some_2 a i) as [row Hrow]; [lia|].
  exists row. split; [done|]. by eapply (Forall_lookup_1 _ _ _ _ Hall).
Qed.

(** The scatter loop over results whose settings carry distinct cell
    indices: every result lands in its own cell, and the cells that no
    result names are left as they were. *)
Lemma scatter_matches_run rows cols σ : forall tagged result errors0,
  Forall2 (fun (t : nat * nat * dict) r =>
             carries_index (snd t) (fst (fst t)) (snd (fst t)) /\
             exists v, r = match_result (snd t) v) tagged result ->
  NoDup (map fst tagged) ->
  Forall (fun t : nat * nat * dict =>
            fst (fst t) < rows /\ snd (fst t) < cols) tagged ->
  shape errors0 rows cols ->
  exists errors,
    scatter_matches errors0 result σ = OK (errors, σ) /\
    shape errors rows cols /\
    Forall2 (fun (t : nat * nat * dict) r =>
               exists v, carries_index (snd t) (fst (fst t)) (snd (fst t)) /\
                         r = match_result (snd t) v /\
                         cell errors (fst (fst t)) (snd (fst t)) = Some v)
            tagged result /\
    forall i j, (i, j) ∉ map fst tagged -> cell errors i j = cell errors0 i j.
Proof.
  induction tagged as [|[[ki ni] a] tagged IH];
    intros result errors0 Hres Hnd Hb Hshape.
  - inversion Hres; subst. exists errors0.
    split; [done|]. split; [done|]. split; [constructor|done].
  - inversion Hres as [|t r tagged' result' [Hidx [v Hr]] Hrest]; subst.
    cbn [fst snd] in Hidx. cbn [map fst] in Hnd.
    apply NoDup_cons in Hnd as [Hnotin Hnd].
    apply Forall_cons in Hb as [[Hki Hni] Hb]. cbn [fst snd] in Hki, Hni.
    destruct (shape_lookup _ _ _ ki Hshape Hki) as (row & Hrow & Hlen).
    set (errors1 := <[ki := <[ni := v]> row]> errors0).
    destruct (IH result' errors1 Hrest Hnd Hb) as
      (errors & Hrun & Hshape' & Hcells & Hother).
    { by apply shape_insert. }
    exists errors. split; [|split; [done|split]].
    + unfold scatter_matches. cbn [foldM].
      unfold carries_index in Hidx.
      assert (Hstep :
        (v0 <- float_arg (match_result a v) "pct_matches" ;;
         i <- index_arg (match_result a v) "error_index" 0 ;;
         j <- index_arg (match_result a v) "error_index" 1 ;;
         v1 <- as_finite v0 ;;
         array2_set_int errors0 i j v1) σ = OK (errors1, σ)).
      { assert (Hv : match_result a v !! "pct_matches" = Some (PyFloat (Fin v)))
          by apply lookup_insert_eq.
        assert (Hi : match_result a v !! "error_index"
                     = Some (PyIntList [Z.of_nat ki; Z.of_nat ni])).
        { unfold match_result. by rewrite lookup_insert_ne. }
        run (float_arg_run _ _ _ σ Hv).
        run (index_arg_run _ _ _ 0 _ σ Hi eq_refl).
        run (index_arg_run _ _ _ 1 _ σ Hi eq_refl).
        unfold bind at 1, as_finite, ret at 1.
        apply array2_set_int_run; [done|lia]. }
      run Hstep. exact Hrun.
    + constructor; [|done]. cbn [fst snd]. exists v.
      split; [done|]. split; [done|].
      rewrite Hother by done. unfold errors1.
      apply cell_insert_eq; [done|lia].
    + intros i j Hij. cbn [map fst] in Hij.
      apply not_elem_of_cons in Hij as [Hne Hij].
      rewrite Hother by done. unfold errors1. by apply cell_insert_ne.
Qed.

(** The settings of the match sweep, each tagged with its cell. *)
Lemma match_args_tagged ks ns kw theta nt s :
  exists tagged : list (nat * nat * dict),
    map snd tagged = match_args ks ns kw theta nt s /\
    map fst tagged =
      concat (map (fun ki => map (pair ki) (seq 0 (length ns)))
                  (seq 0 (length ks))) /\
    Forall (fun t => carries_index (snd t) (fst (fst t)) (snd (fst t)) /\
                     exists k n, k ∈ ks /\
                       match_settings (snd t) k n kw theta (Z.of_nat nt) s)
           tagged.
Proof.
  exists (concat (imap (fun ki k =>
            imap (fun ni n =>
                    ((ki, ni), match_record k kw n theta nt s ki ni)) ns) ks)).
  unfold match_args. split; [|split].
  - rewrite concat_map. f_equal.
    etransitivity; [apply (fmap_imap _ (map (@snd (nat * nat) dict)))|].
    apply imap_ext. intros ki k _. simpl.
    etransitivity; [apply (fmap_imap _ (@snd (nat * nat) dict))|].
    by apply imap_ext.
  - rewrite concat_map. f_equal.
    etransitivity; [apply (fmap_imap _ (map (@fst (nat * nat) dict)))|].
    etransitivity;
      [|apply (imap_seq_0 ks (fun ki => map (pair ki) (seq 0 (length ns))))].
    apply imap_ext. intros ki k _. simpl.
    etransitivity; [apply (fmap_imap _ (@fst (nat * nat) dict))|].
    etransitivity; [|apply (imap_seq_0 ns (pair ki))].
    by apply imap_ext.
  - apply Forall_concat, Forall_forall. intros block Hblock.
    apply elem_of_lookup_imap in Hblock as (ki & k & -> & Hk).
    apply Forall_forall. intros t Ht.
    apply elem_of_lookup_imap in Ht as (ni & n & -> & Hn).
    cbn [fst snd]. split; [apply match_record_index|].
    exists k, n. split; [by eapply list_elem_of_lookup_2|].
    apply match_record_settings.
Qed.

Lemma cells_elem rows cols ki ni :
  (ki, ni) ∈ concat (map (fun ki => map (pair ki) (seq 0 cols)) (seq 0 rows))
  <-> ki < rows /\ ni < cols.
Proof.
  rewrite list_elem_of_In, in_concat. split.
  - intros (block & Hblock & Hin).
    apply in_map_iff in Hblock as (ki' & <- & Hki').
    apply in_map_iff in Hin as (ni' & Heq & Hni').
    inversion Heq; subst. apply in_seq in Hki', Hni'. lia.
  - intros [Hki Hni]. exists (map (pair ki) (seq 0 cols)). split.
    + apply in_map_iff. exists ki. split; [done|]. apply in_seq. lia.
    + apply in_map_iff. exists ni. split; [done|]. apply in_seq. lia.
Qed.

Lemma cells_NoDup cols : forall rows start,
  NoDup (concat (map (fun ki => map (pair ki) (seq 0 cols)) (seq start rows))).
Proof.
  induction rows as [|rows IH]; intros start; [constructor|].
  cbn [seq map concat]. apply NoDup_app. split; [|split].
  - apply NoDup_fmap_2; [|apply NoDup_ListNoDup, seq_NoDup].
    intros x y Heq. by inversion Heq.
  - intros [ki ni] Hin Hin'.
    apply list_elem_of_fmap in Hin as (ni' & Heq & _). inversion Heq; subst.
    apply list_elem_of_In, in_concat in Hin' as (block & Hblock & Hin').
    apply in_map_iff in Hblock as (ki' & <- & Hki').
    apply in_map_iff in Hin' as (ni'' & Heq' & _). inversion Heq'; subst.
    apply in_seq in Hki'. lia.
  - apply IH.
Qed.

(** The sibling sweep [compute_match_probabilities] completes, and when
    it has, every setting's probability sits in the cell that the
    setting's own record names, the array has one row per [k] value and
    one column per [n] value, and every cell is named by some setting.
    This holds for any number of workers and any schedule. *)
Lemma match_sweep_scatters ks ns s kw num_workers nt σ :
  valid_perms -> 1 <= kw -> 1 <= nt ->
  Forall (fun k => k = -1 \/ 0 <= k)%Z ks ->
  exists theta dots σ1 result σ2 errors,
    get_theta kw default_theta_trials σ = OK ((theta, dots), σ1) /\
    compute_match_probability_parallel
      (match_args ks ns kw theta nt s) num_workers σ1 = OK (result, σ2) /\
    compute_match_probabilities ks ns s kw num_workers nt σ
      = OK (errors, σ2) /\
    shape errors (length ks) (length ns) /\
    Forall2 (fun a r => exists ki ni v,
               carries_index a ki ni /\ r = match_result a v /\
               cell errors ki ni = Some v)
            (match_args ks ns kw theta nt s) result /\
    forall ki ni, ki < length ks -> ni < length ns ->
      exists a, a ∈ match_args ks ns kw theta nt s /\ carries_index a ki ni.
Proof.
  intros Hp Hk Hnt Hks.
  pose proof (get_theta_run kw default_theta_trials σ Hk) as Hth.
  cbv zeta in Hth.
  set (theta := pyfloat_half _) in Hth.
  set (dots := map (fun r => dot r r) _) in Hth.
  set (σ1 := mkWorld _ _ _) in Hth.
  destruct (match_args_tagged ks ns kw theta nt s)
    as (tagged & Hargs & Hidx & Htagged).
  set (args := match_args ks ns kw theta nt s) in *.
  destruct (run_settings_total compute_match_probability num_workers args)
    with (σ := σ1) as (result & σ2 & Hrun).
  { intros a Ha σa. rewrite <- Hargs in Ha.
    apply list_elem_of_fmap in Ha as (t & -> & Ht).
    rewrite Forall_forall in Htagged.
    destruct (Htagged t Ht) as (_ & k & n & Hin & Hset).
    rewrite Forall_forall in Hks.
    by eapply compute_match_probability_succeeds; [..|exact Hset|apply Hks]. }
  assert (Hres : Forall2 (fun (t : nat * nat * dict) r =>
             carries_index (snd t) (fst (fst t)) (snd (fst t)) /\
             exists v, r = match_result (snd t) v) tagged result).
  { apply (run_settings_OK_Forall2 _ (fun a r => exists v, r = match_result a v))
      in Hrun; [|intros a σa b σb; apply compute_match_probability_result].
    rewrite <- Hargs in Hrun. apply Forall2_fmap_l in Hrun.
    apply Forall2_same_length_lookup. split; [by eapply Forall2_length|].
    intros i t r Ht Hr. split.
    - rewrite Forall_forall in Htagged.
      by apply Htagged, list_elem_of_lookup_2 with i.
    - by eapply (Forall2_lookup_lr _ _ _ _ _ _ Hrun). }
  destruct (scatter_matches_run (length ks) (length ns) σ2 tagged result
              (replicate (length ks) (replicate (length ns) 0%Q)) Hres)
    as (errors & Hscatter & Hshape & Hcells & _).
  { rewrite Hidx. apply cells_NoDup. }
  { apply Forall_forall. intros [[ki ni] a] Ht. cbn [fst snd].
    apply cells_elem. rewrite <- Hidx.
    apply list_elem_of_fmap. by exists (ki, ni, a). }
  { split; [apply length_replicate|].
    apply Forall_replicate, length_replicate. }
  subst args.
  exists theta, dots, σ1, result, σ2, errors.
  split; [exact Hth|]. split; [exact Hrun|]. split; [|split; [done|split]].
  - unfold compute_match_probabilities.
    run Hth. cbv zeta. cbn [fst].
    run Hrun. exact Hscatter.
  - rewrite <- Hargs. apply Forall2_fmap_l.
    eapply Forall2_impl; [exact Hcells|].
    intros [[ki ni] a] r (v & Hc & Hr & Hcell). cbn [fst snd] in *.
    by exists ki, ni, v.
  - intros ki ni Hki Hni.
    assert (Hin : (ki, ni) ∈ map fst tagged).
    { rewrite Hidx. by apply cells_elem. }
    apply list_elem_of_fmap in Hin as ([[ki' ni'] a] & Heq & Ht).
    cbn [fst] in Heq. inversion Heq; subst ki' ni'.
    exists a. split.
    + rewrite <- Hargs. apply list_elem_of_fmap. by exists (ki, ni, a).
    + rewrite Forall_forall in Htagged. by destruct (Htagged _ Ht) as [? _].
Qed.
(** ** More on the generator *)

Lemma get_sparse_tensor_no_rows k n only_positive r σ :
  k < n -> get_sparse_tensor k n 0 only_positive r σ = Raise ValueError.
Proof.
  intros Hkn. apply Nat.ltb_lt in Hkn.
  unfold get_sparse_tensor, torch_Tensor, bind, alloc, uniform_. simpl.
  rewrite Hkn.
  destruct only_positive; cbn [heap]; by rewrite lookup_insert_eq.
Qed.

(** What a completed call has done. *)
Lemma get_sparse_tensor_inv k n m only_positive r σ l σ' :
  valid_perms ->
  get_sparse_tensor k n m only_positive r σ = OK (l, σ') ->
  l = fresh (dom (heap σ)) /\
  σ' = mkWorld (<[l := sparse_rows k n m only_positive r
                                   (torch_pos σ) (np_pos σ)]> (heap σ))
               (torch_pos σ + m * n)
               (np_pos σ + (if k <? n then m else 0)).
Proof.
  intros Hp Hrun.
  destruct (decide (m = 0 /\ k < n)) as [[-> Hkn]|Hm].
  - by rewrite get_sparse_tensor_no_rows in Hrun.
  - rewrite get_sparse_tensor_run in Hrun by (done || lia).
    inversion Hrun. done.
Qed.

Lemma uniform_value_bounds lo hi t :
  unit_draws -> (lo <= hi)%Q ->
  (lo <= uniform_value lo hi t)%Q /\ (uniform_value lo hi t <= hi)%Q /\
  ((lo < hi)%Q -> (uniform_value lo hi t < hi)%Q).
Proof.
  intros Hu Hle. destruct (Hu t) as [H0 H1]. unfold uniform_value.
  split; [nra|]. split; [nra|]. intros Hlt. nra.
Qed.

(** X1: a completed call of the generator has allocated one new tensor
    of [output_size] rows of [input_size] entries, has left every
    tensor that existed before as it was, and has consumed exactly
    [output_size * input_size] uniform draws and, when it zeroes, one
    permutation per row. *)
Theorem get_sparse_tensor_allocates k n m only_positive r σ l σ' :
  valid_perms ->
  get_sparse_tensor k n m only_positive r σ = OK (l, σ') ->
  heap σ !! l = None /\
  (forall l', l' <> l -> heap σ' !! l' = heap σ !! l') /\
  (exists rows, heap σ' !! l = Some rows /\ length rows = m /\
                Forall (fun row => length row = n) rows) /\
  torch_pos σ' = torch_pos σ + m * n /\
  np_pos σ' = np_pos σ + (if k <? n then m else 0).
Proof.
  intros Hp Hrun.
  destruct (get_sparse_tensor_inv _ _ _ _ _ _ _ _ Hp Hrun) as [-> ->].
  cbn [heap torch_pos np_pos].
  split; [apply fresh_heap|]. split; [|split; [|done]].
  - intros l' Hl'. by rewrite lookup_insert_ne.
  - eexists. split; [apply lookup_insert_eq|].
    split; [apply length_sparse_rows|].
    unfold sparse_rows. apply Forall_fmap, Forall_forall. intros i _.
    apply length_sparse_row.
Qed.

(** X2: with a range bound [fixed_range >= 0], every entry of a generated
    batch lies in [[-fixed_range, fixed_range]], and in
    [[0, fixed_range]] in the non-negative mode; the upper bound itself
    is reached only when it is zero. *)
Theorem get_sparse_tensor_entries_bounded k n m only_positive r σ l σ' rows :
  valid_perms -> unit_draws -> (0 <= r)%Q ->
  get_sparse_tensor k n m only_positive r σ = OK (l, σ') ->
  heap σ' !! l = Some rows ->
  Forall (Forall (fun x =>
            ((if only_positive then 0 else - r) <= x)%Q /\ (x <= r)%Q /\
            ((0 < r)%Q -> (x < r)%Q)))
         rows.
Proof.
  intros Hp Hu Hr Hrun Hrows.
  destruct (get_sparse_tensor_inv _ _ _ _ _ _ _ _ Hp Hrun) as [-> ->].
  cbn [heap] in Hrows. rewrite lookup_insert_eq in Hrows.
  inversion Hrows; subst rows. clear Hrows.
  eapply Forall_impl; [apply sparse_rows_entries|].
  intros row Hrow. eapply Forall_impl; [exact Hrow|].
  intros x [->|[t ->]].
  - destruct only_positive; (split; [lra|]); split; (lra || done).
  - assert (Hlo : ((if only_positive then 0 else - r) <= r)%Q)
      by (destruct only_positive; lra).
    destruct (uniform_value_bounds _ _ t Hu Hlo) as (H1 & H2 & H3).
    split; [done|]. split; [done|]. intros Hpos. apply H3.
    destruct only_positive; lra.
Qed.

(** ** Bounds on the threshold *)

Lemma Qnat_S n : (Qnat (S n) == Qnat n + 1)%Q.
Proof.
  unfold Qnat. rewrite Nat2Z.inj_succ, <- Z.add_1_r, inject_Z_plus. reflexivity.
Qed.

Lemma Qnat_nonneg n : (0 <= Qnat n)%Q.
Proof. change 0%Q with (Qnat 0). apply Qnat_le. lia. Qed.

Lemma dot_self_bounds (c : Q) (row : list Q) :
  Forall (fun x => (- c <= x)%Q /\ (x <= c)%Q) row ->
  (0 <= dot row row)%Q /\ (dot row row <= Qnat (length row) * (c * c))%Q.
Proof.
  induction 1 as [|x row [Hlo Hhi] _ [IH0 IH1]].
  - cbn [dot length]. change (Qnat 0) with 0%Q. split; lra.
  - cbn [dot length]. rewrite Qnat_S.
    assert (H0 : (0 <= x * x)%Q) by nra.
    assert (H1 : (x * x <= c * c)%Q) by nra.
    generalize dependent (dot row row). generalize (Qnat (length row)).
    intros q d Hd0 Hd1. split; [lra|]. nra.
Qed.

Lemma Qsum_bounds (b : Q) (l : list Q) :
  Forall (fun d => (0 <= d)%Q /\ (d <= b)%Q) l ->
  (0 <= Qsum l)%Q /\ (Qsum l <= Qnat (length l) * b)%Q.
Proof.
  induction 1 as [|d l [Hlo Hhi] _ [IH0 IH1]].
  - unfold Qsum. cbn [foldr length]. change (Qnat 0) with 0%Q. split; lra.
  - unfold Qsum in *. cbn [foldr length]. rewrite Qnat_S.
    generalize dependent (foldr Qplus 0%Q l). generalize (Qnat (length l)).
    intros q s Hs0 Hs1. split; [lra|]. nra.
Qed.

Lemma mean_bounds (b : Q) (l : list Q) :
  1 <= length l ->
  Forall (fun d => (0 <= d)%Q /\ (d <= b)%Q) l ->
  (0 <= Qsum l / Qnat (length l))%Q /\ (Qsum l / Qnat (length l) <= b)%Q.
Proof.
  intros Hlen Hall. destruct (Qsum_bounds b l Hall) as [H0 H1].
  pose proof (Qnat_pos _ Hlen) as Hpos. split.
  - apply Qle_shift_div_l; [done|]. by rewrite Qmult_0_l.
  - apply Qle_shift_div_r; [done|]. by rewrite Qmult_comm.
Qed.

(** The self dot-product of a dense row of [k] draws from
    [[-1/k, 1/k)]. *)
Lemma dense_row_self_dot k pos i :
  unit_draws -> 1 <= k ->
  let row := drawn_row (- (1 / Qnat k))%Q (1 / Qnat k)%Q pos k i in
  (0 <= dot row row)%Q /\ (dot row row <= 1 / Qnat k)%Q.
Proof.
  intros Hu Hk row. pose proof (Qnat_pos k Hk) as Hpos.
  assert (Hc : (0 < 1 / Qnat k)%Q).
  { apply Qlt_shift_div_l; [done|]. lra. }
  destruct (dot_self_bounds (1 / Qnat k) row) as [H0 H1].
  { unfold row, drawn_row. apply Forall_fmap, Forall_forall. intros t _.
    simpl.
    destruct (uniform_value_bounds (- (1 / Qnat k)) (1 / Qnat k) t Hu)
      as (Hlo & Hhi & _); [lra|done]. }
  split; [done|]. eapply Qle_trans; [exact H1|].
  unfold row. rewrite length_drawn_row.
  apply Qle_lteq. right. field. intros Hz. rewrite Hz in Hpos. lra.
Qed.

(** X3: for [k >= 1] and at least one trial, every self dot-product
    that the threshold estimator records lies in [[0, 1/k]], and the
    threshold it returns is a number in [[0, 1/(2k)]]. *)
Theorem get_theta_bounds k n_trials σ :
  unit_draws -> 1 <= k -> 1 <= n_trials ->
  exists theta dots σ',
    get_theta k n_trials σ = OK ((Fin theta, dots), σ') /\
    length dots = n_trials /\
    Forall (fun d => (0 <= d)%Q /\ (d <= 1 / Qnat k)%Q) dots /\
    (0 <= theta)%Q /\ (theta <= 1 / (2 * Qnat k))%Q.
Proof.
  intros Hu Hk Hn.
  pose proof (get_theta_run k n_trials σ Hk) as Hrun. cbv zeta in Hrun.
  set (rows := map _ (seq 0 n_trials)) in Hrun.
  set (dots := map (fun r => dot r r) rows) in Hrun.
  assert (Hlen : length dots = n_trials).
  { unfold dots, rows. by rewrite !length_map, length_seq. }
  assert (Hdots : Forall (fun d => (0 <= d)%Q /\ (d <= 1 / Qnat k)%Q) dots).
  { unfold dots, rows. apply Forall_fmap, Forall_fmap, Forall_forall.
    intros i _. simpl. by apply dense_row_self_dot. }
  destruct (mean_bounds (1 / Qnat k) dots) as [H0 H1]; [lia|done|].
  rewrite Hlen in H0, H1.
  exists (Qsum dots / Qnat n_trials / 2)%Q, dots. eexists.
  split; [|split; [done|split; [done|]]].
  - rewrite Hrun. do 3 f_equal.
    destruct dots as [|d dots']; [simpl in Hlen; lia|].
    rewrite np_mean_cons. cbn [pyfloat_half length] in *. by rewrite Hlen.
  - pose proof (Qnat_pos k Hk) as Hpos.
    split.
    + apply Qle_shift_div_l; [lra|]. lra.
    + apply Qle_shift_div_r; [lra|].
      assert (Heq : (1 / (2 * Qnat k) * 2 == 1 / Qnat k)%Q).
      { field. intros Hz. rewrite Hz in Hpos. lra. }
      by rewrite Heq.
Qed.

(** ** Zero weight sparsity *)

Lemma py_div_zero a σ : py_div a (Qnat 0) σ = Raise ZeroDivisionError.
Proof. done. Qed.

Lemma mapM_first_raises {A B} (f : A -> M B) (a : A) (l : list A) e σ :
  f a σ = Raise e -> mapM f (a :: l) σ = Raise e.
Proof. intros H. cbn [mapM]. by apply bind_Raise. Qed.

Lemma get_theta_zero n_trials σ :
  get_theta 0 n_trials σ = Raise ZeroDivisionError.
Proof. unfold get_theta. apply bind_Raise, py_div_zero. Qed.

Lemma return_matches_zero kv n theta s σ :
  return_matches 0 kv n theta s σ = Raise ZeroDivisionError.
Proof. unfold return_matches. apply bind_Raise, py_div_zero. Qed.

Lemma return_false_negatives_zero p n theta σ :
  return_false_negatives 0 p n theta σ = Raise ZeroDivisionError.
Proof. unfold return_false_negatives. apply bind_Raise, py_div_zero. Qed.

Lemma compute_false_negatives_zero args n noise z σ :
  false_negative_settings args n 0 noise z ->
  compute_false_negatives args σ = Raise ZeroDivisionError.
Proof.
  intros (Hn & Hkw & Hnoise & Hnt). unfold compute_false_negatives.
  run (int_arg_run _ _ _ σ Hn). run (int_arg_run _ _ _ σ Hkw).
  run (float_arg_run _ _ _ σ Hnoise). run (int_arg_run _ _ _ σ Hnt).
  apply bind_Raise. run (as_size_run 0 σ). apply get_theta_zero.
Qed.

(** X4: with [kw = 0] every entry point fails with [ZeroDivisionError]:
    the threshold estimator and the two trials at [1.0 / kw], hence the
    two workers and the sweeps that start by calibrating the
    threshold. *)
Theorem zero_weight_sparsity_raises :
  (forall n_trials σ, get_theta 0 n_trials σ = Raise ZeroDivisionError) /\
  (forall kv n theta s σ,
     return_matches 0 kv n theta s σ = Raise ZeroDivisionError) /\
  (forall p n theta σ,
     return_false_negatives 0 p n theta σ = Raise ZeroDivisionError) /\
  (forall args k n theta z s σ,
     match_settings args k n 0 theta z s -> (k = -1 \/ 0 <= k)%Z ->
     compute_match_probability args σ = Raise ZeroDivisionError) /\
  (forall args n noise z σ,
     false_negative_settings args n 0 noise z ->
     compute_false_negatives args σ = Raise ZeroDivisionError) /\
  (forall ks ns s W nt σ,
     compute_match_probabilities ks ns s 0 W nt σ = Raise ZeroDivisionError) /\
  (forall scales ks n W nt σ,
     compute_scaled_probabilities scales ks 0 n W nt σ
     = Raise ZeroDivisionError).
Proof.
  split; [apply get_theta_zero|]. split; [apply return_matches_zero|].
  split; [apply return_false_negatives_zero|].
  split; [|split; [apply compute_false_negatives_zero|split]].
  - intros args k n theta z s σ Hargs Hk.
    rewrite (compute_match_probability_run _ _ _ _ _ _ _ σ Hargs Hk).
    destruct (Z.to_nat z) as [|m]; [done|].
    cbn [seq].
    by rewrite (mapM_first_raises _ _ _ ZeroDivisionError)
      by apply return_matches_zero.
  - intros. unfold compute_match_probabilities.
    apply bind_Raise, get_theta_zero.
  - intros. unfold compute_scaled_probabilities.
    apply bind_Raise, get_theta_zero.
Qed.

(** ** How the trial counts depend on the threshold, the scale and the
    noise *)

Lemma filter_length_mono {A} (f g : A -> bool) (l : list A) :
  (forall x, f x = true -> g x = true) ->
  length (List.filter f l) <= length (List.filter g l).
Proof.
  intros Hfg. induction l as [|x l IH]; [done|]. simpl.
  destruct (f x) eqn:Hf.
  - rewrite (Hfg x Hf). simpl. lia.
  - destruct (g x); simpl; lia.
Qed.

Lemma ge_theta_Fin d t : ge_theta d (Fin t) = true <-> (t <= d)%Q.
Proof. apply Qle_bool_iff. Qed.

Lemma ge_theta_Qeq d d' theta : (d == d')%Q -> ge_theta d theta = ge_theta d' theta.
Proof.
  intros Heq. destruct theta as [t|]; [|done].
  apply eq_iff_eq_true. rewrite !ge_theta_Fin. by rewrite Heq.
Qed.

Lemma count_ge_antitone (t : tensor) (a b : Q) :
  (a <= b)%Q -> count_ge t (Fin b) <= count_ge t (Fin a).
Proof.
  intros Hab. induction t as [|r t IH]; [done|].
  rewrite !count_ge_cons.
  pose proof (filter_length_mono (fun d => ge_theta d (Fin b))
                (fun d => ge_theta d (Fin a)) r) as Hr.
  assert (Hlen : length (List.filter (fun d => ge_theta d (Fin b)) r)
                 <= length (List.filter (fun d => ge_theta d (Fin a)) r)).
  { apply Hr. intros d. rewrite !ge_theta_Fin. intros Hd.
    eapply Qle_trans; [exact Hab|exact Hd]. }
  lia.
Qed.

Lemma count_ge_NaN (t : tensor) : count_ge t NaN = 0.
Proof.
  induction t as [|r t IH]; [done|]. rewrite count_ge_cons, IH, Nat.add_0_r.
  clear. induction r as [|d r IH]; [done|]. exact IH.
Qed.

Lemma filter_const {A} (f : A -> bool) (a : A) (l : list nat) :
  length (List.filter f (map (fun _ => a) l)) = if f a then length l else 0.
Proof.
  induction l as [|i l IH]; [by destruct (f a)|]. simpl.
  destruct (f a); simpl; by rewrite ?IH.
Qed.

Lemma filter_length_ext {A} (f g : A -> bool) (l : list A) :
  Forall (fun x => f x = g x) l ->
  length (List.filter f l) = length (List.filter g l).
Proof.
  induction 1 as [|x l Hx _ IH]; [done|]. simpl. rewrite Hx.
  destruct (g x); simpl; by rewrite IH.
Qed.

(** Counting over batches whose rows are paired index by index. *)
Lemma count_ge_inputs_mono (f1 f2 : nat -> list Q) (idx : list nat)
    (weights : tensor) theta :
  (forall i y, ge_theta (dot (f1 i) y) theta = true ->
               ge_theta (dot (f2 i) y) theta = true) ->
  count_ge (map (fun x => map (fun y => dot x y) weights) (map f1 idx)) theta
  <= count_ge (map (fun x => map (fun y => dot x y) weights) (map f2 idx)) theta.
Proof.
  intros Himp. induction idx as [|i idx IH]; [done|].
  rewrite !map_cons, !count_ge_cons.
  assert (Hrow :
    length (List.filter (fun d => ge_theta d theta)
              (map (fun y => dot (f1 i) y) weights))
    <= length (List.filter (fun d => ge_theta d theta)
              (map (fun y => dot (f2 i) y) weights))).
  { clear IH. induction weights as [|y weights IHw]; [done|].
    simpl. specialize (Himp i y).
    destruct (ge_theta (dot (f1 i) y) theta).
    - rewrite Himp by done. simpl. lia.
    - destruct (ge_theta (dot (f2 i) y) theta); simpl; lia. }
  lia.
Qed.

Lemma dot_scaled (r : Q) (row base y : list Q) :
  Forall2 (fun x u => (x == r * u)%Q) row base ->
  (dot row y == r * dot base y)%Q.
Proof.
  intros H. revert y. induction H as [|x u row base Hx _ IH]; intros y.
  - simpl. ring.
  - destruct y as [|b y]; simpl; [ring|]. rewrite Hx, IH. ring.
Qed.

Lemma zero_at_Forall2 (R : Q -> Q -> Prop) cols : forall row base,
  R 0%Q 0%Q -> Forall2 R row base ->
  Forall2 R (zero_at cols row) (zero_at cols base).
Proof.
  unfold zero_at. induction cols as [|j cols IH]; intros row base H0 H;
    [done|].
  cbn [foldl]. apply IH; [done|]. by apply Forall2_insert.
Qed.

(** An input row is its range bound times the row of raw draws. *)
Lemma input_row_scaled k n r pos npos i :
  Forall2 (fun x u => (x == r * u)%Q)
    (sparse_row k n 0 r pos npos i)
    (zero_at (zeroed_cols k n npos i) (map torch_rand (seq (pos + i * n) n))).
Proof.
  unfold sparse_row. apply zero_at_Forall2; [ring|].
  unfold drawn_row. apply Forall2_fmap, Forall_Forall2_diag, Forall_forall.
  intros t _. unfold uniform_value. ring.
Qed.

Lemma dot_zero_l (v y : list Q) :
  Forall (fun x => (x == 0)%Q) v -> (dot v y == 0)%Q.
Proof.
  intros H. revert y. induction H as [|x v Hx _ IH]; intros y; [done|].
  destruct y as [|b y]; [done|]. simpl. rewrite Hx, IH. ring.
Qed.

(** X5: on the same random draws, raising the threshold never raises
    the count of a trial, and a [nan] threshold matches nothing; the
    threshold has no influence on the world the trial leaves. *)
Theorem trial_counts_antitone kw n σ :
  valid_perms -> 1 <= kw ->
  (forall kv s (t1 t2 : Q), (t1 <= t2)%Q ->
     exists c1 c2 σ',
       return_matches kw kv n (Fin t1) s σ
         = OK (((Qnat c1 / Qnat 4000)%Q, c1, 4000), σ') /\
       return_matches kw kv n (Fin t2) s σ
         = OK (((Qnat c2 / Qnat 4000)%Q, c2, 4000), σ') /\
       c2 <= c1) /\
  (forall kv s, exists σ',
     return_matches kw kv n NaN s σ
       = OK (((Qnat 0 / Qnat 4000)%Q, 0, 4000), σ')) /\
  (forall p (t1 t2 : Q) r1 σ', (t1 <= t2)%Q ->
     return_false_negatives kw p n (Fin t1) σ = OK (r1, σ') ->
     exists c2,
       return_false_negatives kw p n (Fin t2) σ
         = OK (((Qnat c2 / Qnat 10)%Q, c2, 10), σ') /\
       c2 <= matched r1).
Proof.
  intros Hp Hk. split; [|split].
  - intros kv s t1 t2 Ht.
    destruct (return_matches_run kw kv n (Fin t1) s σ Hp Hk)
      as (_ & _ & _ & _ & Hrun1).
    destruct (return_matches_run kw kv n (Fin t2) s σ Hp Hk)
      as (_ & _ & _ & _ & Hrun2).
    eexists _, _, _. split; [exact Hrun1|]. split; [exact Hrun2|].
    by apply count_ge_antitone.
  - intros kv s.
    destruct (return_matches_run kw kv n NaN s σ Hp Hk)
      as (_ & _ & _ & _ & Hrun).
    rewrite count_ge_NaN in Hrun. eexists. exact Hrun.
  - intros p t1 t2 r1 σ' Ht Hrun1.
    destruct (return_false_negatives_run kw p n (Fin t1) σ Hp Hk)
      as (_ & _ & _ & Hrun1').
    destruct (return_false_negatives_run kw p n (Fin t2) σ Hp Hk)
      as (_ & _ & _ & Hrun2).
    rewrite Hrun1 in Hrun1'.
    destruct (all_in_range _ kw p _ 10); [|done].
    pose proof (f_equal (fun x => match x with
                                  | OK (_, σ0) => σ0
                                  | Raise _ => σ
                                  end) Hrun1') as Hσ.
    pose proof (f_equal (fun x => match x with
                                  | OK (r, _) => matched r
                                  | Raise _ => 0
                                  end) Hrun1') as Hr.
    cbv beta iota in Hσ, Hr. unfold matched at 2 in Hr. cbn [fst snd] in Hr.
    rewrite Hσ, Hr. clear Hrun1 Hrun1' Hσ Hr.
    eexists. split; [exact Hrun2|].
    apply filter_length_mono. intros v. rewrite !ge_theta_Fin. intros Hv.
    eapply Qle_trans; [exact Ht|exact Hv].
Qed.

(** X6: on the same random draws and for a positive threshold, a larger
    input scale never lowers the match count of a trial. *)
Theorem return_matches_scale_monotone kw kv n (theta s1 s2 : Q) σ :
  valid_perms -> 1 <= kw ->
  (0 < theta)%Q -> (0 <= s1)%Q -> (s1 <= s2)%Q ->
  exists c1 c2 σ1 σ2,
    return_matches kw kv n (Fin theta) s1 σ
      = OK (((Qnat c1 / Qnat 4000)%Q, c1, 4000), σ1) /\
    return_matches kw kv n (Fin theta) s2 σ
      = OK (((Qnat c2 / Qnat 4000)%Q, c2, 4000), σ2) /\
    c1 <= c2 /\
    torch_pos σ1 = torch_pos σ2 /\ np_pos σ1 = np_pos σ2.
Proof.
  intros Hp Hk Hth Hs1 Hs.
  destruct (return_matches_run kw kv n (Fin theta) s1 σ Hp Hk)
    as (_ & _ & _ & _ & Hrun1).
  destruct (return_matches_run kw kv n (Fin theta) s2 σ Hp Hk)
    as (_ & _ & _ & _ & Hrun2).
  eexists _, _, _, _. split; [exact Hrun1|]. split; [exact Hrun2|].
  split; [|done]. clear Hrun1 Hrun2.
  cbn [torch_pos np_pos]. unfold sparse_rows at 1 3.
  apply count_ge_inputs_mono. intros i y.
  rewrite !ge_theta_Fin.
  rewrite (dot_scaled _ _ _ y (input_row_scaled kv n (2 * s1 / Qnat kw) _ _ i)).
  rewrite (dot_scaled _ _ _ y (input_row_scaled kv n (2 * s2 / Qnat kw) _ _ i)).
  generalize (dot (zero_at (zeroed_cols kv n
                     (np_pos σ + (if kw <? n then 4 else 0)) i)
                    (map torch_rand (seq (torch_pos σ + 4 * n + i * n) n))) y).
  intros D H1.
  pose proof (Qnat_pos kw Hk) as Hpos.
  assert (Hc : (0 < / Qnat kw)%Q) by by apply Qinv_lt_0_compat.
  unfold Qdiv in *. generalize dependent (/ Qnat kw)%Q. intros c H1 Hc.
  assert (Hr1 : (0 <= 2 * s1 * c)%Q) by nra.
  assert (Hr : (2 * s1 * c <= 2 * s2 * c)%Q) by nra.
  generalize dependent (2 * s1 * c)%Q. intros r1 H1 Hr1 Hr.
  generalize dependent (2 * s2 * c)%Q. intros r2 Hr.
  destruct (Qlt_le_dec 0 D) as [HD|HD]; nra.
Qed.

(** X7: when [round(noise_pct * kw)] is 0 (in particular without
    noise), the ten variants are copies of the generated row, so the
    trial is all or nothing: ten matches when the self dot-product of
    the row reaches the threshold, none otherwise.  No index is drawn,
    so this holds for [kw > n] as well. *)
Theorem return_false_negatives_no_noise kw p n theta σ :
  valid_perms -> 1 <= kw -> py_round (p * Qnat kw) = 0%Z ->
  exists lw σ1 row σ',
    get_sparse_tensor kw n 1 false (1 / Qnat kw)%Q σ = OK (lw, σ1) /\
    heap σ1 !! lw = Some [row] /\
    let count := if ge_theta (dot row row) theta then 10 else 0 in
    return_false_negatives kw p n theta σ
      = OK (((Qnat count / Qnat 10)%Q, count, 10), σ').
Proof.
  intros Hp Hk H0.
  destruct (return_false_negatives_run kw p n theta σ Hp Hk)
    as (H1 & Hw1 & _ & Hrun).
  set (row := sparse_row kw n _ _ _ _ 0) in *.
  assert (Hidx : forall npos i, variant_indices kw p npos i = []).
  { intros. unfold variant_indices, number_to_zero. by rewrite H0. }
  assert (Hall : forall npos, all_in_range row kw p npos 10 = true).
  { intros. unfold all_in_range. apply forallb_forall. intros i _.
    by rewrite Hidx. }
  assert (Hvar : forall npos i, variant row kw p npos i = row).
  { intros. unfold variant. by rewrite Hidx. }
  rewrite Hall in Hrun.
  eexists _, _, row, _. split; [exact H1|]. split; [exact Hw1|].
  cbv zeta. rewrite Hrun. do 2 f_equal.
  assert (Hcount :
    length (List.filter (fun v => ge_theta (dot v row) theta)
              (map (variant row kw p
                      (np_pos σ + (if kw <? n then 1 else 0))) (seq 0 10)))
    = if ge_theta (dot row row) theta then 10 else 0).
  { erewrite map_ext; [|intros i; apply Hvar].
    by rewrite (filter_const (fun v => ge_theta (dot v row) theta)). }
  cbn [np_pos]. by rewrite Hcount.
Qed.

(** Every position of a fully corrupted variant holds zero. *)
Lemma variant_all_zero row kw p npos i :
  valid_perms -> count_nonzero row = kw ->
  (Z.of_nat kw <= py_round (p * Qnat kw))%Z ->
  Forall (fun x => (x == 0)%Q) (variant row kw p npos i).
Proof.
  intros Hp Hcount Hround.
  assert (Hidx : variant_indices kw p npos i = np_perm (npos + i) kw).
  { unfold variant_indices, number_to_zero. rewrite py_slice_to_take.
    rewrite (proj2 (Z.leb_le _ _)) by lia.
    apply take_ge. rewrite valid_perms_length by done. lia. }
  apply Forall_lookup. intros c x Hx.
  unfold variant in Hx. rewrite Hidx in Hx.
  set (cols := variant_cols (nonzero row) (np_perm (npos + i) kw)) in Hx.
  assert (Hc : c < length row).
  { apply lookup_lt_Some in Hx. by rewrite length_zero_at in Hx. }
  destruct (decide (c ∈ cols)) as [Hin|Hnotin].
  - rewrite zero_at_lookup_in in Hx by done. by inversion Hx.
  - rewrite zero_at_lookup_notin in Hx by done.
    destruct (is_nonzero x) eqn:Hnz.
    + exfalso. apply Hnotin.
      assert (Hcnz : c ∈ nonzero row) by (apply nonzero_spec; eauto).
      apply list_elem_of_lookup in Hcnz as [j Hj].
      pose proof (lookup_lt_Some _ _ _ Hj) as Hjlt.
      rewrite length_nonzero, Hcount in Hjlt.
      unfold cols, variant_cols. apply list_elem_of_fmap.
      exists j. split; [by rewrite Hj|]. by apply valid_perms_elem.
    + unfold is_nonzero in Hnz. apply negb_false_iff in Hnz.
      by apply Qeq_bool_iff.
Qed.

(** X8: when [round(noise_pct * kw) >= kw] (in particular with
    [noise_pct = 1]) and the generated row has its [kw] non-zero
    entries, every variant is the zero row: the ten dot products are 0,
    so the trial reports ten matches when the threshold is at most 0
    and none when it is positive. *)
Theorem return_false_negatives_full_noise kw p n theta σ :
  valid_perms -> 1 <= kw -> kw <= n ->
  (forall j, j < n ->
     is_nonzero (uniform_value (- (1 / Qnat kw))%Q (1 / Qnat kw)%Q
                               (torch_pos σ + j)) = true) ->
  (Z.of_nat kw <= py_round (p * Qnat kw))%Z ->
  exists σ',
    let count := if ge_theta 0 theta then 10 else 0 in
    return_false_negatives kw p n theta σ
      = OK (((Qnat count / Qnat 10)%Q, count, 10), σ').
Proof.
  intros Hp Hk Hkn Hnz Hround.
  destruct (return_false_negatives_run kw p n theta σ Hp Hk)
    as (_ & _ & _ & Hrun).
  set (row := sparse_row kw n _ _ _ _ 0) in *.
  assert (Hcount : count_nonzero row = kw).
  { unfold row. rewrite count_nonzero_sparse_row; [lia|done|].
    intros j Hj. rewrite Nat.mul_0_l, Nat.add_0_r. by apply Hnz. }
  rewrite all_in_range_true in Hrun by (done || lia).
  eexists. cbv zeta. rewrite Hrun. do 2 f_equal.
  set (variants := map _ (seq 0 10)).
  assert (Hlen :
    length (List.filter (fun v => ge_theta (dot v row) theta) variants)
    = if ge_theta 0 theta then 10 else 0).
  { rewrite (filter_length_ext _ (fun _ => ge_theta 0 theta)).
    - destruct (ge_theta 0 theta).
      + rewrite List.forallb_filter_id; [unfold variants|];
          [by rewrite length_map, length_seq|by apply forallb_forall].
      + clear. induction variants as [|v vs IH]; [done|]. done.
    - unfold variants. apply Forall_fmap, Forall_forall. intros i _.
      simpl. apply ge_theta_Qeq, dot_zero_l.
      by apply variant_all_zero. }
  by rewrite Hlen.
Qed.

(** ** More on the workers *)

Lemma return_matches_matched_le kw kv n theta s σ r σ' :
  valid_perms ->
  return_matches kw kv n theta s σ = OK (r, σ') -> matched r <= total r.
Proof.
  intros Hp Hrun. destruct kw as [|kw'].
  - by rewrite return_matches_zero in Hrun.
  - destruct (return_matches_run (S kw') kv n theta s σ Hp ltac:(lia))
      as (_ & _ & _ & _ & Hrun').
    rewrite Hrun in Hrun'.
    pose proof (f_equal (fun x => match x with
                                  | OK (r, _) => matched r
                                  | Raise _ => 0
                                  end) Hrun') as Hm.
    pose proof (f_equal (fun x => match x with
                                  | OK (r, _) => total r
                                  | Raise _ => 0
                                  end) Hrun') as Ht.
    cbv beta iota in Hm, Ht.
    unfold matched at 2 in Hm. unfold total at 2 in Ht.
    cbn [fst snd] in Hm, Ht. rewrite Hm, Ht.
    rewrite count_ge_pairs.
    etransitivity; [apply filter_length_le|].
    rewrite length_prod, !length_sparse_rows. done.
Qed.

Lemma return_false_negatives_matched_le kw p n theta σ r σ' :
  valid_perms ->
  return_false_negatives kw p n theta σ = OK (r, σ') -> matched r <= total r.
Proof.
  intros Hp Hrun. destruct kw as [|kw'].
  - by rewrite return_false_negatives_zero in Hrun.
  - destruct (return_false_negatives_run (S kw') p n theta σ Hp ltac:(lia))
      as (_ & _ & _ & Hrun').
    rewrite Hrun in Hrun'.
    destruct (all_in_range _ _ p _ 10); [|done].
    pose proof (f_equal (fun x => match x with
                                  | OK (r, _) => matched r
                                  | Raise _ => 0
                                  end) Hrun') as Hm.
    pose proof (f_equal (fun x => match x with
                                  | OK (r, _) => total r
                                  | Raise _ => 0
                                  end) Hrun') as Ht.
    cbv beta iota in Hm, Ht.
    unfold matched at 2 in Hm. unfold total at 2 in Ht.
    cbn [fst snd] in Hm, Ht. rewrite Hm, Ht.
    etransitivity; [apply filter_length_le|].
    by rewrite length_map, length_seq.
Qed.

Lemma list_sum_le {A} (f g : A -> nat) (l : list A) :
  Forall (fun a => f a <= g a) l -> list_sum (map f l) <= list_sum (map g l).
Proof. induction 1; simpl; lia. Qed.

Lemma pooled_bounds (rs : list (Q * nat * nat)) :
  Forall (fun r => matched r <= total r) rs ->
  Qeq_bool (Qnat (list_sum (map total rs))) 0 = false ->
  (0 <= pooled rs)%Q /\ (pooled rs <= 1)%Q.
Proof.
  intros Hall Hnz. unfold pooled. apply fraction_bounds.
  - by apply list_sum_le.
  - destruct (list_sum (map total rs)); [done|lia].
Qed.

Lemma compute_match_probability_rate args k n kw theta z s σ r σ' :
  valid_perms ->
  match_settings args k n kw theta z s -> (k = -1 \/ 0 <= k)%Z ->
  compute_match_probability args σ = OK (r, σ') ->
  exists v, r = <["pct_matches" := PyFloat (Fin v)]> args /\
            (0 <= v)%Q /\ (v <= 1)%Q.
Proof.
  intros Hp Hargs Hk Hrun.
  rewrite (compute_match_probability_run _ _ _ _ _ _ _ σ Hargs Hk) in Hrun.
  destruct (mapM _ _ σ) as [[rs σ1]|e] eqn:Htrials; [|done].
  destruct (Qeq_bool _ 0) eqn:Hnz; [done|].
  apply (mapM_OK_Forall _ (fun r => matched r <= total r)) in Htrials
    as [_ Hall];
    [|intros σa b σb; by apply return_matches_matched_le].
  destruct (pooled_bounds rs Hall Hnz) as [H0 H1].
  exists (pooled rs). split; [by inversion Hrun|done].
Qed.

Lemma compute_false_negatives_rate args n kw noise z σ r σ' :
  valid_perms ->
  false_negative_settings args n kw noise z ->
  compute_false_negatives args σ = OK (r, σ') ->
  exists v, r = <["pctFalse" := PyFloat (Fin v)]> args /\
            (0 <= v)%Q /\ (v <= 1)%Q.
Proof.
  intros Hp Hargs Hrun.
  destruct kw as [|kw'].
  { by rewrite (compute_false_negatives_zero _ _ _ _ _ Hargs) in Hrun. }
  destruct (compute_false_negatives_run args n (S kw') noise z σ Hargs
              ltac:(lia)) as (theta & dots & σ1 & _ & Hrun').
  rewrite Hrun' in Hrun. clear Hrun'.
  destruct (mapM _ _ σ1) as [[rs σ2]|e] eqn:Htrials; [|done].
  destruct (Qeq_bool _ 0) eqn:Hnz; [done|].
  apply (mapM_OK_Forall _ (fun r => matched r <= total r)) in Htrials
    as [_ Hall];
    [|intros σa b σb; by apply return_false_negatives_matched_le].
  destruct (pooled_bounds rs Hall Hnz) as [H0 H1].
  exists (1 - pooled rs)%Q. split; [by inversion Hrun|]. split; lra.
Qed.

(** X9: the rate that a worker stores is a probability: whenever
    [compute_match_probability] or [compute_false_negatives] returns,
    the record it returns is its argument with one more key, holding a
    number in [[0, 1]]. *)
Theorem aggregated_rates_in_unit_interval :
  valid_perms ->
  (forall args k n kw theta z s σ r σ',
     match_settings args k n kw theta z s -> (k = -1 \/ 0 <= k)%Z ->
     compute_match_probability args σ = OK (r, σ') ->
     exists v, r = <["pct_matches" := PyFloat (Fin v)]> args /\
               (0 <= v)%Q /\ (v <= 1)%Q) /\
  (forall args n kw noise z σ r σ',
     false_negative_settings args n kw noise z ->
     compute_false_negatives args σ = OK (r, σ') ->
     exists v, r = <["pctFalse" := PyFloat (Fin v)]> args /\
               (0 <= v)%Q /\ (v <= 1)%Q).
Proof.
  intros Hp. split.
  - intros. by eapply compute_match_probability_rate.
  - intros. by eapply compute_false_negatives_rate.
Qed.

(** *** The sentinel [k = -1] *)

Lemma py_round_half (z : Z) :
  py_round (inject_Z z / 2) =
  (z / 2 + (if Z.odd z && Z.odd (z / 2) then 1 else 0))%Z.
Proof.
  unfold py_round.
  assert (Hfloor : Qfloor (inject_Z z / 2) = (z / 2)%Z).
  { unfold Qdiv, Qmult, Qinv, inject_Z. simpl. by rewrite Z.mul_1_r. }
  rewrite Hfloor.
  pose proof (Z.div_mod z 2 ltac:(lia)) as Hdm.
  pose proof (Z.mod_pos_bound z 2 ltac:(lia)) as Hb.
  set (q := (z / 2)%Z) in *. clearbody q.
  assert (Hodd : Z.odd z = (z mod 2 =? 1)%Z).
  { rewrite Zmod_odd. by destruct (Z.odd z). }
  rewrite Hodd.
  destruct (Z.eq_dec (z mod 2)%Z 0%Z) as [H0|H0].
  - rewrite H0. simpl.
    assert (Hc : (inject_Z z / 2 - inject_Z q ?= 1 # 2)%Q = Lt).
    { apply (proj1 (Qlt_alt _ _)). rewrite Hdm, H0.
      unfold Qlt, Qdiv, Qmult, Qinv, Qminus, Qplus, Qopp, inject_Z. simpl. lia. }
    rewrite Hc. lia.
  - assert (H1 : (z mod 2 = 1)%Z) by lia. rewrite H1. simpl.
    assert (Hc : (inject_Z z / 2 - inject_Z q ?= 1 # 2)%Q = Eq).
    { apply (proj1 (Qeq_alt _ _)). rewrite Hdm, H1.
      unfold Qeq, Qdiv, Qmult, Qinv, Qminus, Qplus, Qopp, inject_Z. simpl. lia. }
    rewrite Hc. rewrite <- Z.negb_odd. destruct (Z.odd q); simpl; lia.
Qed.

(** X10: a record with [k = -1] is processed exactly as the record with
    [k] replaced by [round(n / 2)], half-way cases going to the even
    neighbour (so [n = 5] gives 2 and [n = 7] gives 4); the record
    returned still holds [k = -1]. *)
Theorem compute_match_probability_sentinel args n kw theta z s σ :
  match_settings args (-1) n kw theta z s ->
  let half := py_round (inject_Z (Z.of_nat n) / 2) in
  half = Z.of_nat (n / 2 + (if Nat.odd n && Nat.odd (n / 2) then 1 else 0)) /\
  compute_match_probability args σ =
  match compute_match_probability (<["k" := PyInt half]> args) σ with
  | OK (r, σ') => OK (<["k" := PyInt (-1)]> r, σ')
  | Raise e => Raise e
  end.
Proof.
  intros Hargs half.
  assert (Hhalf : half = Z.of_nat
            (n / 2 + (if Nat.odd n && Nat.odd (n / 2) then 1 else 0))).
  { unfold half. rewrite py_round_half.
    assert (Hd : (Z.of_nat n / 2)%Z = Z.of_nat (n / 2))
      by by rewrite Nat2Z.inj_div.
    assert (Ho : forall m, Z.even (Z.of_nat m) = Nat.even m /\
                           Z.odd (Z.of_nat m) = Nat.odd m).
    { induction m as [|m [IHe IHo]]; [done|].
      rewrite Nat2Z.inj_succ, Z.even_succ, Z.odd_succ.
      rewrite Nat.even_succ, Nat.odd_succ. done. }
    rewrite Hd, !(proj2 (Ho _)).
    destruct (Nat.odd n && Nat.odd (n / 2)); lia. }
  split; [exact Hhalf|].
  assert (Hnn : (0 <= half)%Z) by lia.
  destruct Hargs as (Hk & Hn & Hkw & Hth & Hnt & Hs).
  assert (Hargs' : match_settings (<["k" := PyInt half]> args)
                     half n kw theta z s).
  { unfold match_settings. rewrite lookup_insert_eq.
    rewrite !lookup_insert_ne by done. done. }
  rewrite (compute_match_probability_run args (-1) n kw theta z s σ)
    by (done || by left).
  rewrite (compute_match_probability_run _ half n kw theta z s σ Hargs')
    by by right.
  assert (Hkv : match_kv (-1) n = match_kv half n).
  { unfold match_kv. fold half.
    destruct (half =? -1)%Z eqn:Heq; [apply Z.eqb_eq in Heq; lia|done]. }
  rewrite Hkv.
  destruct (mapM _ _ σ) as [[rs σ1]|e]; [|done].
  destruct (Qeq_bool _ 0); [done|].
  do 2 f_equal.
  rewrite (insert_insert_ne _ "k" "pct_matches") by done.
  rewrite insert_insert_eq. f_equal. symmetry. by apply insert_id.
Qed.

(** *** Missing keys *)

Lemma int_arg_missing (args : dict) key σ :
  args !! key = None -> int_arg args key σ = Raise (KeyError key).
Proof. intros H. unfold int_arg, bind, getitem. by rewrite H. Qed.

Lemma float_arg_missing (args : dict) key σ :
  args !! key = None -> float_arg args key σ = Raise (KeyError key).
Proof. intros H. unfold float_arg, bind, getitem. by rewrite H. Qed.

(** X11: a worker given a record that lacks one of its keys raises
    [KeyError] for the first missing key in the order in which it reads
    them.  The false-negative worker reads all its keys before it
    calibrates the threshold; the match worker reads ["input_scaling"]
    only inside the trial loop, so that key is missed only when at
    least one trial runs. *)
Theorem workers_missing_key (args : dict) σ :
  (args !! "k" = None ->
   compute_match_probability args σ = Raise (KeyError "k")) /\
  (forall k, args !! "k" = Some (PyInt k) -> args !! "n" = None ->
   compute_match_probability args σ = Raise (KeyError "n")) /\
  (forall k n, args !! "k" = Some (PyInt k) -> args !! "n" = Some (PyInt n) ->
   args !! "kw" = None ->
   compute_match_probability args σ = Raise (KeyError "kw")) /\
  (forall k n kw, args !! "k" = Some (PyInt k) ->
   args !! "n" = Some (PyInt n) -> args !! "kw" = Some (PyInt kw) ->
   args !! "theta" = None ->
   compute_match_probability args σ = Raise (KeyError "theta")) /\
  (forall k n kw theta, args !! "k" = Some (PyInt k) ->
   args !! "n" = Some (PyInt n) -> args !! "kw" = Some (PyInt kw) ->
   args !! "theta" = Some (PyFloat theta) -> args !! "n_trials" = None ->
   compute_match_probability args σ = Raise (KeyError "n_trials")) /\
  (forall k n kw theta z, args !! "k" = Some (PyInt k) ->
   args !! "n" = Some (PyInt n) -> args !! "kw" = Some (PyInt kw) ->
   args !! "theta" = Some (PyFloat theta) ->
   args !! "n_trials" = Some (PyInt z) -> (1 <= z)%Z ->
   args !! "input_scaling" = None ->
   compute_match_probability args σ = Raise (KeyError "input_scaling")) /\
  (args !! "n" = None ->
   compute_false_negatives args σ = Raise (KeyError "n")) /\
  (forall n, args !! "n" = Some (PyInt n) -> args !! "kw" = None ->
   compute_false_negatives args σ = Raise (KeyError "kw")) /\
  (forall n kw, args !! "n" = Some (PyInt n) ->
   args !! "kw" = Some (PyInt kw) -> args !! "noise_pct" = None ->
   compute_false_negatives args σ = Raise (KeyError "noise_pct")) /\
  (forall n kw noise, args !! "n" = Some (PyInt n) ->
   args !! "kw" = Some (PyInt kw) ->
   args !! "noise_pct" = Some (PyFloat noise) -> args !! "n_trials" = None ->
   compute_false_negatives args σ = Raise (KeyError "n_trials")).
Proof.
  repeat split.
  - intros H. unfold compute_match_probability.
    by apply bind_Raise, int_arg_missing.
  - intros k Hk H. unfold compute_match_probability.
    run (int_arg_run _ _ _ σ Hk). by apply bind_Raise, int_arg_missing.
  - intros k n Hk Hn H. unfold compute_match_probability.
    run (int_arg_run _ _ _ σ Hk). run (int_arg_run _ _ _ σ Hn).
    by apply bind_Raise, int_arg_missing.
  - intros k n kw Hk Hn Hkw H. unfold compute_match_probability.
    run (int_arg_run _ _ _ σ Hk). run (int_arg_run _ _ _ σ Hn).
    run (int_arg_run _ _ _ σ Hkw). by apply bind_Raise, float_arg_missing.
  - intros k n kw theta Hk Hn Hkw Hth H. unfold compute_match_probability.
    run (int_arg_run _ _ _ σ Hk). run (int_arg_run _ _ _ σ Hn).
    run (int_arg_run _ _ _ σ Hkw). run (float_arg_run _ _ _ σ Hth).
    cbv zeta. by apply bind_Raise, int_arg_missing.
  - intros k n kw theta z Hk Hn Hkw Hth Hz Hz1 H.
    unfold compute_match_probability.
    run (int_arg_run _ _ _ σ Hk). run (int_arg_run _ _ _ σ Hn).
    run (int_arg_run _ _ _ σ Hkw). run (float_arg_run _ _ _ σ Hth).
    cbv zeta. run (int_arg_run _ _ _ σ Hz).
    apply bind_Raise. unfold accumulate.
    destruct (Z.to_nat z) as [|m] eqn:Hm; [lia|].
    cbn [seq foldM]. do 3 apply bind_Raise.
    by apply float_arg_missing.
  - intros H. unfold compute_false_negatives.
    by apply bind_Raise, int_arg_missing.
  - intros n Hn H. unfold compute_false_negatives.
    run (int_arg_run _ _ _ σ Hn). by apply bind_Raise, int_arg_missing.
  - intros n kw Hn Hkw H. unfold compute_false_negatives.
    run (int_arg_run _ _ _ σ Hn). run (int_arg_run _ _ _ σ Hkw).
    by apply bind_Raise, float_arg_missing.
  - intros n kw noise Hn Hkw Hnoise H. unfold compute_false_negatives.
    run (int_arg_run _ _ _ σ Hn). run (int_arg_run _ _ _ σ Hkw).
    run (float_arg_run _ _ _ σ Hnoise).
    by apply bind_Raise, int_arg_missing.
Qed.

(** ** The parallel driver *)

Lemma run_settings_pool_world (f : dict -> M dict) W args σ rs σ' :
  1 < W -> run_settings f W args σ = OK (rs, σ') -> σ' = σ.
Proof.
  intros HW. unfold run_settings.
  rewrite (proj2 (Nat.ltb_lt _ _) HW). unfold pool_map_async.
  destruct (pool_run f W 0 args (replicate W σ)); [|done].
  by intros [= _ <-].
Qed.

(** X12: whatever the number of workers and the schedule, a completed
    [compute_match_probability_parallel] returns one record per
    setting, in the order of the settings, each being its setting with
    the key ["pct_matches"] added, holding a number in [[0, 1]].  With
    more than one worker the caller's tensors and random streams are
    where they were before the call. *)
Theorem compute_match_probability_parallel_results args num_workers σ
    result σ' :
  valid_perms ->
  Forall (fun a => exists k n kw theta z s,
            match_settings a k n kw theta z s /\ (k = -1 \/ 0 <= k)%Z) args ->
  compute_match_probability_parallel args num_workers σ = OK (result, σ') ->
  length result = length args /\
  Forall2 (fun a r => exists v,
             r = <["pct_matches" := PyFloat (Fin v)]> a /\
             (0 <= v)%Q /\ (v <= 1)%Q) args result /\
  (1 < num_workers -> σ' = σ).
Proof.
  intros Hp Hargs Hrun. unfold compute_match_probability_parallel in Hrun.
  pose proof (run_settings_OK_Forall2 compute_match_probability
                (fun a r => (exists k n kw theta z s,
                               match_settings a k n kw theta z s /\
                               (k = -1 \/ 0 <= k)%Z) ->
                            exists v,
                              r = <["pct_matches" := PyFloat (Fin v)]> a /\
                              (0 <= v)%Q /\ (v <= 1)%Q)
                num_workers args σ result σ') as Hall.
  assert (Hres : Forall2 (fun a r => (exists k n kw theta z s,
                               match_settings a k n kw theta z s /\
                               (k = -1 \/ 0 <= k)%Z) ->
                            exists v,
                              r = <["pct_matches" := PyFloat (Fin v)]> a /\
                              (0 <= v)%Q /\ (v <= 1)%Q) args result).
  { apply Hall; [|done].
    intros a σa b σb Hb (k & n & kw & theta & z & s & Hset & Hk).
    by eapply compute_match_probability_rate. }
  split; [symmetry; by eapply Forall2_length|]. split.
  - apply Forall2_same_length_lookup. split; [by eapply Forall2_length|].
    intros i a r Ha Hr.
    apply (Forall2_lookup_lr _ _ _ _ _ _ Hres Ha Hr).
    by apply (Forall_lookup_1 _ _ _ _ Hargs Ha).
  - intros HW. by eapply run_settings_pool_world.
Qed.

Lemma pool_run_distinct (f : dict -> M dict) W σ : forall args t workers rs,
  (forall i j, i < j < length args ->
     schedule (t + i) mod W <> schedule (t + j) mod W) ->
  (forall i, i < length args ->
     workers !! (schedule (t + i) mod W) = Some σ) ->
  pool_run f W t args workers = OK rs ->
  Forall2 (fun a r => exists σa, f a σ = OK (r, σa)) args rs.
Proof.
  induction args as [|a args IH]; intros t workers rs Hdist Hw Hrun.
  - inversion Hrun. constructor.
  - cbn [pool_run] in Hrun.
    pose proof (Hw 0 ltac:(simpl; lia)) as Hw0.
    rewrite Nat.add_0_r in Hw0. rewrite Hw0 in Hrun.
    destruct (f a σ) as [[r σa]|e] eqn:Hf; [|done].
    destruct (pool_run f W (S t) args _) as [rs'|e] eqn:Hrs; [|done].
    inversion Hrun; subst rs. constructor; [by exists σa|].
    eapply IH; [| |exact Hrs].
    + intros i j Hij. rewrite !Nat.add_succ_l, <- !Nat.add_succ_r.
      apply Hdist. simpl. lia.
    + intros i Hi. rewrite list_lookup_insert_ne.
      * rewrite Nat.add_succ_l, <- Nat.add_succ_r. apply Hw. simpl. lia.
      * pose proof (Hdist 0 (S i) ltac:(simpl; lia)) as Hne.
        rewrite Nat.add_0_r, Nat.add_succ_r, <- Nat.add_succ_l in Hne.
        exact Hne.
Qed.

(** X13: when the schedule gives every task a worker of its own, every
    task of a pool run starts from the caller's world, random streams
    included: its result is the one the worker function computes from
    that world, so two tasks with the same settings return the same
    record. *)
Theorem pool_tasks_share_random_state (f : dict -> M dict) num_workers
    args σ rs σ' :
  1 < num_workers ->
  (forall i j, i < j < length args ->
     schedule i mod num_workers <> schedule j mod num_workers) ->
  run_settings f num_workers args σ = OK (rs, σ') ->
  Forall2 (fun a r => exists σa, f a σ = OK (r, σa)) args rs /\
  (forall i j a, args !! i = Some a -> args !! j = Some a ->
                 rs !! i = rs !! j).
Proof.
  intros HW Hdist Hrun.
  pose proof (run_settings_pool_world _ _ _ _ _ _ HW Hrun) as ->.
  assert (Hall : Forall2 (fun a r => exists σa, f a σ = OK (r, σa)) args rs).
  { unfold run_settings in Hrun.
    rewrite (proj2 (Nat.ltb_lt _ _) HW) in Hrun. unfold pool_map_async in Hrun.
    destruct (pool_run f num_workers 0 args _) as [rs'|e] eqn:Hrs; [|done].
    injection Hrun as ->.
    eapply (pool_run_distinct f num_workers σ args 0); [done| |exact Hrs].
    intros i _. apply lookup_replicate. split; [done|].
    apply Nat.mod_upper_bound. lia. }
  split; [exact Hall|].
  intros i j a Hi Hj.
  destruct (Forall2_lookup_l _ _ _ _ _ Hall Hi) as (ri & Hri & σi & Hfi).
  destruct (Forall2_lookup_l _ _ _ _ _ Hall Hj) as (rj & Hrj & σj & Hfj).
  rewrite Hri, Hrj. congruence.
Qed.

(** ** The Omega estimator *)

Lemma py_div_nonzero a k σ :
  Qeq_bool k 0 = false -> py_div a k σ = OK ((a / k)%Q, σ).
Proof. intros Hk. unfold py_div. by rewrite Hk. Qed.

(** One round of the loop, up to the division by [n_trials ** 2]. *)
Lemma omega_round k theta n b (op : list Q) σ :
  Qeq_bool k 0 = false ->
  let xwb := map (drawn_row (- (1 / k))%Q (1 / k)%Q (torch_pos σ) b)
                 (seq 0 n) in
  let xib := map (drawn_row 0%Q (2 / k)%Q (torch_pos σ + n * b) b)
                 (seq 0 n) in
  let d := map (fun x => map (fun y => dot x y) xib) xwb in
  exists σ3,
    torch_pos σ3 = torch_pos σ + 2 * n * b /\
    np_pos σ3 = np_pos σ /\
    (r <- py_div 1 k ;;
     xwb <- get_sparse_tensor b b n false r ;;
     r2 <- py_div 2 k ;;
     xib <- get_sparse_tensor b b n true r2 ;;
     d <- matmul_t xwb xib ;;
     num_matches <- tensor_count_ge d theta ;;
     v <- py_div (Qnat num_matches) (Qnat (n * n)) ;;
     array_set op b v) σ =
    (v <- py_div (Qnat (count_ge d theta)) (Qnat (n * n)) ;;
     array_set op b v) σ3.
Proof.
  intros Hk xwb xib d.
  run (py_div_nonzero 1 k σ Hk).
  run (get_sparse_tensor_dense b b n false (1 / k)%Q σ (Nat.le_refl b)).
  fold xwb.
  set (σ1 := mkWorld (<[fresh (dom (heap σ)) := xwb]> (heap σ))
                     (torch_pos σ + n * b) (np_pos σ)).
  run (py_div_nonzero 2 k σ1 Hk).
  run (get_sparse_tensor_dense b b n true (2 / k)%Q σ1 (Nat.le_refl b)).
  change (torch_pos σ1) with (torch_pos σ + n * b). fold xib.
  set (σ2 := mkWorld (<[fresh (dom (heap σ1)) := xib]> (heap σ1))
                     (torch_pos σ1 + n * b) (np_pos σ1)).
  assert (Hw1 : heap σ1 !! fresh (dom (heap σ)) = Some xwb)
    by apply lookup_insert_eq.
  assert (Hw : heap σ2 !! fresh (dom (heap σ)) = Some xwb).
  { unfold σ2. cbn [heap]. rewrite lookup_insert_ne; [done|].
    by eapply fresh_ne_allocated. }
  assert (Hi : heap σ2 !! fresh (dom (heap σ1)) = Some xib)
    by apply lookup_insert_eq.
  run (matmul_t_run _ _ _ _ σ2 Hw Hi). fold d.
  set (σ3 := mkWorld (<[fresh (dom (heap σ2)) := d]> (heap σ2))
                     (torch_pos σ2) (np_pos σ2)).
  run (tensor_count_ge_run _ d theta σ3 ltac:(apply lookup_insert_eq)).
  exists σ3. split; [|split; [done|done]].
  unfold σ3, σ2, σ1. cbn [torch_pos]. lia.
Qed.

Lemma omega_entry_bounds k theta n pos b :
  1 <= n ->
  (0 <= omega_entry k theta n pos b)%Q /\ (omega_entry k theta n pos b <= 1)%Q.
Proof.
  intros Hn. unfold omega_entry. apply fraction_bounds; [|nia].
  rewrite count_ge_pairs.
  etransitivity; [apply filter_length_le|].
  by rewrite length_prod, !length_map, !length_seq.
Qed.

Lemma omega_loop k theta n :
  Qeq_bool k 0 = false -> 1 <= n ->
  forall cnt done σ,
  exists σ',
    foldM (fun omega_prob b =>
             r <- py_div 1 k ;;
             xwb <- get_sparse_tensor b b n false r ;;
             r2 <- py_div 2 k ;;
             xib <- get_sparse_tensor b b n true r2 ;;
             d <- matmul_t xwb xib ;;
             num_matches <- tensor_count_ge d theta ;;
             v <- py_div (Qnat num_matches) (Qnat (n * n)) ;;
             array_set omega_prob b v)
          (done ++ replicate cnt 0%Q) (seq (length done) cnt) σ =
    OK (done ++ omega_entries k theta n (torch_pos σ) (seq (length done) cnt),
        σ') /\
    torch_pos σ' = torch_pos σ + 2 * n * list_sum (seq (length done) cnt) /\
    np_pos σ' = np_pos σ.
Proof.
  intros Hk Hn. induction cnt as [|cnt IH]; intros done σ.
  - exists σ. cbn [seq foldM replicate omega_entries list_sum foldr].
    split; [done|]. split; [lia|done].
  - cbn [replicate].
    destruct (omega_round k theta n (length done)
                (done ++ 0%Q :: replicate cnt 0%Q) σ Hk)
      as (σ3 & Htp & Hnp & Hround).
    cbv zeta in Hround.
    fold (omega_entry k theta n (torch_pos σ) (length done)) in Hround.
    set (v := omega_entry k theta n (torch_pos σ) (length done)) in *.
    assert (Hstep :
      (v0 <- py_div (Qnat (count_ge
                 (map (fun x => map (fun y => dot x y)
                    (map (drawn_row 0%Q (2 / k)%Q
                            (torch_pos σ + n * length done) (length done))
                         (seq 0 n)))
                    (map (drawn_row (- (1 / k))%Q (1 / k)%Q (torch_pos σ)
                            (length done)) (seq 0 n))) theta))
                (Qnat (n * n)) ;;
       array_set (done ++ 0%Q :: replicate cnt 0%Q) (length done) v0) σ3
      = OK ((done ++ [v]) ++ replicate cnt 0%Q, σ3)).
    { run (py_div_run (Qnat (count_ge
                 (map (fun x => map (fun y => dot x y)
                    (map (drawn_row 0%Q (2 / k)%Q
                            (torch_pos σ + n * length done) (length done))
                         (seq 0 n)))
                    (map (drawn_row (- (1 / k))%Q (1 / k)%Q (torch_pos σ)
                            (length done)) (seq 0 n))) theta))
             (n * n) σ3 ltac:(nia)).
      unfold array_set. rewrite decide_True by (rewrite length_app; simpl; lia).
      unfold ret. do 2 f_equal.
      rewrite insert_app_r_alt by lia. rewrite Nat.sub_diag.
      cbn [insert list_insert]. by rewrite <- app_assoc. }
    destruct (IH (done ++ [v]) σ3) as (σ' & Hloop & Htp' & Hnp').
    rewrite length_app in Hloop, Htp'. cbn [length] in Hloop, Htp'.
    rewrite Nat.add_1_r in Hloop, Htp'.
    exists σ'. split; [|split].
    + cbn [seq foldM omega_entries]. unfold bind at 1. cbv beta.
      rewrite Hround, Hstep, Hloop.
      rewrite <- app_assoc. cbn [app]. fold v. by rewrite Htp.
    + rewrite Htp', Htp. cbn [list_sum foldr map]. simpl. lia.
    + by rewrite Hnp', Hnp.
Qed.

Lemma sum_seq_1 b : 2 * list_sum (seq 1 b) = b * (b + 1).
Proof.
  induction b as [|b IH]; [done|].
  rewrite seq_S, list_sum_app. cbn [list_sum foldr]. nia.
Qed.

Lemma length_omega_entries k theta n pos bs :
  length (omega_entries k theta n pos bs) = length bs.
Proof.
  revert pos. induction bs as [|b bs IH]; intros pos; [done|].
  cbn [omega_entries length]. by rewrite IH.
Qed.

Lemma omega_entries_bounds k theta n pos bs :
  1 <= n ->
  Forall (fun v => (0 <= v)%Q /\ (v <= 1)%Q) (omega_entries k theta n pos bs).
Proof.
  intros Hn. revert pos. induction bs as [|b bs IH]; intros pos; [constructor|].
  cbn [omega_entries]. constructor; [by apply omega_entry_bounds|apply IH].
Qed.

(** X14: for [k > 0] and at least one trial, the Omega estimator
    returns an array of [b_max + 1] numbers in [[0, 1]]: entry 0 is
    never written and stays 0, and entry [b] is the fraction of the
    [n_trials ** 2] pairs of a weight row and an input row of [b] dense
    entries whose dot product reaches [theta], round [b] drawing its
    [2 * n_trials * b] numbers where round [b - 1] stopped.  No
    permutation is drawn. *)
Theorem compute_match_probability_omega_entries k b_max theta n_trials σ :
  (0 < k)%Q -> 1 <= n_trials ->
  exists omega_prob σ',
    compute_match_probability_omega k b_max theta n_trials σ
      = OK (omega_prob, σ') /\
    omega_prob =
      0%Q :: omega_entries k theta n_trials (torch_pos σ) (seq 1 b_max) /\
    length omega_prob = b_max + 1 /\
    Forall (fun v => (0 <= v)%Q /\ (v <= 1)%Q) omega_prob /\
    torch_pos σ' = torch_pos σ + n_trials * (b_max * (b_max + 1)) /\
    np_pos σ' = np_pos σ.
Proof.
  intros Hk Hn.
  assert (Hk0 : Qeq_bool k 0 = false).
  { apply not_true_iff_false. intros Heq. apply Qeq_bool_iff in Heq.
    rewrite Heq in Hk. lra. }
  destruct (omega_loop k theta n_trials Hk0 Hn b_max [0%Q] σ)
    as (σ' & Hloop & Htp & Hnp).
  cbn [length app] in Hloop, Htp.
  eexists _, σ'. split; [|split; [reflexivity|split; [|split; [|split]]]].
  - unfold compute_match_probability_omega.
    rewrite Nat.add_1_r. exact Hloop.
  - cbn [length]. rewrite length_omega_entries, length_seq. lia.
  - constructor; [split; lra|]. by apply omega_entries_bounds.
  - rewrite Htp. pose proof (sum_seq_1 b_max). nia.
  - exact Hnp.
Qed.

(** X15: the edges of the Omega estimator.  With [b_max = 0] it
    returns the one-entry array [[0]] and draws nothing, whatever [k]
    and [n_trials] are; with [b_max >= 1] it raises
    [ZeroDivisionError] when [k] is 0 (at [1.0 / k]) and when there is
    no trial (at the division by [n_trials ** 2]). *)
Theorem compute_match_probability_omega_edges k theta n_trials b_max σ :
  compute_match_probability_omega k 0 theta n_trials σ = OK ([0%Q], σ) /\
  (1 <= b_max -> (k == 0)%Q ->
   compute_match_probability_omega k b_max theta n_trials σ
     = Raise ZeroDivisionError) /\
  (1 <= b_max -> (0 < k)%Q ->
   compute_match_probability_omega k b_max theta 0 σ
     = Raise ZeroDivisionError).
Proof.
  split; [done|]. split.
  - intros Hb Hk. unfold compute_match_probability_omega.
    destruct b_max as [|b]; [lia|]. cbn [seq foldM].
    apply bind_Raise, bind_Raise. unfold py_div.
    by rewrite (proj2 (Qeq_bool_iff k 0) Hk).
  - intros Hb Hk. unfold compute_match_probability_omega.
    assert (Hk0 : Qeq_bool k 0 = false).
    { apply not_true_iff_false. intros Heq. apply Qeq_bool_iff in Heq.
      rewrite Heq in Hk. lra. }
    destruct b_max as [|b]; [lia|]. cbn [seq foldM].
    apply bind_Raise.
    destruct (omega_round k theta 0 1 (replicate (S b + 1) 0%Q) σ Hk0)
      as (σ3 & _ & _ & Hround).
    cbv zeta in Hround. rewrite Hround. by apply bind_Raise.
Qed.

(** ** What the plotting functions read and draw *)

Lemma array2_row_run (a : list (list Q)) i row σ :
  a !! i = Some row -> array2_row a i σ = OK (row, σ).
Proof. intros H. unfold array2_row. by rewrite H. Qed.

Lemma array2_row_raises (a : list (list Q)) i σ :
  length a <= i -> array2_row a i σ = Raise IndexError.
Proof. intros H. unfold array2_row. by rewrite lookup_ge_None_2. Qed.

Lemma seq_get_run (l : list Q) i x σ :
  l !! i = Some x -> seq_get l i σ = OK (x, σ).
Proof. intros H. unfold seq_get. by rewrite H. Qed.

Lemma seq_get_raises (l : list Q) i σ :
  length l <= i -> seq_get l i σ = Raise IndexError.
Proof. intros H. unfold seq_get. by rewrite lookup_ge_None_2. Qed.

Lemma array2_get_run (a : list (list Q)) i j row x σ :
  a !! i = Some row -> row !! j = Some x -> array2_get a i j σ = OK (x, σ).
Proof.
  intros Hi Hj. unfold array2_get.
  run (array2_row_run _ _ _ σ Hi). by apply seq_get_run.
Qed.

Lemma array2_get_raises (a : list (list Q)) i j row σ :
  a !! i = Some row -> length row <= j ->
  array2_get a i j σ = Raise IndexError.
Proof.
  intros Hi Hj. unfold array2_get.
  run (array2_row_run _ _ _ σ Hi). by apply seq_get_raises.
Qed.

Lemma ax_plot_run ax (x y : list Q) label σ :
  length x = length y ->
  ax_plot ax x y label σ = OK (add_artist ax (Line2D x y label), σ).
Proof. intros H. unfold ax_plot. by rewrite decide_True. Qed.

Lemma ax_plot_raises ax (x y : list Q) label σ :
  length x <> length y -> ax_plot ax x y label σ = Raise ValueError.
Proof. intros H. unfold ax_plot. by rewrite decide_False. Qed.

Lemma shape_cell (a : list (list Q)) rows cols i j :
  shape a rows cols -> i < rows -> j < cols ->
  exists row x, a !! i = Some row /\ length row = cols /\ row !! j = Some x.
Proof.
  intros Hs Hi Hj. destruct (shape_lookup _ _ _ i Hs Hi) as (row & Hrow & Hlen).
  destruct (lookup_lt_is_Some_2 row j) as [x Hx]; [lia|]. eauto.
Qed.

(** Projections of the axes after each drawing step. *)
Lemma axes_eq (ax ax' : Axes) :
  xlabel ax = xlabel ax' -> ylabel ax = ylabel ax' ->
  yscale ax = yscale ax' -> artists ax = artists ax' -> ax = ax'.
Proof. destruct ax, ax'. simpl. by intros -> -> -> ->. Qed.

Lemma xlabel_add_artist ax a : xlabel (add_artist ax a) = xlabel ax.
Proof. done. Qed.
Lemma ylabel_add_artist ax a : ylabel (add_artist ax a) = ylabel ax.
Proof. done. Qed.
Lemma yscale_add_artist ax a : yscale (add_artist ax a) = yscale ax.
Proof. done. Qed.
Lemma artists_add_artist ax a : artists (add_artist ax a) = artists ax ++ [a].
Proof. done. Qed.
Lemma xlabel_set_yscale ax s : xlabel (set_yscale ax s) = xlabel ax.
Proof. done. Qed.
Lemma ylabel_set_yscale ax s : ylabel (set_yscale ax s) = ylabel ax.
Proof. done. Qed.
Lemma yscale_set_yscale ax s : yscale (set_yscale ax s) = s.
Proof. done. Qed.
Lemma artists_set_yscale ax s : artists (set_yscale ax s) = artists ax.
Proof. done. Qed.
Lemma xlabel_set_ylabel ax s : xlabel (set_ylabel ax s) = xlabel ax.
Proof. done. Qed.
Lemma ylabel_set_ylabel ax s : ylabel (set_ylabel ax s) = s.
Proof. done. Qed.
Lemma artists_set_ylabel ax s : artists (set_ylabel ax s) = artists ax.
Proof. done. Qed.
Lemma xlabel_set_xlabel ax s : xlabel (set_xlabel ax s) = s.
Proof. done. Qed.
Lemma artists_set_xlabel ax s : artists (set_xlabel ax s) = artists ax.
Proof. done. Qed.

Create Rewrite HintDb axes.
#[local] Hint Rewrite xlabel_add_artist ylabel_add_artist yscale_add_artist
  artists_add_artist xlabel_set_yscale ylabel_set_yscale yscale_set_yscale
  artists_set_yscale xlabel_set_ylabel ylabel_set_ylabel artists_set_ylabel
  xlabel_set_xlabel artists_set_xlabel : axes.

Ltac axes_eq :=
  unfold ret, ax_annotate; do 2 f_equal; apply axes_eq;
  autorewrite with axes; cbn [xlabel ylabel yscale artists];
  rewrite <- ?app_assoc; reflexivity.

(** The plotting functions read the first rows of [errors] only. *)
Lemma plot_matches_take xs errors ax σ :
  plot_matches xs errors ax σ = plot_matches xs (take 4 errors) ax σ.
Proof. by destruct errors as [|r0 [|r1 [|r2 [|r3 rest]]]]. Qed.

Lemma plot_scaled_matches_take xs errors ax σ :
  plot_scaled_matches xs errors ax σ
  = plot_scaled_matches xs (take 3 errors) ax σ.
Proof. by destruct errors as [|r0 [|r1 [|r2 rest]]]. Qed.

Lemma plot_matches_run xs errors R C ax σ :
  shape errors R C -> length xs = C -> 4 <= R -> 4 <= C ->
  exists r0 r1 r2 r3 x e0 e1 e2 e3,
    take 4 errors = [r0; r1; r2; r3] /\
    xs !! 3 = Some x /\
    r0 !! 3 = Some e0 /\ r1 !! 3 = Some e1 /\
    r2 !! 3 = Some e2 /\ r3 !! 3 = Some e3 /\
    plot_matches xs errors ax σ =
    OK (mkAxes "Dimensionality (n)" "Frequency of matches" "log"
          (artists ax ++
           [Line2D xs r0 "a=64 (predicted)";
            Line2D xs r1 "a=128 (predicted)";
            Line2D xs r2 "a=256 (predicted)";
            Line2D xs r3 "a=n/2 (predicted)";
            Annotation "$a = 64$" (x + 100) e0;
            Annotation "$a = 128$" (x + 100) e1;
            Annotation "$a = 256$" (x + 100) e2;
            Annotation "$a = \frac{n}{2}$" (x + 100) (e3 / 2)]), σ).
Proof.
  intros Hs Hxs HR HC.
  destruct (shape_cell _ _ _ 0 3 Hs) as (r0 & e0 & H0 & Hl0 & He0); [lia..|].
  destruct (shape_cell _ _ _ 1 3 Hs) as (r1 & e1 & H1 & Hl1 & He1); [lia..|].
  destruct (shape_cell _ _ _ 2 3 Hs) as (r2 & e2 & H2 & Hl2 & He2); [lia..|].
  destruct (shape_cell _ _ _ 3 3 Hs) as (r3 & e3 & H3 & Hl3 & He3); [lia..|].
  destruct (lookup_lt_is_Some_2 xs 3) as [x Hx]; [lia|].
  exists r0, r1, r2, r3, x, e0, e1, e2, e3.
  split.
  { clear Hs. destruct errors as [|? [|? [|? [|? rest]]]]; by simplify_eq/=. }
  do 5 (split; [done|]).
  unfold plot_matches. cbv zeta.
  run (array2_row_run _ _ _ σ H0). run (ax_plot_run _ xs r0 _ σ ltac:(lia)).
  run (array2_row_run _ _ _ σ H1). run (ax_plot_run _ xs r1 _ σ ltac:(lia)).
  run (array2_row_run _ _ _ σ H2). run (ax_plot_run _ xs r2 _ σ ltac:(lia)).
  run (array2_row_run _ _ _ σ H3). run (ax_plot_run _ xs r3 _ σ ltac:(lia)).
  run (seq_get_run _ _ _ σ Hx). run (array2_get_run _ _ _ _ _ σ H0 He0).
  run (seq_get_run _ _ _ σ Hx). run (array2_get_run _ _ _ _ _ σ H1 He1).
  run (seq_get_run _ _ _ σ Hx). run (array2_get_run _ _ _ _ _ σ H2 He2).
  run (seq_get_run _ _ _ σ Hx). run (array2_get_run _ _ _ _ _ σ H3 He3).
  axes_eq.
Qed.

Lemma plot_matches_IndexError xs errors R C ax σ :
  shape errors R C -> length xs = C -> R < 4 \/ C < 4 ->
  plot_matches xs errors ax σ = Raise IndexError.
Proof.
  intros Hs Hxs Hsmall. pose proof Hs as [HR Hall].
  unfold plot_matches. cbv zeta.
  destruct (decide (R = 0)) as [->|HR0].
  { apply bind_Raise, array2_row_raises. lia. }
  destruct (shape_lookup _ _ _ 0 Hs) as (r0 & H0 & Hl0); [lia|].
  run (array2_row_run _ _ _ σ H0). run (ax_plot_run _ xs r0 _ σ ltac:(lia)).
  destruct (decide (R = 1)) as [->|HR1].
  { apply bind_Raise, array2_row_raises. lia. }
  destruct (shape_lookup _ _ _ 1 Hs) as (r1 & H1 & Hl1); [lia|].
  run (array2_row_run _ _ _ σ H1). run (ax_plot_run _ xs r1 _ σ ltac:(lia)).
  destruct (decide (R = 2)) as [->|HR2].
  { apply bind_Raise, array2_row_raises. lia. }
  destruct (shape_lookup _ _ _ 2 Hs) as (r2 & H2 & Hl2); [lia|].
  run (array2_row_run _ _ _ σ H2). run (ax_plot_run _ xs r2 _ σ ltac:(lia)).
  destruct (decide (R = 3)) as [->|HR3].
  { apply bind_Raise, array2_row_raises. lia. }
  destruct (shape_lookup _ _ _ 3 Hs) as (r3 & H3 & Hl3); [lia|].
  run (array2_row_run _ _ _ σ H3). run (ax_plot_run _ xs r3 _ σ ltac:(lia)).
  apply bind_Raise, seq_get_raises. lia.
Qed.

Lemma plot_matches_ValueError xs errors R C ax σ :
  shape errors R C -> length xs <> C -> 1 <= R ->
  plot_matches xs errors ax σ = Raise ValueError.
Proof.
  intros Hs Hxs HR. unfold plot_matches. cbv zeta.
  destruct (shape_lookup _ _ _ 0 Hs) as (r0 & H0 & Hl0); [lia|].
  run (array2_row_run _ _ _ σ H0). apply bind_Raise, ax_plot_raises. lia.
Qed.

(** X16: [plot_matches] draws exactly the first four rows of [errors]
    against [listof_n_values] and places its four labels at the fourth
    value, whatever the number of rows: further rows are never read.
    It therefore needs at least four rows and four columns.  On an
    array of another shape it raises [IndexError], or [ValueError] when
    the number of columns is not the number of values. *)
Theorem plot_matches_requirements xs errors R C ax σ :
  shape errors R C ->
  (length xs = C -> 4 <= R -> 4 <= C ->
   exists r0 r1 r2 r3 x e0 e1 e2 e3,
     take 4 errors = [r0; r1; r2; r3] /\
     xs !! 3 = Some x /\
     r0 !! 3 = Some e0 /\ r1 !! 3 = Some e1 /\
     r2 !! 3 = Some e2 /\ r3 !! 3 = Some e3 /\
     plot_matches xs errors ax σ =
     OK (mkAxes "Dimensionality (n)" "Frequency of matches" "log"
           (artists ax ++
            [Line2D xs r0 "a=64 (predicted)";
             Line2D xs r1 "a=128 (predicted)";
             Line2D xs r2 "a=256 (predicted)";
             Line2D xs r3 "a=n/2 (predicted)";
             Annotation "$a = 64$" (x + 100) e0;
             Annotation "$a = 128$" (x + 100) e1;
             Annotation "$a = 256$" (x + 100) e2;
             Annotation "$a = \frac{n}{2}$" (x + 100) (e3 / 2)]), σ)) /\
  (length xs = C -> R < 4 \/ C < 4 ->
   plot_matches xs errors ax σ = Raise IndexError) /\
  (length xs <> C -> 1 <= R ->
   plot_matches xs errors ax σ = Raise ValueError) /\
  plot_matches xs errors ax σ = plot_matches xs (take 4 errors) ax σ.
Proof.
  intros Hs. split; [|split; [|split]].
  - by apply plot_matches_run.
  - by apply plot_matches_IndexError.
  - by apply plot_matches_ValueError.
  - apply plot_matches_take.
Qed.

Lemma plot_scaled_matches_run xs errors R C ax σ :
  shape errors R C -> length xs = C -> 3 <= R -> 3 <= C ->
  exists r0 r1 r2 x e01 e11 e12 e21 e22,
    take 3 errors = [r0; r1; r2] /\
    xs !! 1 = Some x /\
    r0 !! 1 = Some e01 /\ r1 !! 1 = Some e11 /\ r1 !! 2 = Some e12 /\
    r2 !! 1 = Some e21 /\ r2 !! 2 = Some e22 /\
    plot_scaled_matches xs errors ax σ =
    OK (mkAxes "Scale factor (s)" "Frequency of matches" "log"
          (artists ax ++
           [Line2D xs r0 "a=64 (predicted)";
            Line2D xs r1 "a=128 (predicted)";
            Line2D xs r2 "a=128 (predicted)";
            Annotation "$a=64$" (x + (2 # 10)) e01;
            Annotation "$a=128$" (x - (1 # 10)) ((2 * e11 + e12) / 3);
            Annotation "$a=256$" (x - (1 # 10)) ((e21 + e22) / 2)]), σ).
Proof.
  intros Hs Hxs HR HC.
  destruct (shape_cell _ _ _ 0 1 Hs) as (r0 & e01 & H0 & Hl0 & He01); [lia..|].
  destruct (shape_cell _ _ _ 1 1 Hs) as (r1 & e11 & H1 & Hl1 & He11); [lia..|].
  destruct (shape_cell _ _ _ 2 1 Hs) as (r2 & e21 & H2 & Hl2 & He21); [lia..|].
  destruct (lookup_lt_is_Some_2 r1 2) as [e12 He12]; [lia|].
  destruct (lookup_lt_is_Some_2 r2 2) as [e22 He22]; [lia|].
  destruct (lookup_lt_is_Some_2 xs 1) as [x Hx]; [lia|].
  exists r0, r1, r2, x, e01, e11, e12, e21, e22.
  split.
  { clear Hs. destruct errors as [|? [|? [|? rest]]]; by simplify_eq/=. }
  do 6 (split; [done|]).
  unfold plot_scaled_matches. cbv zeta.
  run (array2_row_run _ _ _ σ H0). run (ax_plot_run _ xs r0 _ σ ltac:(lia)).
  run (array2_row_run _ _ _ σ H1). run (ax_plot_run _ xs r1 _ σ ltac:(lia)).
  run (array2_row_run _ _ _ σ H2). run (ax_plot_run _ xs r2 _ σ ltac:(lia)).
  run (seq_get_run _ _ _ σ Hx). run (array2_get_run _ _ _ _ _ σ H0 He01).
  run (seq_get_run _ _ _ σ Hx). run (array2_get_run _ _ _ _ _ σ H1 He11).
  run (array2_get_run _ _ _ _ _ σ H1 He12).
  run (seq_get_run _ _ _ σ Hx). run (array2_get_run _ _ _ _ _ σ H2 He21).
  run (array2_get_run _ _ _ _ _ σ H2 He22).
  axes_eq.
Qed.

Lemma plot_scaled_matches_IndexError xs errors R C ax σ :
  shape errors R C -> length xs = C -> R < 3 \/ C < 3 ->
  plot_scaled_matches xs errors ax σ = Raise IndexError.
Proof.
  intros Hs Hxs Hsmall. pose proof Hs as [HR Hall].
  unfold plot_scaled_matches. cbv zeta.
  destruct (decide (R = 0)) as [->|HR0].
  { apply bind_Raise, array2_row_raises. lia. }
  destruct (shape_lookup _ _ _ 0 Hs) as (r0 & H0 & Hl0); [lia|].
  run (array2_row_run _ _ _ σ H0). run (ax_plot_run _ xs r0 _ σ ltac:(lia)).
  destruct (decide (R = 1)) as [->|HR1].
  { apply bind_Raise, array2_row_raises. lia. }
  destruct (shape_lookup _ _ _ 1 Hs) as (r1 & H1 & Hl1); [lia|].
  run (array2_row_run _ _ _ σ H1). run (ax_plot_run _ xs r1 _ σ ltac:(lia)).
  destruct (decide (R = 2)) as [->|HR2].
  { apply bind_Raise, array2_row_raises. lia. }
  destruct (shape_lookup _ _ _ 2 Hs) as (r2 & H2 & Hl2); [lia|].
  run (array2_row_run _ _ _ σ H2). run (ax_plot_run _ xs r2 _ σ ltac:(lia)).
  destruct (decide (C < 2)) as [HC2|HC2].
  { apply bind_Raise, seq_get_raises. lia. }
  destruct (lookup_lt_is_Some_2 xs 1) as [x Hx]; [lia|].
  destruct (lookup_lt_is_Some_2 r0 1) as [e01 He01]; [lia|].
  destruct (lookup_lt_is_Some_2 r1 1) as [e11 He11]; [lia|].
  run (seq_get_run _ _ _ σ Hx). run (array2_get_run _ _ _ _ _ σ H0 He01).
  run (seq_get_run _ _ _ σ Hx). run (array2_get_run _ _ _ _ _ σ H1 He11).
  apply bind_Raise. apply (array2_get_raises _ _ _ r1); [done|lia].
Qed.

Lemma plot_scaled_matches_ValueError xs errors R C ax σ :
  shape errors R C -> length xs <> C -> 1 <= R ->
  plot_scaled_matches xs errors ax σ = Raise ValueError.
Proof.
  intros Hs Hxs HR. unfold plot_scaled_matches. cbv zeta.
  destruct (shape_lookup _ _ _ 0 Hs) as (r0 & H0 & Hl0); [lia|].
  run (array2_row_run _ _ _ σ H0). apply bind_Raise, ax_plot_raises. lia.
Qed.

(** X17: [plot_scaled_matches] draws exactly the first three rows of
    [errors] against [list_of_scales], the third curve under the label
    of the second, and places its labels from the second and third
    columns; further rows are never read.  It needs at least three rows
    and three columns, and raises [IndexError] on a smaller array, or
    [ValueError] when the number of columns is not the number of
    scales. *)
Theorem plot_scaled_matches_requirements xs errors R C ax σ :
  shape errors R C ->
  (length xs = C -> 3 <= R -> 3 <= C ->
   exists r0 r1 r2 x e01 e11 e12 e21 e22,
     take 3 errors = [r0; r1; r2] /\
     xs !! 1 = Some x /\
     r0 !! 1 = Some e01 /\ r1 !! 1 = Some e11 /\ r1 !! 2 = Some e12 /\
     r2 !! 1 = Some e21 /\ r2 !! 2 = Some e22 /\
     plot_scaled_matches xs errors ax σ =
     OK (mkAxes "Scale factor (s)" "Frequency of matches" "log"
           (artists ax ++
            [Line2D xs r0 "a=64 (predicted)";
             Line2D xs r1 "a=128 (predicted)";
             Line2D xs r2 "a=128 (predicted)";
             Annotation "$a=64$" (x + (2 # 10)) e01;
             Annotation "$a=128$" (x - (1 # 10)) ((2 * e11 + e12) / 3);
             Annotation "$a=256$" (x - (1 # 10)) ((e21 + e22) / 2)]), σ)) /\
  (length xs = C -> R < 3 \/ C < 3 ->
   plot_scaled_matches xs errors ax σ = Raise IndexError) /\
  (length xs <> C -> 1 <= R ->
   plot_scaled_matches xs errors ax σ = Raise ValueError) /\
  plot_scaled_matches xs errors ax σ
  = plot_scaled_matches xs (take 3 errors) ax σ.
Proof.
  intros Hs. split; [|split; [|split]].
  - by apply plot_scaled_matches_run.
  - by apply plot_scaled_matches_IndexError.
  - by apply plot_scaled_matches_ValueError.
  - apply plot_scaled_matches_take.
Qed.

(** X21: [plot_matches2] draws the two plots one after the other, so
    that it needs both arrays to be large enough: at least 4 x 4 for
    the left panel and 3 x 3 for the right one.  It then leaves eight
    artists on the left axes and six on the right ones; otherwise it
    raises [IndexError] and nothing is saved. *)
Theorem plot_matches2_requirements ns errors R1 C1 scales scale_errors R2 C2
    σ :
  shape errors R1 C1 -> length ns = C1 ->
  shape scale_errors R2 C2 -> length scales = C2 ->
  (4 <= R1 -> 4 <= C1 -> 3 <= R2 -> 3 <= C2 ->
   exists ax1 ax2,
     plot_matches2 ns errors scales scale_errors σ = OK ((ax1, ax2), σ) /\
     plot_matches ns errors subplots σ = OK (ax1, σ) /\
     plot_scaled_matches scales scale_errors subplots σ = OK (ax2, σ) /\
     length (artists ax1) = 8 /\ length (artists ax2) = 6) /\
  (R1 < 4 \/ C1 < 4 \/ R2 < 3 \/ C2 < 3 ->
   plot_matches2 ns errors scales scale_errors σ = Raise IndexError).
Proof.
  intros Hs1 Hn Hs2 Hsc. split.
  - intros HR1 HC1 HR2 HC2.
    destruct (plot_matches_run ns errors _ _ subplots σ Hs1 Hn HR1 HC1)
      as (r0 & r1 & r2 & r3 & x & e0 & e1 & e2 & e3 & H).
    destruct H as (_ & _ & _ & _ & _ & _ & H1).
    destruct (plot_scaled_matches_run scales scale_errors _ _ subplots σ
                Hs2 Hsc HR2 HC2)
      as (q0 & q1 & q2 & y & e01 & e11 & e12 & e21 & e22 & H).
    destruct H as (_ & _ & _ & _ & _ & _ & _ & H2).
    eexists _, _.
    split; [|split; [exact H1|split; [exact H2|]]].
    2:{ split; reflexivity. }
    unfold plot_matches2. cbv zeta. run H1. by run H2.
  - intros Hsmall. unfold plot_matches2. cbv zeta.
    destruct (decide (R1 < 4 \/ C1 < 4)) as [H1|H1].
    + apply bind_Raise. by eapply plot_matches_IndexError.
    + destruct (plot_matches_run ns errors _ _ subplots σ Hs1 Hn)
        as (r0 & r1 & r2 & r3 & x & e0 & e1 & e2 & e3 & H); [lia..|].
      destruct H as (_ & _ & _ & _ & _ & _ & H).
      run H. apply bind_Raise.
      eapply plot_scaled_matches_IndexError; [done..|lia].
Qed.

(** ** The sweeps and their plots *)

Lemma py_index_inv len z σ i σ' :
  py_index len z σ = OK (i, σ') -> σ' = σ /\ i < len.
Proof.
  unfold py_index. destruct (0 <=? z)%Z eqn:Hz.
  - destruct (decide (Z.to_nat z < len)); [|done]. by intros [= <- <-].
  - destruct (- Z.of_nat len <=? z)%Z eqn:Hlo; [|done].
    intros [= <- <-]. split; [done|].
    apply Z.leb_gt in Hz. apply Z.leb_le in Hlo. lia.
Qed.

Lemma array2_set_int_shape (a : list (list Q)) zi zj v σ a' σ' rows cols :
  array2_set_int a zi zj v σ = OK (a', σ') ->
  shape a rows cols -> shape a' rows cols /\ σ' = σ.
Proof.
  unfold array2_set_int. intros H Hs.
  apply bind_inv in H as (i & σ1 & Hi & H).
  apply py_index_inv in Hi as [-> Hi].
  destruct (a !! i) as [row|] eqn:Hrow; [|done].
  apply bind_inv in H as (j & σ2 & Hj & H).
  apply py_index_inv in Hj as [-> Hj].
  unfold array_set in H. rewrite decide_True in H by done.
  unfold bind, ret in H. injection H as <- <-.
  split; [|done]. by eapply shape_insert.
Qed.

Lemma float_arg_pure (d : dict) key σ v σ' :
  float_arg d key σ = OK (v, σ') -> σ' = σ.
Proof.
  unfold float_arg, bind, getitem, ret, raise.
  destruct (d !! key) as [[z|f|l]|]; intros H; by inversion H.
Qed.

Lemma index_arg_pure (d : dict) key i σ z σ' :
  index_arg d key i σ = OK (z, σ') -> σ' = σ.
Proof.
  unfold index_arg, bind, getitem, ret, raise.
  destruct (d !! key) as [[z'|f|l]|]; try (intros H; by inversion H).
  destruct (l !! i); intros H; by inversion H.
Qed.

Lemma as_finite_pure f σ q σ' : as_finite f σ = OK (q, σ') -> σ' = σ.
Proof. unfold as_finite, ret, raise. destruct f; intros H; by inversion H. Qed.

Lemma scatter_matches_shape rows cols : forall result errors0 σ errors σ',
  scatter_matches errors0 result σ = OK (errors, σ') ->
  shape errors0 rows cols -> shape errors rows cols /\ σ' = σ.
Proof.
  unfold scatter_matches.
  induction result as [|r result IH]; intros errors0 σ errors σ' H Hs.
  - by injection H as <- <-.
  - cbn [foldM] in H.
    apply bind_inv in H as (errors1 & σ1 & Hstep & H).
    assert (Hs1 : shape errors1 rows cols /\ σ1 = σ).
    { clear H IH.
      apply bind_inv in Hstep as (v & σa & Hv & Hstep).
      apply bind_inv in Hstep as (i & σb & Hi & Hstep).
      apply bind_inv in Hstep as (j & σc & Hj & Hstep).
      apply bind_inv in Hstep as (v' & σd & Hv' & Hstep).
      apply float_arg_pure in Hv as ->.
      apply index_arg_pure in Hi as ->.
      apply index_arg_pure in Hj as ->.
      apply as_finite_pure in Hv' as ->.
      by eapply array2_set_int_shape. }
    destruct Hs1 as [Hs1 ->]. by eapply IH.
Qed.

(** The array handed to [plot_matches] has one row per [k] value and
    one column per [n] value. *)
Lemma compute_match_probabilities_shape ks ns s kw W nt σ errors σ' :
  compute_match_probabilities ks ns s kw W nt σ = OK (errors, σ') ->
  shape errors (length ks) (length ns).
Proof.
  unfold compute_match_probabilities. intros H.
  apply bind_inv in H as (th & σ1 & _ & H). cbv zeta in H.
  apply bind_inv in H as (result & σ2 & _ & H).
  eapply scatter_matches_shape; [exact H|].
  split; [apply length_replicate|].
  apply Forall_replicate, length_replicate.
Qed.

(** X18: [compute_match_probabilities] ends by handing its array and
    [listof_n_values] to [plot_matches] before it returns.  The array
    has one row per [k] value and one column per [n] value, so that
    call succeeds exactly when there are at least four [k] values and
    four [n] values; with fewer, the sweep raises [IndexError] after
    all its trials have run, and the array is lost. *)
Theorem match_sweep_plot ks ns s kw num_workers nt σ errors σ' ax :
  compute_match_probabilities ks ns s kw num_workers nt σ = OK (errors, σ') ->
  shape errors (length ks) (length ns) /\
  (4 <= length ks -> 4 <= length ns ->
   exists ax', plot_matches (map Qnat ns) errors ax σ' = OK (ax', σ')) /\
  (length ks < 4 \/ length ns < 4 ->
   plot_matches (map Qnat ns) errors ax σ' = Raise IndexError).
Proof.
  intros Hrun.
  pose proof (compute_match_probabilities_shape _ _ _ _ _ _ _ _ _ Hrun) as Hs.
  split; [done|]. split.
  - intros Hk Hn.
    destruct (plot_matches_run (map Qnat ns) errors _ _ ax σ' Hs)
      as (r0 & r1 & r2 & r3 & x & e0 & e1 & e2 & e3 & H);
      [apply length_map|done..|].
    destruct H as (_ & _ & _ & _ & _ & _ & H). eauto.
  - intros Hsmall.
    eapply plot_matches_IndexError; [exact Hs|apply length_map|done].
Qed.

(** The settings of the scale sweep, each tagged with its cell. *)
Lemma scaled_args_tagged scales ks kw n theta nt :
  exists tagged : list (nat * nat * dict),
    map snd tagged = scaled_args scales ks kw n theta nt /\
    map fst tagged =
      concat (map (fun ki => map (pair ki) (seq 0 (length scales)))
                  (seq 0 (length ks))) /\
    Forall (fun t => carries_index (snd t) (fst (fst t)) (snd (fst t)) /\
                     exists k s, k ∈ ks /\
                       match_settings (snd t) k n kw theta (Z.of_nat nt) s)
           tagged.
Proof.
  exists (concat (imap (fun ki k =>
            imap (fun si s =>
                    ((ki, si), match_record k kw n theta nt s ki si)) scales)
            ks)).
  unfold scaled_args. split; [|split].
  - rewrite concat_map. f_equal.
    etransitivity; [apply (fmap_imap _ (map (@snd (nat * nat) dict)))|].
    apply imap_ext. intros ki k _. simpl.
    etransitivity; [apply (fmap_imap _ (@snd (nat * nat) dict))|].
    by apply imap_ext.
  - rewrite concat_map. f_equal.
    etransitivity; [apply (fmap_imap _ (map (@fst (nat * nat) dict)))|].
    etransitivity;
      [|apply (imap_seq_0 ks (fun ki => map (pair ki) (seq 0 (length scales))))].
    apply imap_ext. intros ki k _. simpl.
    etransitivity; [apply (fmap_imap _ (@fst (nat * nat) dict))|].
    etransitivity; [|apply (imap_seq_0 scales (pair ki))].
    by apply imap_ext.
  - apply Forall_concat, Forall_forall. intros block Hblock.
    apply elem_of_lookup_imap in Hblock as (ki & k & -> & Hk).
    apply Forall_forall. intros t Ht.
    apply elem_of_lookup_imap in Ht as (si & s & -> & Hs).
    cbn [fst snd]. split; [apply match_record_index|].
    exists k, s. split; [by eapply list_elem_of_lookup_2|].
    apply match_record_settings.
Qed.

(** X19: the scale sweep.  Its workers complete for any number of
    workers and any schedule, and every setting's probability is
    scattered into the cell [(ki, si)] that the setting's own record
    names, in an array with one row per [k] value and one column per
    scale.  The sweep then plots the array before returning it: with
    at least three [k] values and three scales it returns the array,
    with fewer it raises [IndexError] in [plot_scaled_matches] and the
    array is lost. *)
Theorem scaled_sweep_scatters scales ks kw n num_workers nt σ :
  valid_perms -> 1 <= kw -> 1 <= nt ->
  Forall (fun k => k = -1 \/ 0 <= k)%Z ks ->
  exists theta dots σ1 result σ2 errors,
    get_theta kw default_theta_trials σ = OK ((theta, dots), σ1) /\
    compute_match_probability_parallel
      (scaled_args scales ks kw n theta nt) num_workers σ1 = OK (result, σ2) /\
    shape errors (length ks) (length scales) /\
    Forall2 (fun a r => exists ki si v,
               carries_index a ki si /\ r = match_result a v /\
               cell errors ki si = Some v)
            (scaled_args scales ks kw n theta nt) result /\
    (forall ki si, ki < length ks -> si < length scales ->
       exists a, a ∈ scaled_args scales ks kw n theta nt /\
                 carries_index a ki si) /\
    (3 <= length ks -> 3 <= length scales ->
     compute_scaled_probabilities scales ks kw n num_workers nt σ
       = OK (errors, σ2)) /\
    (length ks < 3 \/ length scales < 3 ->
     compute_scaled_probabilities scales ks kw n num_workers nt σ
       = Raise IndexError).
Proof.
  intros Hp Hk Hnt Hks.
  pose proof (get_theta_run kw default_theta_trials σ Hk) as Hth.
  cbv zeta in Hth.
  set (theta := pyfloat_half _) in Hth.
  set (dots := map (fun r => dot r r) _) in Hth.
  set (σ1 := mkWorld _ _ _) in Hth.
  destruct (scaled_args_tagged scales ks kw n theta nt)
    as (tagged & Hargs & Hidx & Htagged).
  set (args := scaled_args scales ks kw n theta nt) in *.
  destruct (run_settings_total compute_match_probability num_workers args)
    with (σ := σ1) as (result & σ2 & Hrun).
  { intros a Ha σa. rewrite <- Hargs in Ha.
    apply list_elem_of_fmap in Ha as (t & -> & Ht).
    rewrite Forall_forall in Htagged.
    destruct (Htagged t Ht) as (_ & k & s & Hin & Hset).
    rewrite Forall_forall in Hks.
    by eapply compute_match_probability_succeeds; [..|exact Hset|apply Hks]. }
  assert (Hres : Forall2 (fun (t : nat * nat * dict) r =>
             carries_index (snd t) (fst (fst t)) (snd (fst t)) /\
             exists v, r = match_result (snd t) v) tagged result).
  { apply (run_settings_OK_Forall2 _ (fun a r => exists v, r = match_result a v))
      in Hrun; [|intros a σa b σb; apply compute_match_probability_result].
    rewrite <- Hargs in Hrun. apply Forall2_fmap_l in Hrun.
    apply Forall2_same_length_lookup. split; [by eapply Forall2_length|].
    intros i t r Ht Hr. split.
    - rewrite Forall_forall in Htagged.
      by apply Htagged, list_elem_of_lookup_2 with i.
    - by eapply (Forall2_lookup_lr _ _ _ _ _ _ Hrun). }
  destruct (scatter_matches_run (length ks) (length scales) σ2 tagged result
              (replicate (length ks) (replicate (length scales) 0%Q)) Hres)
    as (errors & Hscatter & Hshape & Hcells & _).
  { rewrite Hidx. apply cells_NoDup. }
  { apply Forall_forall. intros [[ki si] a] Ht. cbn [fst snd].
    apply cells_elem. rewrite <- Hidx.
    apply list_elem_of_fmap. by exists (ki, si, a). }
  { split; [apply length_replicate|].
    apply Forall_replicate, length_replicate. }
  assert (Hsweep : forall (k : list (list Q) -> M (list (list Q))),
    (th <- get_theta kw default_theta_trials ;;
     result <- compute_match_probability_parallel
                 (scaled_args scales ks kw n (fst th) nt) num_workers ;;
     errors <- scatter_matches
                 (replicate (length ks) (replicate (length scales) 0%Q))
                 result ;;
     k errors) σ = k errors σ2).
  { intros k0. run Hth. cbn [fst]. run Hrun. by run Hscatter. }
  subst args.
  exists theta, dots, σ1, result, σ2, errors.
  split; [exact Hth|]. split; [exact Hrun|]. split; [done|].
  split; [|split; [|split]].
  - rewrite <- Hargs. apply Forall2_fmap_l.
    eapply Forall2_impl; [exact Hcells|].
    intros [[ki si] a] r (v & Hc & Hr & Hcell). cbn [fst snd] in *.
    by exists ki, si, v.
  - intros ki si Hki Hsi.
    assert (Hin : (ki, si) ∈ map fst tagged).
    { rewrite Hidx. by apply cells_elem. }
    apply list_elem_of_fmap in Hin as ([[ki' si'] a] & Heq & Ht).
    cbn [fst] in Heq. inversion Heq; subst ki' si'.
    exists a. split.
    + rewrite <- Hargs. apply list_elem_of_fmap. by exists (ki, si, a).
    + rewrite Forall_forall in Htagged. by destruct (Htagged _ Ht) as [? _].
  - intros HR HC. unfold compute_scaled_probabilities. cbv zeta.
    rewrite Hsweep.
    destruct (plot_scaled_matches_run scales errors _ _ subplots σ2 Hshape)
      as (r0 & r1 & r2 & x & e01 & e11 & e12 & e21 & e22 & H); [done..|].
    destruct H as (_ & _ & _ & _ & _ & _ & _ & H). by run H.
  - intros Hsmall. unfold compute_scaled_probabilities. cbv zeta.
    rewrite Hsweep. apply bind_Raise.
    by eapply plot_scaled_matches_IndexError.
Qed.

(** ** The noisy variants only remove activity *)

Lemma zero_at_entries cols : forall (row0 row : list Q),
  Forall2 (fun x y => y = x \/ y = 0%Q) row0 row ->
  Forall2 (fun x y => y = x \/ y = 0%Q) row0 (zero_at cols row).
Proof.
  unfold zero_at. induction cols as [|j cols IH]; intros row0 row H; [done|].
  cbn [foldl]. apply IH.
  destruct (decide (j < length row)) as [Hj|Hj].
  - destruct (lookup_lt_is_Some_2 row j Hj) as [y Hy].
    pose proof (Forall2_length _ _ _ H) as Hlen.
    destruct (lookup_lt_is_Some_2 row0 j) as [x Hx]; [lia|].
    rewrite <- (list_insert_id row0 j x Hx).
    apply Forall2_insert; [done|by right].
  - by rewrite list_insert_ge by lia.
Qed.

Lemma count_nonzero_entries (row v : list Q) :
  Forall2 (fun x y => y = x \/ y = 0%Q) row v ->
  count_nonzero v <= count_nonzero row.
Proof.
  induction 1 as [|x y row v Hxy _ IH]; [done|].
  rewrite !count_nonzero_cons. destruct Hxy as [->| ->].
  - lia.
  - change (is_nonzero 0) with false. destruct (is_nonzero x); lia.
Qed.

(** X20: whenever the noisy-variant builder returns, for any [kw] and
    any [noise_pct], each of the [m2] rows it returns has the length of
    the source row and holds, at every position, either the source's
    entry or zero: a variant never has activity where the source has
    none, nor more non-zero entries than the source.  The call draws
    [m2] permutations and no uniform number. *)
Theorem get_permuted_tensors_only_zeroes w row kw n m2 p σ l σ' :
  heap σ !! w = Some [row] ->
  get_permuted_tensors w kw n m2 p σ = OK (l, σ') ->
  exists variants,
    heap σ' !! l = Some variants /\
    length variants = m2 /\
    Forall (fun v =>
              length v = length row /\
              Forall2 (fun x y => y = x \/ y = 0%Q) row v /\
              count_nonzero v <= count_nonzero row) variants /\
    torch_pos σ' = torch_pos σ /\
    np_pos σ' = np_pos σ + m2.
Proof.
  intros Hw Hrun. rewrite (get_permuted_tensors_run _ row) in Hrun by done.
  destruct (all_in_range row kw p (np_pos σ) m2); [|done].
  injection Hrun as <- <-. cbn [heap torch_pos np_pos].
  eexists. split; [apply lookup_insert_eq|].
  split; [by rewrite length_map, length_seq|]. split; [|done].
  apply Forall_fmap, Forall_forall. intros i _. simpl.
  assert (Hent : Forall2 (fun x y => y = x \/ y = 0%Q) row
                         (variant row kw p (np_pos σ) i)).
  { unfold variant. apply zero_at_entries.
    apply Forall_Forall2_diag, Forall_forall. intros x _. by left. }
  split; [|split; [done|by apply count_nonzero_entries]].
  unfold variant. apply length_zero_at.
Qed.

End Script.

(** ** Concrete runs *)

Lemma identity_perms_valid : valid_perms identity_perms.
Proof. intros t n. apply Permutation_refl. Defined.

Lemma quarter_stream_nonzero kw :
  1 <= kw ->
  forall t, is_nonzero (uniform_value quarter_stream (- (1 / Qnat kw))%Q
                                      (1 / Qnat kw)%Q t) = true.
Proof.
  intros Hk t. unfold is_nonzero, uniform_value, quarter_stream.
  apply negb_true_iff, not_true_iff_false. rewrite Qeq_bool_iff.
  unfold Qnat, Qeq, Qdiv, Qinv, Qmult, Qplus, Qminus, Qopp.
  destruct (Z.of_nat kw) as [|q|q] eqn:Hq; try lia.
  simpl. lia.
Defined.

(** C1.  The false-negative sweep with the script's default arguments
    (ten noise levels, [kw = 24], 8 workers, 1000 trials, [n = 500]),
    and the same sweep with a single worker: the workers all return, and
    the scatter loop then raises [KeyError] on ["pct_false"], so no cell
    of [errors] is ever written. *)
Theorem default_false_negative_sweep_fails :
  let listof_noise :=
    [1 # 10; 2 # 10; 3 # 10; 4 # 10; 45 # 100; 5 # 10; 55 # 100; 6 # 10;
     7 # 10; 8 # 10]%Q in
  compute_false_negatives_parallel quarter_stream identity_perms round_robin
    listof_noise 24 8 1000 500 empty_world = Raise (KeyError "pct_false") /\
  compute_false_negatives_parallel quarter_stream identity_perms round_robin
    listof_noise 24 1 1000 500 empty_world = Raise (KeyError "pct_false").
Proof.
  intros listof_noise.
  split; apply false_negative_sweep_KeyError;
    solve [ apply identity_perms_valid | lia
          | apply quarter_stream_nonzero; lia ].
Qed.

Lemma aggregators_pool_counts_witness :
  valid_perms identity_perms /\ 1 <= 2 /\ 1 <= 24 /\
  exists v σ',
    compute_match_probability quarter_stream identity_perms
      (<["k" := PyInt 64]> (<["n" := PyInt 500]> (<["kw" := PyInt 24]>
       (<["theta" := PyFloat (Fin (1 # 100))]> (<["n_trials" := PyInt 2]>
       (<["input_scaling" := PyFloat (Fin 1)]> ∅))))))
      empty_world = OK (v, σ').
Proof.
  split; [apply identity_perms_valid|]. split; [lia|]. split; [lia|].
  destruct (aggregators_pool_counts quarter_stream identity_perms 2 24
              identity_perms_valid ltac:(lia) ltac:(lia)) as [Hmatch _].
  destruct (Hmatch
    (<["k" := PyInt 64]> (<["n" := PyInt 500]> (<["kw" := PyInt 24]>
     (<["theta" := PyFloat (Fin (1 # 100))]> (<["n_trials" := PyInt 2]>
     (<["input_scaling" := PyFloat (Fin 1)]> ∅))))))
    64%Z 500 (Fin (1 # 100)) 1%Q empty_world)
    as (rs & σ' & _ & _ & Hrun).
  - repeat split; reflexivity.
  - right. lia.
  - eexists _, _. exact Hrun.
Defined.

Lemma aggregators_zero_total_raises_witness :
  compute_match_probability quarter_stream identity_perms
    (match_record 64 24 500 (Fin (1 # 100)) 0 1 0 0) empty_world
    = Raise ZeroDivisionError /\
  compute_false_negatives quarter_stream identity_perms
    (false_negative_record 24 500 (1 # 2) 0 0) empty_world
    = Raise ZeroDivisionError.
Proof.
  destruct (aggregators_zero_total_raises quarter_stream identity_perms)
    as (_ & Hmatch & _ & Hfalse).
  split.
  - apply (Hmatch _ 64%Z 500%Z 24%Z (Fin (1 # 100)) 0%Z);
      solve [reflexivity | lia].
  - apply (Hfalse _ 500 24 (1 # 2)%Q 0%Z); [|lia].
    repeat split; reflexivity.
Defined.

(** The generator with a zero range bound: [k = 2], [n = 3], one row.
    No entry of the row is non-zero, although [min k n] is 2. *)
Lemma get_sparse_tensor_zero_range :
  exists l σ' row,
    get_sparse_tensor quarter_stream identity_perms 2 3 1 false 0%Q empty_world
      = OK (l, σ') /\
    heap σ' !! l = Some [row] /\
    count_nonzero row = 0 /\
    Nat.min 2 3 = 2.
Proof. eexists _, _, _. vm_compute. repeat split; reflexivity. Qed.

(** The same happens with the default range bound [1/24] when the
    symmetric draws hit the midpoint of their interval. *)
Remark get_sparse_tensor_midpoint_draws :
  exists l σ' row,
    get_sparse_tensor half_stream identity_perms 2 3 1 false (1 # 24)%Q
      empty_world = OK (l, σ') /\
    heap σ' !! l = Some [row] /\
    count_nonzero row = 0.
Proof. eexists _, _, _. vm_compute. repeat split; reflexivity. Qed.

Lemma get_sparse_tensor_sparsity_witness :
  valid_perms identity_perms /\ 1 <= 2 /\
  exists l σ' rows,
    get_sparse_tensor quarter_stream identity_perms 3 5 2 false (1 # 3)%Q
      empty_world = OK (l, σ') /\
    heap σ' !! l = Some rows /\
    length rows = 2 /\
    forall i row, rows !! i = Some row -> count_nonzero row = 3.
Proof.
  split; [apply identity_perms_valid|]. split; [lia|].
  destruct (get_sparse_tensor_sparsity quarter_stream identity_perms
              3 5 2 false (1 # 3)%Q empty_world identity_perms_valid
              ltac:(lia)) as (l & σ' & rows & Hrun & Hl & Hlen & Hrows).
  exists l, σ', rows. repeat split; try done.
  intros i row Hrow.
  destruct (Hrows i row Hrow) as (_ & _ & _ & _ & _ & _ & Hcount).
  apply Hcount. intros j _. reflexivity.
Defined.


Lemma return_matches_counts_witness :
  valid_perms identity_perms /\ 1 <= 24 /\
  exists count σ',
    return_matches quarter_stream identity_perms 24 24 500 (Fin (1 # 100)) 1
      empty_world = OK (((Qnat count / Qnat 4000)%Q, count, 4000), σ') /\
    count <= 4000.
Proof.
  split; [apply identity_perms_valid|]. split; [lia|].
  destruct (return_matches_counts quarter_stream identity_perms 24 24 500
              (Fin (1 # 100)) 1%Q empty_world identity_perms_valid ltac:(lia))
    as (lw & li & σ1 & σ2 & σ' & weights & inputs & count & _ & _ & _ & _ & _
        & _ & _ & Hrun & Hle & _).
  exists count, σ'. split; [exact Hrun | exact Hle].
Defined.

(** A false-negative trial with [kw = 2] and [n = 1]: the generated row
    is dense with a single non-zero entry, every variant draws both
    indices 0 and 1, and the second one is past the end. *)
Lemma return_false_negatives_kw_exceeds_n :
  return_false_negatives quarter_stream identity_perms 2 1 1 (Fin (1 # 10))
    empty_world = Raise IndexError.
Proof. vm_compute. reflexivity. Qed.

Lemma return_false_negatives_counts_witness :
  valid_perms identity_perms /\ 1 <= 2 /\
  exists count σ',
    return_false_negatives quarter_stream identity_perms 2 (1 # 2) 5
      (Fin (1 # 100)) empty_world
    = OK (((Qnat count / Qnat 10)%Q, count, 10), σ') /\
    count <= 10.
Proof.
  split; [apply identity_perms_valid|]. split; [lia|].
  destruct (return_false_negatives_counts quarter_stream identity_perms
              2 (1 # 2)%Q 5 (Fin (1 # 100)) empty_world identity_perms_valid
              ltac:(lia)) as (lw & σ1 & row & _ & _ & Hnz & Htrial).
  destruct Htrial as (lv & σ2 & σ' & variants & count & _ & _ & _ & _
                      & Hrun & Hle).
  - rewrite Hnz; [lia|lia|]. intros j _. reflexivity.
  - exists count, σ'. split; [exact Hrun | exact Hle].
Defined.

(** A negative corruption fraction: [kw = 4], [noise_pct = -1/2] on a
    row with four non-zero entries.  [round(p * kw)] is -2, and Python's
    slice [[0:-2]] keeps two indices, so two positions are zeroed, not
    [min (-2) 4]. *)
Lemma get_permuted_tensors_negative_fraction :
  let row := [1; 1; 1; 1]%Q in
  exists l σ' v,
    get_permuted_tensors identity_perms 0 4 4 1 (- (1 # 2))%Q
      (one_row_world row) = OK (l, σ') /\
    heap σ' !! l = Some [v] /\
    4 <= count_nonzero row /\
    Z.min (py_round (- (1 # 2) * Qnat 4)) 4 = (-2)%Z /\
    count_nonzero row - count_nonzero v = 2.
Proof. eexists _, _, _. vm_compute. repeat split; (reflexivity || lia). Qed.

Lemma get_permuted_tensors_variants_witness :
  let row := [1; 0; 2; 3; 4]%Q in
  valid_perms reversed_perms /\
  heap (one_row_world row) !! 0 = Some [row] /\
  3 <= count_nonzero row /\
  (0 <= py_round ((1 # 2) * Qnat 3))%Z /\
  exists l σ' variants,
    get_permuted_tensors reversed_perms 0 3 5 2 (1 # 2)%Q (one_row_world row)
      = OK (l, σ') /\
    heap σ' !! l = Some variants /\
    length variants = 2.
Proof.
  intros row.
  assert (Hv : valid_perms reversed_perms).
  { intros t n. symmetry. apply Permutation_rev. }
  assert (Hc : 3 <= count_nonzero row) by (vm_compute; lia).
  assert (Hr : (0 <= py_round ((1 # 2) * Qnat 3))%Z) by (vm_compute; discriminate).
  split; [exact Hv|]. split; [reflexivity|]. split; [exact Hc|].
  split; [exact Hr|].
  destruct (get_permuted_tensors_variants reversed_perms 0 row 3 5 2 (1 # 2)%Q
              (one_row_world row) Hv eq_refl Hc Hr)
    as (l & σ' & variants & Hrun & Hl & Hlen & _).
  exists l, σ', variants. done.
Defined.

Lemma get_permuted_tensors_source_unchanged_witness :
  let σ := one_row_world [1; 0; 2; 3]%Q in
  exists l σ',
    get_permuted_tensors identity_perms 0 3 4 2 (1 # 2)%Q σ = OK (l, σ') /\
    l <> 0 /\
    heap σ' !! 0 = heap σ !! 0.
Proof.
  intros σ.
  destruct (get_permuted_tensors identity_perms 0 3 4 2 (1 # 2)%Q σ)
    as [[l σ']|e] eqn:Hrun; [|vm_compute in Hrun; discriminate].
  exists l, σ'. split; [reflexivity|].
  destruct (get_permuted_tensors_source_unchanged identity_perms 0 3 4 2
              (1 # 2)%Q σ l σ' Hrun) as (Hne & _ & Hsame & _).
  split; [exact Hne | exact Hsame].
Defined.

(** A dense row of dimensionality 2 with [kw = 3] and full corruption. *)
Lemma get_permuted_tensors_index_fault_witness :
  let row := [1; 2]%Q in
  valid_perms identity_perms /\
  heap (one_row_world row) !! 0 = Some [row] /\
  get_permuted_tensors identity_perms 0 3 2 10 1 (one_row_world row)
    = Raise IndexError.
Proof.
  intros row.
  split; [apply identity_perms_valid|]. split; [reflexivity|].
  destruct (get_permuted_tensors_index_fault identity_perms 0 row 3 2 10 1%Q
              (one_row_world row) identity_perms_valid eq_refl)
    as (_ & _ & _ & Hfault).
  apply Hfault; vm_compute; (lia || discriminate).
Defined.

(** ** Concrete runs of the further properties *)

Lemma quarter_stream_unit : unit_draws quarter_stream.
Proof. intros t. unfold quarter_stream. split; [lra|reflexivity]. Defined.

Lemma get_sparse_tensor_allocates_witness :
  valid_perms identity_perms /\
  exists l σ',
    get_sparse_tensor quarter_stream identity_perms 2 3 2 false (1 # 3)%Q
      empty_world = OK (l, σ') /\
    heap empty_world !! l = None /\
    torch_pos σ' = 6 /\ np_pos σ' = 2.
Proof.
  split; [apply identity_perms_valid|].
  pose proof (get_sparse_tensor_run quarter_stream identity_perms 2 3 2 false
                (1 # 3)%Q empty_world identity_perms_valid
                (or_introl (Nat.neq_succ_0 1))) as Hrun.
  destruct (get_sparse_tensor_allocates quarter_stream identity_perms
              2 3 2 false (1 # 3)%Q empty_world _ _ identity_perms_valid Hrun)
    as (Hfresh & _ & _ & Htp & Hnp).
  eexists _, _. split; [exact Hrun|]. split; [exact Hfresh|].
  split; [exact Htp|exact Hnp].
Defined.

Lemma get_sparse_tensor_entries_bounded_witness :
  valid_perms identity_perms /\ unit_draws quarter_stream /\
  (0 <= 1 # 3)%Q /\
  exists l σ' rows,
    get_sparse_tensor quarter_stream identity_perms 2 3 2 true (1 # 3)%Q
      empty_world = OK (l, σ') /\
    heap σ' !! l = Some rows /\
    Forall (Forall (fun x => (0 <= x)%Q /\ (x <= 1 # 3)%Q /\
                             ((0 < 1 # 3)%Q -> (x < 1 # 3)%Q))) rows.
Proof.
  split; [apply identity_perms_valid|]. split; [apply quarter_stream_unit|].
  split; [by vm_compute|].
  pose proof (get_sparse_tensor_run quarter_stream identity_perms 2 3 2 true
                (1 # 3)%Q empty_world identity_perms_valid
                (or_introl (Nat.neq_succ_0 1))) as Hrun.
  eexists _, _, _. split; [exact Hrun|]. split; [apply lookup_insert_eq|].
  apply (get_sparse_tensor_entries_bounded quarter_stream identity_perms
           2 3 2 true (1 # 3)%Q empty_world _ _ _ identity_perms_valid
           quarter_stream_unit ltac:(by vm_compute) Hrun).
  apply lookup_insert_eq.
Defined.

Lemma get_theta_bounds_witness :
  unit_draws quarter_stream /\ 1 <= 24 /\ 1 <= 3 /\
  exists theta dots σ',
    get_theta quarter_stream identity_perms 24 3 empty_world
      = OK ((Fin theta, dots), σ') /\
    (0 <= theta)%Q /\ (theta <= 1 / (2 * Qnat 24))%Q.
Proof.
  split; [apply quarter_stream_unit|]. split; [lia|]. split; [lia|].
  destruct (get_theta_bounds quarter_stream identity_perms 24 3 empty_world
              quarter_stream_unit ltac:(lia) ltac:(lia))
    as (theta & dots & σ' & Hrun & _ & _ & Hlo & Hhi).
  exists theta, dots, σ'. split; [exact Hrun|]. split; [exact Hlo|exact Hhi].
Defined.

Lemma zero_weight_sparsity_raises_witness :
  compute_match_probability quarter_stream identity_perms
    (match_record 64 0 500 (Fin (1 # 100)) 1000 1 0 0) empty_world
    = Raise ZeroDivisionError /\
  compute_false_negatives quarter_stream identity_perms
    (false_negative_record 0 500 (1 # 2) 1000 0) empty_world
    = Raise ZeroDivisionError.
Proof.
  destruct (zero_weight_sparsity_raises quarter_stream identity_perms
              round_robin) as (_ & _ & _ & Hmatch & Hfalse & _).
  split.
  - apply (Hmatch _ 64%Z 500 (Fin (1 # 100)) 1000%Z 1%Q).
    + repeat split; reflexivity.
    + right. lia.
  - apply (Hfalse _ 500 (1 # 2)%Q 1000%Z). repeat split; reflexivity.
Defined.

Lemma trial_counts_antitone_witness :
  valid_perms identity_perms /\ 1 <= 24 /\ (1 # 100 <= 1 # 50)%Q /\
  exists c1 c2 σ',
    return_matches quarter_stream identity_perms 24 64 500 (Fin (1 # 100)) 1
      empty_world = OK (((Qnat c1 / Qnat 4000)%Q, c1, 4000), σ') /\
    return_matches quarter_stream identity_perms 24 64 500 (Fin (1 # 50)) 1
      empty_world = OK (((Qnat c2 / Qnat 4000)%Q, c2, 4000), σ') /\
    c2 <= c1.
Proof.
  split; [apply identity_perms_valid|]. split; [lia|].
  split; [by vm_compute|].
  destruct (trial_counts_antitone quarter_stream identity_perms 24 500
              empty_world identity_perms_valid ltac:(lia)) as (Hmatch & _ & _).
  apply (Hmatch 64 1%Q (1 # 100)%Q (1 # 50)%Q). by vm_compute.
Defined.

Lemma return_matches_scale_monotone_witness :
  valid_perms identity_perms /\ 1 <= 24 /\
  (0 < 1 # 100)%Q /\ (0 <= 1)%Q /\ (1 <= 3 # 2)%Q /\
  exists c1 c2 σ1 σ2,
    return_matches quarter_stream identity_perms 24 64 500 (Fin (1 # 100)) 1
      empty_world = OK (((Qnat c1 / Qnat 4000)%Q, c1, 4000), σ1) /\
    return_matches quarter_stream identity_perms 24 64 500 (Fin (1 # 100))
      (3 # 2) empty_world = OK (((Qnat c2 / Qnat 4000)%Q, c2, 4000), σ2) /\
    c1 <= c2.
Proof.
  split; [apply identity_perms_valid|]. split; [lia|].
  split; [by vm_compute|]. split; [by vm_compute|]. split; [by vm_compute|].
  destruct (return_matches_scale_monotone quarter_stream identity_perms
              24 64 500 (1 # 100)%Q 1%Q (3 # 2)%Q empty_world
              identity_perms_valid ltac:(lia) ltac:(by vm_compute)
              ltac:(by vm_compute) ltac:(by vm_compute))
    as (c1 & c2 & σ1 & σ2 & H1 & H2 & Hle & _).
  exists c1, c2, σ1, σ2. split; [exact H1|]. split; [exact H2|exact Hle].
Defined.

Lemma return_false_negatives_no_noise_witness :
  valid_perms identity_perms /\ 1 <= 24 /\
  py_round ((1 # 100) * Qnat 24) = 0%Z /\
  exists count σ',
    return_false_negatives quarter_stream identity_perms 24 (1 # 100) 500
      (Fin (1 # 100)) empty_world
    = OK (((Qnat count / Qnat 10)%Q, count, 10), σ') /\
    (count = 0 \/ count = 10).
Proof.
  split; [apply identity_perms_valid|]. split; [lia|]. split; [reflexivity|].
  destruct (return_false_negatives_no_noise quarter_stream identity_perms
              24 (1 # 100)%Q 500 (Fin (1 # 100)) empty_world
              identity_perms_valid ltac:(lia) eq_refl)
    as (lw & σ1 & row & σ' & _ & _ & Hrun).
  cbv zeta in Hrun. eexists _, σ'. split; [exact Hrun|].
  destruct (ge_theta (dot row row) (Fin (1 # 100))); [by right|by left].
Defined.

Lemma return_false_negatives_full_noise_witness :
  valid_perms identity_perms /\ 1 <= 24 /\ 24 <= 500 /\
  (Z.of_nat 24 <= py_round (1 * Qnat 24))%Z /\
  exists σ',
    return_false_negatives quarter_stream identity_perms 24 1 500
      (Fin (1 # 100)) empty_world
    = OK (((Qnat 0 / Qnat 10)%Q, 0, 10), σ').
Proof.
  split; [apply identity_perms_valid|]. split; [lia|]. split; [lia|].
  split; [by vm_compute|].
  destruct (return_false_negatives_full_noise quarter_stream identity_perms
              24 1%Q 500 (Fin (1 # 100)) empty_world
              identity_perms_valid ltac:(lia) ltac:(lia)
              (fun j _ => quarter_stream_nonzero 24 ltac:(lia) _)
              ltac:(by vm_compute)) as (σ' & Hrun).
  exists σ'. exact Hrun.
Defined.

Lemma aggregated_rates_in_unit_interval_witness :
  valid_perms identity_perms /\
  exists r σ' v,
    compute_match_probability quarter_stream identity_perms
      (match_record 64 24 500 (Fin (1 # 100)) 2 1 0 0) empty_world
      = OK (r, σ') /\
    r !! "pct_matches" = Some (PyFloat (Fin v)) /\
    (0 <= v)%Q /\ (v <= 1)%Q.
Proof.
  split; [apply identity_perms_valid|].
  destruct (compute_match_probability_succeeds quarter_stream identity_perms
              (match_record 64 24 500 (Fin (1 # 100)) 2 1 0 0)
              64%Z 500 24 (Fin (1 # 100)) 2 1%Q empty_world
              identity_perms_valid ltac:(lia) ltac:(lia)
              (match_record_settings 64 24 500 (Fin (1 # 100)) 2 1 0 0)
              (or_intror (Pos2Z.is_nonneg 64)))
    as (r & σ' & Hrun).
  destruct (aggregated_rates_in_unit_interval quarter_stream identity_perms
              identity_perms_valid) as [Hmatch _].
  destruct (Hmatch (match_record 64 24 500 (Fin (1 # 100)) 2 1 0 0)
              64%Z 500 24 (Fin (1 # 100)) 2%Z 1%Q empty_world r σ'
              (match_record_settings 64 24 500 (Fin (1 # 100)) 2 1 0 0)
              (or_intror (Pos2Z.is_nonneg 64)) Hrun)
    as (v & -> & H0 & H1).
  eexists _, σ', v. split; [exact Hrun|].
  split; [apply lookup_insert_eq|]. split; [exact H0|exact H1].
Defined.

Lemma compute_match_probability_sentinel_witness :
  match_settings (match_record (-1) 24 5 (Fin (1 # 100)) 1 1 0 0)
                 (-1) 5 24 (Fin (1 # 100)) 1 1 /\
  py_round (inject_Z (Z.of_nat 5) / 2) = 2%Z /\
  compute_match_probability quarter_stream identity_perms
    (match_record (-1) 24 5 (Fin (1 # 100)) 1 1 0 0) empty_world =
  match compute_match_probability quarter_stream identity_perms
          (<["k" := PyInt 2]> (match_record (-1) 24 5 (Fin (1 # 100)) 1 1 0 0))
          empty_world with
  | OK (r, σ') => OK (<["k" := PyInt (-1)]> r, σ')
  | Raise e => Raise e
  end.
Proof.
  split; [repeat split; reflexivity|].
  destruct (compute_match_probability_sentinel quarter_stream identity_perms
              (match_record (-1) 24 5 (Fin (1 # 100)) 1 1 0 0)
              5 24 (Fin (1 # 100)) 1%Z 1%Q empty_world
              ltac:(repeat split; reflexivity)) as [Hhalf Hrun].
  split; [reflexivity|exact Hrun].
Defined.

Lemma workers_missing_key_witness :
  compute_match_probability quarter_stream identity_perms
    (<["k" := PyInt 64]> ∅) empty_world = Raise (KeyError "n") /\
  compute_false_negatives quarter_stream identity_perms
    (<["n" := PyInt 500]> (<["kw" := PyInt 24]> ∅)) empty_world
    = Raise (KeyError "noise_pct").
Proof.
  destruct (workers_missing_key quarter_stream identity_perms
              (<["k" := PyInt 64]> ∅) empty_world) as (_ & Hn & _).
  destruct (workers_missing_key quarter_stream identity_perms
              (<["n" := PyInt 500]> (<["kw" := PyInt 24]> ∅)) empty_world)
    as (_ & _ & _ & _ & _ & _ & _ & _ & Hnoise & _).
  split.
  - apply (Hn 64%Z); reflexivity.
  - apply (Hnoise 500%Z 24%Z); reflexivity.
Defined.

Lemma compute_match_probability_parallel_results_witness :
  valid_perms identity_perms /\
  exists result σ',
    compute_match_probability_parallel quarter_stream identity_perms
      round_robin (match_args [64; -1]%Z [250; 500] 24 (Fin (1 # 100)) 2 1)
      8 empty_world = OK (result, σ') /\
    length result = 4 /\ σ' = empty_world.
Proof.
  split; [apply identity_perms_valid|].
  destruct (run_settings_total round_robin
              (compute_match_probability quarter_stream identity_perms) 8
              (match_args [64; -1]%Z [250; 500] 24 (Fin (1 # 100)) 2 1))
    with (σ := empty_world) as (result & σ' & Hrun).
  { intros a Ha σa.
    assert (Hcases :
      exists k n, (k = -1 \/ 0 <= k)%Z /\
        match_settings a k n 24 (Fin (1 # 100)) (Z.of_nat 2) 1).
    { cbv [match_args imap concat app] in Ha.
      repeat (apply elem_of_cons in Ha as [->|Ha]);
        [..|by apply elem_of_nil in Ha];
        eexists _, _; (split; [|apply match_record_settings]); lia. }
    destruct Hcases as (k & n & Hk & Hset).
    eapply (compute_match_probability_succeeds quarter_stream
              identity_perms a k n 24 _ 2 1%Q σa identity_perms_valid);
      [lia|lia|exact Hset|exact Hk]. }
  destruct (compute_match_probability_parallel_results quarter_stream
              identity_perms round_robin
              (match_args [64; -1]%Z [250; 500] 24 (Fin (1 # 100)) 2 1)
              8 empty_world result σ' identity_perms_valid)
    as (Hlen & _ & Hσ).
  - cbv [match_args imap concat app].
    repeat (apply Forall_cons; split;
            [eexists _, _, _, _, _, _;
             (split; [apply match_record_settings|lia])|]).
    apply Forall_nil_2.
  - exact Hrun.
  - exists result, σ'. split; [exact Hrun|]. split; [exact Hlen|].
    apply Hσ. lia.
Defined.

Lemma pool_tasks_share_random_state_witness :
  1 < 2 /\
  exists rs σ',
    run_settings round_robin
      (compute_match_probability quarter_stream identity_perms) 2
      [match_record 64 24 500 (Fin (1 # 100)) 2 1 0 0;
       match_record 64 24 500 (Fin (1 # 100)) 2 1 0 0] empty_world
    = OK (rs, σ') /\
    rs !! 0 = rs !! 1.
Proof.
  split; [lia|].
  destruct (run_settings_total round_robin
              (compute_match_probability quarter_stream identity_perms) 2
              [match_record 64 24 500 (Fin (1 # 100)) 2 1 0 0;
               match_record 64 24 500 (Fin (1 # 100)) 2 1 0 0])
    with (σ := empty_world) as (rs & σ' & Hrun).
  { intros a Ha σa.
    assert (a = match_record 64 24 500 (Fin (1 # 100)) 2 1 0 0) as ->.
    { repeat (apply elem_of_cons in Ha as [->|Ha]); [done..|].
      by apply elem_of_nil in Ha. }
    eapply (compute_match_probability_succeeds quarter_stream identity_perms
              _ 64%Z 500 24 _ 2 1%Q σa identity_perms_valid);
      [lia|lia|apply match_record_settings|right; lia]. }
  destruct (pool_tasks_share_random_state round_robin
              (compute_match_probability quarter_stream identity_perms) 2
              [match_record 64 24 500 (Fin (1 # 100)) 2 1 0 0;
               match_record 64 24 500 (Fin (1 # 100)) 2 1 0 0]
              empty_world rs σ' ltac:(lia)) as [_ Hsame].
  - intros i j [Hij Hj]. simpl in Hj.
    assert (i = 0) as -> by lia. assert (j = 1) as -> by lia.
    by vm_compute.
  - exact Hrun.
  - exists rs, σ'. split; [exact Hrun|].
    apply (Hsame 0 1 (match_record 64 24 500 (Fin (1 # 100)) 2 1 0 0));
      reflexivity.
Defined.

Lemma compute_match_probability_omega_entries_witness :
  (0 < 32)%Q /\ 1 <= 2 /\
  exists omega_prob σ',
    compute_match_probability_omega quarter_stream identity_perms 32 3
      (Fin (1 # 100)) 2 empty_world = OK (omega_prob, σ') /\
    length omega_prob = 4 /\
    omega_prob !! 0 = Some 0%Q /\
    torch_pos σ' = 24.
Proof.
  split; [by vm_compute|]. split; [lia|].
  destruct (compute_match_probability_omega_entries quarter_stream
              identity_perms 32 3 (Fin (1 # 100)) 2 empty_world
              ltac:(by vm_compute) ltac:(lia))
    as (omega_prob & σ' & Hrun & -> & Hlen & _ & Htp & _).
  eexists _, σ'. split; [exact Hrun|]. split; [exact Hlen|].
  split; [reflexivity|exact Htp].
Defined.

Lemma compute_match_probability_omega_edges_witness :
  1 <= 32 /\ (0 == 0)%Q /\ (0 < 32)%Q /\
  compute_match_probability_omega quarter_stream identity_perms 0 32
    (Fin (1 # 100)) 100 empty_world = Raise ZeroDivisionError /\
  compute_match_probability_omega quarter_stream identity_perms 32 32
    (Fin (1 # 100)) 0 empty_world = Raise ZeroDivisionError.
Proof.
  split; [lia|]. split; [reflexivity|]. split; [by vm_compute|].
  split.
  - destruct (compute_match_probability_omega_edges quarter_stream
                identity_perms 0 (Fin (1 # 100)) 100 32 empty_world)
      as (_ & Hk & _).
    apply Hk; [lia|reflexivity].
  - destruct (compute_match_probability_omega_edges quarter_stream
                identity_perms 32 (Fin (1 # 100)) 0 32 empty_world)
      as (_ & _ & Hn).
    apply Hn; [lia|by vm_compute].
Defined.

Lemma plot_matches_requirements_witness :
  shape [[1; 2; 3]; [4; 5; 6]; [7; 8; 9]]%Q 3 3 /\
  length [250; 500; 1000]%Q = 3 /\
  plot_matches [250; 500; 1000]%Q [[1; 2; 3]; [4; 5; 6]; [7; 8; 9]]%Q
    subplots empty_world = Raise IndexError.
Proof.
  assert (Hs : shape [[1; 2; 3]; [4; 5; 6]; [7; 8; 9]]%Q 3 3).
  { split; [reflexivity|]. by repeat constructor. }
  split; [exact Hs|]. split; [reflexivity|].
  destruct (plot_matches_requirements [250; 500; 1000]%Q _ 3 3 subplots
              empty_world Hs) as (_ & Hfail & _).
  apply Hfail; [reflexivity|lia].
Defined.

Lemma plot_scaled_matches_requirements_witness :
  shape [[1; 2; 3]; [4; 5; 6]; [7; 8; 9]]%Q 3 3 /\
  length [1; 2; 3]%Q = 3 /\ 3 <= 3 /\
  exists ax,
    plot_scaled_matches [1; 2; 3]%Q [[1; 2; 3]; [4; 5; 6]; [7; 8; 9]]%Q
      subplots empty_world = OK (ax, empty_world) /\
    length (artists ax) = 6.
Proof.
  assert (Hs : shape [[1; 2; 3]; [4; 5; 6]; [7; 8; 9]]%Q 3 3).
  { split; [reflexivity|]. by repeat constructor. }
  split; [exact Hs|]. split; [reflexivity|]. split; [lia|].
  destruct (plot_scaled_matches_requirements [1; 2; 3]%Q _ 3 3 subplots
              empty_world Hs) as (Hok & _).
  destruct (Hok eq_refl ltac:(lia) ltac:(lia))
    as (r0 & r1 & r2 & x & e01 & e11 & e12 & e21 & e22 & H).
  destruct H as (_ & _ & _ & _ & _ & _ & _ & H).
  eexists. split; [exact H|reflexivity].
Defined.

Lemma match_sweep_plot_witness :
  exists errors σ',
    compute_match_probabilities quarter_stream identity_perms round_robin
      [64; 128; 256]%Z [250; 500; 1000; 1500; 2000; 2500] 1 24 10 1000
      empty_world = OK (errors, σ') /\
    shape errors 3 6 /\
    plot_matches (map Qnat [250; 500; 1000; 1500; 2000; 2500]) errors
      subplots σ' = Raise IndexError.
Proof.
  destruct (match_sweep_scatters quarter_stream identity_perms round_robin
              [64; 128; 256]%Z [250; 500; 1000; 1500; 2000; 2500] 1%Q
              24 10 1000 empty_world identity_perms_valid ltac:(lia)
              ltac:(lia))
    as (theta & dots & σ1 & result & σ2 & errors & _ & _ & Hrun & _).
  { repeat constructor; lia. }
  destruct (match_sweep_plot quarter_stream identity_perms round_robin
              [64; 128; 256]%Z [250; 500; 1000; 1500; 2000; 2500] 1%Q
              24 10 1000 empty_world errors σ2 subplots Hrun)
    as (Hs & _ & Hfail).
  exists errors, σ2. split; [exact Hrun|]. split; [exact Hs|].
  apply Hfail. left. simpl. lia.
Defined.

Lemma scaled_sweep_scatters_witness :
  valid_perms identity_perms /\ 1 <= 32 /\ 1 <= 1000 /\
  exists errors σ',
    compute_scaled_probabilities quarter_stream identity_perms round_robin
      [1; 3 # 2; 2; 5 # 2; 3; 7 # 2; 4]%Q [64; 128; 256]%Z 32 1000 10 1000
      empty_world = OK (errors, σ') /\
    shape errors 3 7.
Proof.
  split; [apply identity_perms_valid|]. split; [lia|]. split; [lia|].
  destruct (scaled_sweep_scatters quarter_stream identity_perms round_robin
              [1; 3 # 2; 2; 5 # 2; 3; 7 # 2; 4]%Q [64; 128; 256]%Z
              32 1000 10 1000 empty_world identity_perms_valid ltac:(lia)
              ltac:(lia))
    as (theta & dots & σ1 & result & σ2 & errors & _ & _ & Hs & _ & _
        & Hok & _).
  { repeat constructor; lia. }
  exists errors, σ2. split; [|exact Hs]. apply Hok; simpl; lia.
Defined.

Lemma get_permuted_tensors_only_zeroes_witness :
  heap (one_row_world [1 # 2; 0; 1 # 3; 1 # 4]%Q) !! 0
    = Some [[1 # 2; 0; 1 # 3; 1 # 4]%Q] /\
  exists l σ' variants,
    get_permuted_tensors reversed_perms 0 3 4 2 (-1 # 2)
      (one_row_world [1 # 2; 0; 1 # 3; 1 # 4]%Q) = OK (l, σ') /\
    heap σ' !! l = Some variants /\
    length variants = 2 /\
    Forall (fun v => count_nonzero v <= 3) variants.
Proof.
  split; [reflexivity|].
  destruct (get_permuted_tensors reversed_perms 0 3 4 2 (-1 # 2)
              (one_row_world [1 # 2; 0; 1 # 3; 1 # 4]%Q))
    as [[l σ']|e] eqn:Hrun; [|by vm_compute in Hrun].
  destruct (get_permuted_tensors_only_zeroes reversed_perms 0
              [1 # 2; 0; 1 # 3; 1 # 4]%Q 3 4 2 (-1 # 2)%Q
              (one_row_world [1 # 2; 0; 1 # 3; 1 # 4]%Q) l σ'
              eq_refl Hrun) as (variants & Hl & Hlen & Hall & _).
  exists l, σ', variants. split; [reflexivity|]. split; [exact Hl|].
  split; [exact Hlen|].
  eapply Forall_impl; [exact Hall|]. by intros v (_ & _ & Hc).
Defined.

(** The script run as a program plots the numbers of earlier runs; both
    panels get their curves. *)
Lemma plot_matches2_requirements_witness :
  exists ax1 ax2,
    create_pregenerated_graphs empty_world = OK ((ax1, ax2), empty_world) /\
    length (artists ax1) = 8 /\ length (artists ax2) = 6.
Proof.
  unfold create_pregenerated_graphs. cbv zeta.
  match goal with
  | |- exists ax1 ax2, plot_matches2 ?ns ?errors ?scales ?se _ = _ /\ _ =>
      destruct (plot_matches2_requirements ns errors 4 6 scales se 3 7
                  empty_world) as [Hok _]
  end.
  - split; [reflexivity|]. by repeat constructor.
  - reflexivity.
  - split; [reflexivity|]. by repeat constructor.
  - reflexivity.
  - destruct Hok as (ax1 & ax2 & Hrun & _ & _ & H1 & H2); [lia..|].
    exists ax1, ax2. split; [exact Hrun|]. split; [exact H1|exact H2].
Defined.
